(** * Verification of the date-range-aware cache of the Likes training CLI

    Shallow embedding of [scripts/cache.py] (class [LikesCache]) and proofs of
    the properties its specification states about the interval merger, the
    gap detector, the entity stores, the fetch orchestrator and the backfill
    scheduler; then of [stats], of the API client of [scripts/likes.py]
    (class [LikesAPI]) and of its activities command, with further
    properties that the code has. *)

From Stdlib Require Import ZArith List String Ascii Bool Lia.
From Stdlib Require Import Structures.OrdersEx Structures.OrdersFacts.
From Stdlib Require Import DecimalString Sorting.Permutation.
Import ListNotations.

Open Scope string_scope.
Open Scope Z_scope.

(* ------------------------------------------------------------------ *)
(** ** Python string comparison

    Dates are [YYYY-MM-DD] strings and the cache compares them with Python's
    [<], [<=], [min] and [max] on [str], which is the lexicographic order on
    code points. *)

Module StrOrd.

(** [a < b] *)
Definition ltb (a b : string) : bool :=
  match String_as_OT.compare a b with Lt => true | _ => false end.

(** [a <= b] *)
Definition leb (a b : string) : bool := negb (ltb b a).

(** [max(a, b)]: Python returns the first argument unless the second is
    strictly greater. *)
Definition max (a b : string) : string := if ltb a b then b else a.

(** [min(a, b)]: the first argument unless the second is strictly smaller. *)
Definition min (a b : string) : string := if ltb b a then b else a.

Definition lt (a b : string) : Prop := ltb a b = true.
Definition le (a b : string) : Prop := ltb b a = false.

End StrOrd.

(* ------------------------------------------------------------------ *)
(** ** Python's stable sort

    [sorted(xs, key=k)] and [list.sort(key=k)] are stable, and the result of a
    stable sort is determined by its input; insertion sort that places an
    element before the first later element it does not exceed computes it. *)

Module PySort.
Section Sort.
Context {A : Type}.
(** [before x y]: [x], which came earlier in the input, may stay in front
    of [y]. *)
Variable before : A -> A -> bool.

Fixpoint insert (x : A) (l : list A) : list A :=
  match l with
  | [] => [x]
  | y :: l' => if before x y then x :: l else y :: insert x l'
  end.

Definition sort (l : list A) : list A := fold_right insert [] l.

(** Every earlier element may stay in front of every later one. *)
Fixpoint ordered (l : list A) : Prop :=
  match l with
  | [] => True
  | x :: l' => (forall y, In y l' -> before x y = true) /\ ordered l'
  end.
End Sort.
End PySort.

(* ------------------------------------------------------------------ *)
(** ** Date ranges: the interval merger and the gap detector *)

Module Ranges.
Import StrOrd.

(** A fetched range is the two-element list [[start, end]]. *)
Definition range : Type := string * string.

(** [sorted(ranges, key=lambda r: r[0])] *)
Definition by_start (r1 r2 : range) : bool := leb (fst r1) (fst r2).
Definition sort_by_start (ranges : list range) : list range :=
  PySort.sort by_start ranges.

(** The loop of [_merge_ranges]: [cur] is [merged[-1]], the result is
    [merged[:-1]] extended by what the rest of the walk produces. *)
Fixpoint merge_walk (cur : range) (rest : list range) : list range :=
  match rest with
  | [] => [cur]
  | (s, e) :: rest' =>
      if leb s (snd cur)
      then merge_walk (fst cur, max (snd cur) e) rest'
      else cur :: merge_walk (s, e) rest'
  end.

Definition _merge_ranges (ranges : list range) : list range :=
  match ranges with
  | [] => []
  | _ =>
      match sort_by_start ranges with
      | [] => []
      | first :: rest => merge_walk first rest
      end
  end.

(** The loop of [_detect_gaps] over the sorted ranges, and the trailing
    gap after it. *)
Fixpoint gaps_walk (end_ cursor : string) (sorted_r : list range)
  : list range :=
  match sorted_r with
  | [] => if ltb cursor end_ then [(cursor, end_)] else []
  | (rs, re_) :: rest =>
      let emitted :=
        if ltb cursor rs then
          let gap_end := min rs end_ in
          if ltb cursor gap_end then [(cursor, gap_end)] else []
        else [] in
      emitted ++ gaps_walk end_ (max cursor re_) rest
  end.

(** [_detect_gaps] once the store's [_fetched_ranges] has been read. *)
Definition detect_gaps (ranges : list range) (start end_ : string)
  : list range :=
  match ranges with
  | [] => [(start, end_)]
  | _ => gaps_walk end_ start (sort_by_start ranges)
  end.

(** *** Predicates of the specification *)

(** [x] lies in the closed interval [r]. *)
Definition covers (r : range) (x : string) : Prop :=
  le (fst r) x /\ le x (snd r).

(** Two intervals share at most an end point. *)
Definition apart (g r : range) : Prop :=
  le (snd r) (fst g) \/ le (snd g) (fst r).

(** [x] lies in a gap or in a fetched range. *)
Definition covered (gaps fetched : list range) (x : string) : Prop :=
  (exists g, In g gaps /\ covers g x) \/ (exists r, In r fetched /\ covers r x).

(** Sorted by start, and every interval ends strictly before each later one
    starts: neither overlapping nor touching. *)
Fixpoint merged_ok (l : list range) : Prop :=
  match l with
  | [] => True
  | r :: l' =>
      (forall r', In r' l' -> le (fst r) (fst r') /\ lt (snd r) (fst r'))
      /\ merged_ok l'
  end.

End Ranges.

(* ------------------------------------------------------------------ *)
(** ** Python values, dictionaries and exceptions *)

Module Py.

(** The JSON scalars a record field can hold and the cache inspects
    ([None] is JSON [null]). Floats and nested lists or objects occur only
    in pass-through fields, which the cache never reads, and are left out. *)
Inductive value : Type :=
| VNone
| VBool (b : bool)
| VInt (n : Z)
| VStr (s : string).

(** Truth value of an object in [if v], [not v], [a and b], [a or b]. *)
Definition truthy (v : value) : bool :=
  match v with
  | VNone => false
  | VBool b => b
  | VInt n => negb (n =? 0)
  | VStr s => negb (String.eqb s "")
  end.

Definition str_of_Z (n : Z) : string := NilZero.string_of_int (Z.to_int n).

(** [str(v)] *)
Definition str (v : value) : string :=
  match v with
  | VNone => "None"
  | VBool true => "True"
  | VBool false => "False"
  | VInt n => str_of_Z n
  | VStr s => s
  end.

(** Numeric value of an [int] or [bool] ([True == 1], [False == 0]). *)
Definition as_number (v : value) : option Z :=
  match v with
  | VInt n => Some n
  | VBool b => Some (if b then 1 else 0)
  | _ => None
  end.

(** [a == b], which together with [hash] decides when two dictionary keys
    are the same key. *)
Definition eqb (a b : value) : bool :=
  match a, b with
  | VNone, VNone => true
  | VStr s, VStr t => String.eqb s t
  | _, _ =>
      match as_number a, as_number b with
      | Some m, Some n => m =? n
      | _, _ => false
      end
  end.

(** *** Insertion-ordered dictionaries ([dict], Python 3.7 and later) *)
Section Dict.
Context {K V : Type}.
Variable same : K -> K -> bool.

Definition dict : Type := list (K * V).

(** [d.get(k)] / [k in d] *)
Fixpoint get (k : K) (d : dict) : option V :=
  match d with
  | [] => None
  | (k', v) :: d' => if same k k' then Some v else get k d'
  end.

(** [d[k] = v]: an existing key keeps its position (and its key object),
    a new key goes to the end. *)
Fixpoint set (k : K) (v : V) (d : dict) : dict :=
  match d with
  | [] => [(k, v)]
  | (k', v') :: d' =>
      if same k k' then (k', v) :: d' else (k', v') :: set k v d'
  end.

(** [del d[k]] for a key that is present: the key is gone afterwards. *)
Definition del (k : K) (d : dict) : dict :=
  filter (fun kv => negb (same k (fst kv))) d.

(** [d.values()] and [d.keys()], in insertion order. *)
Definition values (d : dict) : list V := map snd d.
Definition keys (d : dict) : list K := map fst d.

(** No two entries of a dictionary have the same key. *)
Fixpoint wf (d : dict) : Prop :=
  match d with
  | [] => True
  | (k, _) :: d' => (forall k', In k' (keys d') -> same k' k = false) /\ wf d'
  end.
End Dict.
Arguments dict : clear implicits.

(** A record (activity, plan or feedback entry) is a [dict] from field
    names to values; [oid] is the object's identity, what [id(r)]
    returns. *)
Record record : Type := mkRecord {
  oid : Z;
  fields : dict string value
}.

(** [r.get(name)] without default: [None] when absent. *)
Definition field (name : string) (r : record) : option value :=
  get String.eqb name (fields r).

(** [r.get(name, default)] *)
Definition field_or (name : string) (default : value) (r : record) : value :=
  match field name r with Some v => v | None => default end.

(** [r[name] = v]: the object is updated in place and keeps its identity. *)
Definition set_field (name : string) (v : value) (r : record) : record :=
  mkRecord (oid r) (set String.eqb name v (fields r)).

(** [seq[:n]] *)
Definition slice_to {A} (n : Z) (l : list A) : list A :=
  if n <? 0 then firstn (Z.to_nat (Z.of_nat (List.length l) + n)) l
  else firstn (Z.to_nat n) l.

Inductive exn : Type :=
| RequestException   (** [requests.exceptions.RequestException] *)
| ValueError
| TypeError
| OverflowError.

(** The parts of the Python runtime the cache calls and this development
    leaves open: parsing and printing of numbers and dates, and the clock. *)
Class Runtime : Type := {
  (** [int(s)] for a [str]; [None] is [ValueError]. *)
  int_of_str : string -> option Z;
  (** [datetime.strptime(s, "%Y-%m-%d").replace(tzinfo=utc)] as seconds
      since the epoch; [None] is [ValueError]. *)
  strptime : string -> option Z;
  (** [dt.strftime("%Y-%m-%d")] of the UTC instant [dt] seconds after the
      epoch. *)
  strftime : Z -> string;
  (** [dt.isoformat()] *)
  isoformat : Z -> string;
  (** [datetime.now(timezone.utc)] at the n-th reading of the clock. *)
  clock : nat -> Z
}.

End Py.

(* ------------------------------------------------------------------ *)
(** ** The cache: state, effects and the operations of [LikesCache]

    Each method of [LikesCache] is a computation in a state-and-exception
    monad. The state holds the object's [_stores] dictionary, the documents
    of the cache directory, the lines printed to [sys.stderr], and two
    counters that index the clock and the collaborator, so that either may
    answer differently each time it is asked.

    What is left out: failures of the file system when a document is
    written, and [KeyError] of [del], which the code only applies to keys it
    has just read. [stats] comes further down, in [Statistics]. Records have value
    semantics plus an identity; the one place where the code updates a
    shared object, the [_cached_at] stamp of a merged item, is modelled by
    the merge returning the items as stamped. *)

Module Cache.
Import Py Ranges.

Definition FROZEN_DAYS : Z := 7.
Definition CHUNK_DAYS : Z := 30.
Definition PLAN_CHUNK_DAYS : Z := 42.
Definition BACKFILL_EMPTY_STOP : Z := 6.

(** *** State *)

(** An entity store, the dictionary
    [{"records": {...}, "_fetched_ranges": [...]}]. *)
Record store : Type := mkStore {
  records : dict value record;
  _fetched_ranges : list range
}.

Definition empty_store : store := mkStore [] [].

(** What [<name>.json] holds: text that does not parse, or a document in
    which either key may be missing. *)
Inductive file : Type :=
| Malformed
| Document (recs : option (dict value record)) (ranges : option (list range)).

(** The lines printed to [sys.stderr]. *)
Inductive log_line : Type :=
| WarnNoCacheCannotServe
| WarnNoCache
| WarnGap (gap_start gap_end : string)
| WarnRecent
| WarnCached
| LogChunk (endpoint : string) (number : Z) (chunk_start chunk_end : string)
| LogCached
| LogRecords (count : Z)
| LogStopping
| LogApiError
| LogUnknownEndpoint (endpoint : string).

(** The [LikesCache] object ([_stores]), the cache directory ([disk]) and
    the outside world as far as the cache touches it. *)
Record state : Type := mkState {
  _stores : dict string store;
  disk : dict string file;
  clock_reads : nat;
  api_calls : nat;
  stderr : list log_line
}.

Definition with_stores (f : dict string store -> dict string store)
  (s : state) : state :=
  mkState (f (_stores s)) (disk s) (clock_reads s) (api_calls s) (stderr s).

Definition with_disk (f : dict string file -> dict string file)
  (s : state) : state :=
  mkState (_stores s) (f (disk s)) (clock_reads s) (api_calls s) (stderr s).

(** *** Effects: state and exceptions *)

Inductive outcome (A : Type) : Type :=
| Ret (a : A) (s : state)
| Raise (e : exn) (s : state).
Arguments Ret {A}.
Arguments Raise {A}.

Definition M (A : Type) : Type := state -> outcome A.

Definition ret {A} (a : A) : M A := fun s => Ret a s.
Definition raise {A} (e : exn) : M A := fun s => Raise e s.
Definition bind {A B} (m : M A) (k : A -> M B) : M B :=
  fun s => match m s with Ret a s' => k a s' | Raise e s' => Raise e s' end.

(** [try: body / except RequestException: handler] *)
Definition try_request {A} (body handler : M A) : M A :=
  fun s =>
    match body s with
    | Raise RequestException s' => handler s'
    | r => r
    end.

Notation "x <- m ;; k" := (bind m (fun x => k))
  (at level 61, m at next level, right associativity).
Notation "m ;;; k" := (bind m (fun _ => k))
  (at level 61, right associativity).

Definition final_state {A} (r : outcome A) : state :=
  match r with Ret _ s => s | Raise _ s => s end.

(** [print(..., file=sys.stderr)] *)
Definition print (l : log_line) : M unit :=
  fun s => Ret tt (mkState (_stores s) (disk s) (clock_reads s) (api_calls s)
                     (stderr s ++ [l])).

Fixpoint foldM {A B} (f : B -> A -> M B) (b : B) (l : list A) : M B :=
  match l with
  | [] => ret b
  | a :: l' => b' <- f b a ;; foldM f b' l'
  end.

Fixpoint mapM {A B} (f : A -> M B) (l : list A) : M (list B) :=
  match l with
  | [] => ret []
  | a :: l' => b <- f a ;; bs <- mapM f l' ;; ret (b :: bs)
  end.

Fixpoint filterM {A} (f : A -> M bool) (l : list A) : M (list A) :=
  match l with
  | [] => ret []
  | a :: l' =>
      keep <- f a ;; rest <- filterM f l' ;;
      ret (if keep then a :: rest else rest)
  end.

(** *** The API collaborator *)

(** A response [{"total": ..., "list" or "rows": [...]}]. *)
Record listing : Type := mkListing {
  total : Z;
  rows : list record
}.

Inductive api_result : Type :=
| ApiData (data : listing)
| ApiFailure.   (** the call raises [RequestException] *)

(** The [api] object. Each method answers as a function of its arguments
    and of how many calls the collaborator has served before. *)
Record Api : Type := mkApi {
  get_activities : nat -> string -> string -> option Z -> api_result;
  get_plans : nat -> option string -> option Z -> api_result;
  get_feedback : nat -> string -> string -> api_result
}.

Definition call (answer : nat -> api_result) : M listing :=
  fun s =>
    let s' := mkState (_stores s) (disk s) (clock_reads s) (S (api_calls s))
                (stderr s) in
    match answer (api_calls s) with
    | ApiData data => Ret data s'
    | ApiFailure => Raise RequestException s'
    end.

Section WithRuntime.
Context `{Runtime}.

(** *** Dates and numbers *)

Definition read_clock : M Z :=
  fun s => Ret (clock (clock_reads s))
             (mkState (_stores s) (disk s) (S (clock_reads s)) (api_calls s)
                (stderr s)).

Definition _today : M string := now <- read_clock ;; ret (strftime now).

(** [datetime.now(timezone.utc).isoformat()] *)
Definition now_isoformat : M string :=
  now <- read_clock ;; ret (isoformat now).

Definition _parse_date (s : string) : M Z :=
  match strptime s with
  | Some dt => ret dt
  | None => raise ValueError
  end.

(** Seconds of [datetime.min] and [datetime.max] (years 1 to 9999). *)
Definition datetime_min : Z := -62135596800.
Definition datetime_max : Z := 253402300799.

(** [dt + timedelta(days=days)] *)
Definition add_days (dt days : Z) : M Z :=
  let r := dt + 86400 * days in
  if (datetime_min <=? r) && (r <=? datetime_max) then ret r
  else raise OverflowError.

(** [datetime.fromtimestamp(t, tz=timezone.utc)] *)
Definition fromtimestamp (t : Z) : M Z :=
  if (t <? - 2 ^ 63) || (2 ^ 63 <=? t) then raise OverflowError
  else if (datetime_min <=? t) && (t <=? datetime_max) then ret t
  else raise ValueError.

(** [int(v)]: the number, or the exception it raises. *)
Definition int_value (v : value) : exn + Z :=
  match v with
  | VInt n => inr n
  | VBool b => inr (if b then 1 else 0)
  | VStr s =>
      match int_of_str s with Some n => inr n | None => inl ValueError end
  | VNone => inl TypeError
  end.

Definition int (v : value) : M Z :=
  match int_value v with
  | inr n => ret n
  | inl e => raise e
  end.

(** *** Loading and saving a store *)

Definition _load (name : string) : M store :=
  fun s =>
    match get String.eqb name (_stores s) with
    | Some data => Ret data s
    | None =>
        let data :=
          match get String.eqb name (disk s) with
          | Some (Document recs ranges) =>
              mkStore (match recs with Some r => r | None => [] end)
                      (match ranges with Some r => r | None => [] end)
          | Some Malformed | None => empty_store
          end in
        Ret data (with_stores (set String.eqb name data) s)
    end.

Definition _save (name : string) : M unit :=
  fun s =>
    let data :=
      match get String.eqb name (_stores s) with
      | Some d => d
      | None => empty_store
      end in
    Ret tt (with_disk
              (set String.eqb name (Document (Some (records data))
                                             (Some (_fetched_ranges data)))) s).

(** Assignment through the reference [store = self._load(name)]. *)
Definition update_store (name : string) (f : store -> store) : M unit :=
  fun s =>
    match get String.eqb name (_stores s) with
    | Some data => Ret tt (with_stores (set String.eqb name (f data)) s)
    | None => Ret tt s
    end.

(** *** Merge helpers *)

(** The loop body shared by the three merge helpers; it returns the item
    as the in-place update leaves it. *)
Definition merge_item (name : string) (key_of : record -> value)
  (now : string) (item : record) : M record :=
  let key := key_of item in
  if negb (truthy key) then ret item
  else
    let item' := set_field "_cached_at" (VStr now) item in
    update_store name
      (fun st => mkStore (set eqb key item' (records st))
                         (_fetched_ranges st)) ;;;
    ret item'.

Definition merge_into (name : string) (key_of : record -> value)
  (items : list record) : M (list record) :=
  _load name ;;;
  now <- now_isoformat ;;
  items' <- mapM (merge_item name key_of now) items ;;
  _save name ;;;
  ret items'.

Definition activity_key (item : record) : value :=
  VStr (str (field_or "id" (VStr "") item)).
Definition plan_key (item : record) : value :=
  field_or "start" (VStr "") item.
Definition feedback_key (item : record) : value :=
  VStr (str (field_or "created_time" (VStr "") item)).

Definition _merge_activities := merge_into "activities" activity_key.
Definition _merge_plans := merge_into "plans" plan_key.
Definition _merge_feedback := merge_into "feedback" feedback_key.

(** *** Query helpers *)

(** The loop body of [_get_cached_activities] and [_get_cached_feedback]:
    is the record's timestamp within [start_dt .. end_dt + 1 day]? *)
Definition in_window (date_field : string) (start_dt end_dt : Z)
  (rec : record) : M bool :=
  match field_or date_field VNone rec with
  | VNone => ret false
  | sd =>
      t <- int sd ;;
      rec_date <- fromtimestamp t ;;
      if start_dt <=? rec_date then
        limit <- add_days end_dt 1 ;;
        ret (rec_date <=? limit)
      else ret false
  end.

Definition _get_cached_activities (start end_ : string) : M (list record) :=
  store <- _load "activities" ;;
  start_dt <- _parse_date start ;;
  end_dt <- _parse_date end_ ;;
  filterM (in_window "sign_date" start_dt end_dt) (values (records store)).

Definition plan_in_window (start end_ : string) (rec : record) : M bool :=
  let s := field_or "start" (VStr "") rec in
  if negb (truthy s) then ret false
  else
    match s with
    | VStr s' => ret (StrOrd.leb start s' && StrOrd.leb s' end_)
    | _ => raise TypeError
    end.

Definition _get_cached_plans (start end_ : string) : M (list record) :=
  store <- _load "plans" ;;
  filterM (plan_in_window start end_) (values (records store)).

Definition _get_cached_feedback (start end_ : string) : M (list record) :=
  store <- _load "feedback" ;;
  start_dt <- _parse_date start ;;
  end_dt <- _parse_date end_ ;;
  filterM (in_window "created_time" start_dt end_dt)
    (values (records store)).

(** *** Gap detection *)

Definition _record_fetched_range (name start end_ : string) : M unit :=
  store <- _load name ;;
  update_store name
    (fun st => mkStore (records st)
                 (_merge_ranges (_fetched_ranges st ++ [(start, end_)]))) ;;;
  _save name.

Definition _detect_gaps (name start end_ : string) : M (list range) :=
  store <- _load name ;;
  ret (detect_gaps (_fetched_ranges store) start end_).

(** *** Combining, deduplicating and sorting results *)

(** [{str(r.get(key)) for r in all_records}] and the loop that appends the
    items whose key is not in it. *)
Definition existing_keys (key : string) (all_records : list record)
  : list string :=
  map (fun r => str (field_or key VNone r)) all_records.

Definition append_new (key : string) (all_records items : list record)
  : list record :=
  let existing := existing_keys key all_records in
  all_records ++
  filter (fun item =>
            negb (existsb (String.eqb (str (field_or key VNone item)))
                    existing))
         items.

(** [str(r.get(key, id(r)))] *)
Definition rid (key : string) (r : record) : string :=
  str (field_or key (VInt (oid r)) r).

(** The [seen] dictionary after the deduplication loop. *)
Definition dedup_seen (key : string) (all_records : list record)
  : dict string record :=
  fold_left
    (fun seen r =>
       match get String.eqb (rid key r) seen with
       | Some _ => seen
       | None => set String.eqb (rid key r) r seen
       end)
    all_records [].

(** [sorted(seen.values(), key=lambda r: int(r.get(f, 0)), reverse=True)]:
    the keys are computed first, then the list is sorted on them. *)
Definition newest_first (a b : Z * record) : bool := fst b <=? fst a.

Definition sort_desc (date_field : string) (l : list record)
  : M (list record) :=
  keyed <- mapM (fun r => k <- int (field_or date_field (VInt 0) r) ;;
                          ret (k, r)) l ;;
  ret (map snd (PySort.sort newest_first keyed)).

(** *** Cache-aware fetch: activities *)

(** The body of the loop over the gaps of the frozen portion. *)
Definition fill_gap_activities (api : Api) (all_records : list record)
  (gap : range) : M (list record) :=
  let (gap_start, gap_end) := gap in
  try_request
    (data <- call (fun n => get_activities api n gap_start gap_end
                              (Some 100)) ;;
     items <- _merge_activities (rows data) ;;
     _record_fetched_range "activities" gap_start gap_end ;;;
     ret (append_new "id" all_records items))
    (print (WarnGap gap_start gap_end) ;;; ret all_records).

(** The part of [fetch_activities] that builds [all_records]: the
    frozen portion, then the fresh portion. *)
Definition gather_activities (api : Api) (today start_date end_date : string)
  : M (list record) :=
  today_dt <- _parse_date today ;;
  boundary_dt <- add_days today_dt (- FROZEN_DAYS) ;;
  let frozen_boundary := strftime boundary_dt in
  (* Frozen portion: serve from cache, fetch only gaps *)
  all_records <-
    (if StrOrd.ltb start_date frozen_boundary then
       let frozen_end := StrOrd.min end_date frozen_boundary in
       cached <- _get_cached_activities start_date frozen_end ;;
       gaps <- _detect_gaps "activities" start_date frozen_end ;;
       foldM (fill_gap_activities api) cached gaps
     else ret []) ;;
  (* Fresh portion: always hit API *)
  let fresh_start := StrOrd.max start_date frozen_boundary in
  if StrOrd.leb fresh_start end_date then
    try_request
      (data <- call (fun n => get_activities api n fresh_start end_date
                                (Some 100)) ;;
       items <- _merge_activities (rows data) ;;
       _record_fetched_range "activities" fresh_start end_date ;;;
       ret (append_new "id" all_records items))
      (print WarnRecent ;;;
       cached <- _get_cached_activities fresh_start end_date ;;
       ret (append_new "id" all_records cached))
  else ret all_records.

Definition fetch_activities (api : Api) (start_date end_date : option string)
  (limit : option Z) (no_cache : bool) : M listing :=
  today <- _today ;;
  let end_date := match end_date with Some e => e | None => today end in
  start_date <-
    match start_date with
    | Some s => ret s
    | None =>
        end_dt <- _parse_date end_date ;;
        d <- add_days end_dt (- 30) ;;
        ret (strftime d)
    end ;;
  if no_cache then
    try_request
      (data <- call (fun n => get_activities api n start_date end_date limit) ;;
       items <- _merge_activities (rows data) ;;
       ret (mkListing (total data) items))
      (print WarnNoCacheCannotServe ;;; ret (mkListing 0 []))
  else
    all_records <- gather_activities api today start_date end_date ;;
    (* Dedup by ID, sort desc by sign_date, apply limit *)
    deduped <- sort_desc "sign_date" (values (dedup_seen "id" all_records)) ;;
    let limited :=
      match limit with
      | Some n => if n =? 0 then deduped else slice_to n deduped
      | None => deduped
      end in
    ret (mkListing (Z.of_nat (List.length deduped)) limited).

(** *** Cache-aware fetch: plans *)

(** [cached.sort(key=lambda p: p.get("start", ""))]. Every plan that
    [_get_cached_plans] returns has a [str] start, which is the key. *)
Definition plan_start_key (p : record) : M (string * record) :=
  match field_or "start" (VStr "") p with
  | VStr s => ret (s, p)
  | _ => raise TypeError
  end.

Definition earliest_first (a b : string * record) : bool :=
  StrOrd.leb (fst a) (fst b).

Definition sort_plans (l : list record) : M (list record) :=
  keyed <- mapM plan_start_key l ;;
  ret (map snd (PySort.sort earliest_first keyed)).

(** [start or _today()] *)
Definition or_today (start : option string) : M string :=
  match start with
  | Some s => if truthy (VStr s) then ret s else _today
  | None => _today
  end.

Definition fetch_plans (api : Api) (start : option string)
  (game_id : option Z) (no_cache : bool) : M listing :=
  try_request
    (data <- call (fun n => get_plans api n start game_id) ;;
     items <- _merge_plans (rows data) ;;
     ret (mkListing (total data) items))
    (if no_cache then
       print WarnNoCache ;;; ret (mkListing 0 [])
     else
       print WarnCached ;;;
       plan_start <- or_today start ;;
       start_dt <- _parse_date plan_start ;;
       end_dt <- add_days start_dt PLAN_CHUNK_DAYS ;;
       let plan_end := strftime end_dt in
       cached <- _get_cached_plans plan_start plan_end ;;
       cached <- sort_plans cached ;;
       ret (mkListing (Z.of_nat (List.length cached)) cached)).

(** *** Cache-aware fetch: feedback *)

Definition fill_gap_feedback (api : Api) (all_records : list record)
  (gap : range) : M (list record) :=
  let (gap_start, gap_end) := gap in
  try_request
    (data <- call (fun n => get_feedback api n gap_start gap_end) ;;
     items <- _merge_feedback (rows data) ;;
     _record_fetched_range "feedback" gap_start gap_end ;;;
     ret (append_new "created_time" all_records items))
    (print (WarnGap gap_start gap_end) ;;; ret all_records).

(** [not s] for an optional string argument. *)
Definition missing (s : option string) : bool :=
  match s with Some s => negb (truthy (VStr s)) | None => true end.

(** The part of [fetch_feedback] that builds [all_records]. *)
Definition gather_feedback (api : Api) (start end_ : string)
  : M (list record) :=
  today <- _today ;;
  today_dt <- _parse_date today ;;
  boundary_dt <- add_days today_dt (- FROZEN_DAYS) ;;
  let frozen_boundary := strftime boundary_dt in
  (* Frozen portion *)
  all_records <-
    (if StrOrd.ltb start frozen_boundary then
       let frozen_end := StrOrd.min end_ frozen_boundary in
       cached <- _get_cached_feedback start frozen_end ;;
       gaps <- _detect_gaps "feedback" start frozen_end ;;
       foldM (fill_gap_feedback api) cached gaps
     else ret []) ;;
  (* Fresh portion *)
  let fresh_start := StrOrd.max start frozen_boundary in
  if StrOrd.leb fresh_start end_ then
    try_request
      (data <- call (fun n => get_feedback api n fresh_start end_) ;;
       items <- _merge_feedback (rows data) ;;
       _record_fetched_range "feedback" fresh_start end_ ;;;
       ret (append_new "created_time" all_records items))
      (print WarnRecent ;;;
       cached <- _get_cached_feedback fresh_start end_ ;;
       ret (append_new "created_time" all_records cached))
  else ret all_records.

Definition fetch_feedback (api : Api) (start end_ : option string)
  (no_cache : bool) : M listing :=
  if missing start || missing end_ then ret (mkListing 0 [])
  else
    let start := match start with Some s => s | None => "" end in
    let end_ := match end_ with Some s => s | None => "" end in
    if no_cache then
      try_request
        (data <- call (fun n => get_feedback api n start end_) ;;
         items <- _merge_feedback (rows data) ;;
         ret (mkListing (total data) items))
        (print WarnNoCache ;;; ret (mkListing 0 []))
    else
      all_records <- gather_feedback api start end_ ;;
      (* Dedup by created_time, sort desc *)
      deduped <- sort_desc "created_time"
                   (values (dedup_seen "created_time" all_records)) ;;
      ret (mkListing (Z.of_nat (List.length deduped)) deduped).

(** *** Backfill *)

(** [if months] for the optional horizon. *)
Definition horizon (months : option Z) : option Z :=
  match months with
  | Some m => if m =? 0 then None else Some m
  | None => None
  end.

Definition chunk_days_of (endpoint : string) : Z :=
  if String.eqb endpoint "plans" then PLAN_CHUNK_DAYS else CHUNK_DAYS.

Definition max_chunks_of (months : option Z) (chunk_days : Z) : Z :=
  match horizon months with
  | Some m => m * 30 / chunk_days + 1
  | None => 999
  end.

(** How one pass through the loop body ends: the next iteration (with the
    streak of empty chunks so far), [break], or [return]. *)
Inductive body_end : Type :=
| Next (empty_streak : Z)
| Break
| Return.

(** The tail of the loop body, after a chunk has been fetched. *)
Definition after_fetch (months : option Z) (empty_streak : Z)
  (items : list record) : M body_end :=
  let count := Z.of_nat (List.length items) in
  print (LogRecords count) ;;;
  let empty_streak := if count =? 0 then empty_streak + 1 else 0 in
  (* Auto-stop after consecutive empty chunks (unless bounded by months) *)
  match horizon months with
  | None =>
      if BACKFILL_EMPTY_STOP <=? empty_streak
      then print LogStopping ;;; ret Break
      else ret (Next empty_streak)
  | Some _ => ret (Next empty_streak)
  end.

(** The [try] block of the loop body: fetch one chunk. *)
Definition fetch_chunk (api : Api) (endpoint : string) (months : option Z)
  (chunk_start chunk_end : string) (empty_streak : Z) : M body_end :=
  try_request
    (if String.eqb endpoint "activities" then
       (* Skip chunks fully covered by cache *)
       gaps <- _detect_gaps "activities" chunk_start chunk_end ;;
       match gaps with
       | [] => print LogCached ;;; ret (Next empty_streak)
       | _ =>
           data <- call (fun n => get_activities api n chunk_start chunk_end
                                    (Some 100)) ;;
           items <- _merge_activities (rows data) ;;
           _record_fetched_range "activities" chunk_start chunk_end ;;;
           after_fetch months empty_streak items
       end
     else if String.eqb endpoint "feedback" then
       gaps <- _detect_gaps "feedback" chunk_start chunk_end ;;
       match gaps with
       | [] => print LogCached ;;; ret (Next empty_streak)
       | _ =>
           data <- call (fun n => get_feedback api n chunk_start chunk_end) ;;
           items <- _merge_feedback (rows data) ;;
           _record_fetched_range "feedback" chunk_start chunk_end ;;;
           after_fetch months empty_streak items
       end
     else if String.eqb endpoint "plans" then
       data <- call (fun n => get_plans api n (Some chunk_start) None) ;;
       items <- _merge_plans (rows data) ;;
       after_fetch months empty_streak items
     else
       print (LogUnknownEndpoint endpoint) ;;; ret Return)
    (print LogApiError ;;; ret Break).

(** The loop body for chunk [i]. *)
Definition backfill_chunk (api : Api) (endpoint : string) (months : option Z)
  (today_dt chunk_days : Z) (i : Z) (empty_streak : Z) : M body_end :=
  chunk_end_dt <- add_days today_dt (- (i * chunk_days)) ;;
  chunk_start_dt <- add_days chunk_end_dt (- chunk_days) ;;
  let chunk_start := strftime chunk_start_dt in
  let chunk_end := strftime chunk_end_dt in
  (* Stop if we've gone past the requested range *)
  past <-
    match horizon months with
    | Some m =>
        earliest_dt <- add_days today_dt (- (m * 30)) ;;
        ret (StrOrd.ltb chunk_end (strftime earliest_dt))
    | None => ret false
    end ;;
  if past then ret Break
  else
    print (LogChunk endpoint (i + 1) chunk_start chunk_end) ;;;
    fetch_chunk api endpoint months chunk_start chunk_end empty_streak.

(** [for i in range(max_chunks)], with [remaining] iterations to go. *)
Fixpoint backfill_loop (api : Api) (endpoint : string) (months : option Z)
  (today_dt chunk_days : Z) (remaining : nat) (i : Z) (empty_streak : Z)
  : M unit :=
  match remaining with
  | O => ret tt
  | S remaining' =>
      e <- backfill_chunk api endpoint months today_dt chunk_days i
             empty_streak ;;
      match e with
      | Next empty_streak' =>
          backfill_loop api endpoint months today_dt chunk_days remaining'
            (i + 1) empty_streak'
      | Break | Return => ret tt
      end
  end.

Definition backfill (api : Api) (endpoint : string) (months : option Z)
  : M unit :=
  today <- _today ;;
  today_dt <- _parse_date today ;;
  let chunk_days := chunk_days_of endpoint in
  let max_chunks := max_chunks_of months chunk_days in
  backfill_loop api endpoint months today_dt chunk_days
    (Z.to_nat max_chunks) 0 0.

(** *** Cache management *)

(** Is the record dated before the cutoff, as [clear] tests it? *)
Definition stale (name before : string) (before_dt : Z) (rec : record)
  : M bool :=
  if String.eqb name "activities" then
    let sd := field_or "sign_date" VNone rec in
    if truthy sd then
      t <- int sd ;; d <- fromtimestamp t ;; ret (d <? before_dt)
    else ret false
  else if String.eqb name "plans" then
    let s := field_or "start" VNone rec in
    if truthy s then
      match s with
      | VStr s' => ret (StrOrd.ltb s' before)
      | _ => raise TypeError
      end
    else ret false
  else if String.eqb name "feedback" then
    let ct := field_or "created_time" VNone rec in
    if truthy ct then
      t <- int ct ;; d <- fromtimestamp t ;; ret (d <? before_dt)
    else ret false
  else ret false.

(** One pass of the loop over the three stores in [clear(before)]. *)
Definition clear_store (before : string) (before_dt : Z) (name : string)
  : M unit :=
  store <- _load name ;;
  doomed <- filterM (fun kr => stale name before before_dt (snd kr))
              (records store) ;;
  let to_delete := keys doomed in
  foldM (fun _ key =>
           update_store name
             (fun st => mkStore (del eqb key (records st))
                                (_fetched_ranges st)))
        tt to_delete ;;;
  _save name.

Definition store_names : list string := ["activities"; "plans"; "feedback"].

Definition clear (before : option string) : M unit :=
  match before with
  | None =>
      fun s =>
        Ret tt
          (with_stores (fun _ => [])
             (with_disk
                (fun d => fold_left (fun d name => del String.eqb name d)
                            store_names d) s))
  | Some before =>
      before_dt <- _parse_date before ;;
      foldM (fun _ name => clear_store before before_dt name) tt store_names
  end.
End WithRuntime.
End Cache.

(* ------------------------------------------------------------------ *)
(** ** A runtime to run the cache on concrete inputs

    Dates of the proleptic Gregorian calendar in the zero-padded form
    [YYYY-MM-DD], decimal integers with an optional sign, and a clock that
    starts at a given instant and advances one second per reading. *)

Module SampleRuntime.

Definition days_from_civil (y m d : Z) : Z :=
  let y := if m <=? 2 then y - 1 else y in
  let era := y / 400 in
  let yoe := y - era * 400 in
  let mp := if 2 <? m then m - 3 else m + 9 in
  let doy := (153 * mp + 2) / 5 + d - 1 in
  let doe := yoe * 365 + yoe / 4 - yoe / 100 + doy in
  era * 146097 + doe - 719468.

Definition civil_from_days (z : Z) : Z * Z * Z :=
  let z := z + 719468 in
  let era := z / 146097 in
  let doe := z - era * 146097 in
  let yoe := (doe - doe / 1460 + doe / 36524 - doe / 146096) / 365 in
  let doy := doe - (365 * yoe + yoe / 4 - yoe / 100) in
  let mp := (5 * doy + 2) / 153 in
  let d := doy - (153 * mp + 2) / 5 + 1 in
  let m := if mp <? 10 then mp + 3 else mp - 9 in
  let y := yoe + era * 400 + (if m <=? 2 then 1 else 0) in
  (y, m, d).

Definition digit (c : ascii) : option Z :=
  let n := Z.of_N (N_of_ascii c) in
  if (48 <=? n) && (n <=? 57) then Some (n - 48) else None.

Fixpoint digits (acc : Z) (s : string) : option Z :=
  match s with
  | EmptyString => Some acc
  | String c s' =>
      match digit c with
      | Some d => digits (10 * acc + d) s'
      | None => None
      end
  end.

Definition number (s : string) : option Z :=
  match s with
  | EmptyString => None
  | _ => digits 0 s
  end.

Definition int_of_str (s : string) : option Z :=
  match s with
  | String "-" s' => option_map Z.opp (number s')
  | String "+" s' => number s'
  | _ => number s
  end.

Definition strptime (s : string) : option Z :=
  if negb (Nat.eqb (String.length s) 10) then None
  else if negb (String.eqb (substring 4 1 s) "-"
                && String.eqb (substring 7 1 s) "-") then None
  else
    match number (substring 0 4 s), number (substring 5 2 s),
          number (substring 8 2 s) with
    | Some y, Some m, Some d =>
        let days := days_from_civil y m d in
        let '(y', m', d') := civil_from_days days in
        if (1 <=? y) && (y =? y') && (m =? m') && (d =? d')
        then Some (86400 * days) else None
    | _, _, _ => None
    end.

Definition pad (width : nat) (n : Z) : string :=
  let s := Py.str_of_Z n in
  String.concat "" (repeat "0" (width - String.length s)) ++ s.

Definition strftime (t : Z) : string :=
  let '(y, m, d) := civil_from_days (t / 86400) in
  pad 4 y ++ "-" ++ pad 2 m ++ "-" ++ pad 2 d.

Definition isoformat (t : Z) : string :=
  let secs := t mod 86400 in
  strftime t ++ "T" ++ pad 2 (secs / 3600) ++ ":" ++ pad 2 (secs / 60 mod 60)
    ++ ":" ++ pad 2 (secs mod 60) ++ "+00:00".

(** The runtime whose clock first reads [start] seconds after the epoch. *)
Definition at_time (start : Z) : Py.Runtime :=
  {| Py.int_of_str := int_of_str;
     Py.strptime := strptime;
     Py.strftime := strftime;
     Py.isoformat := isoformat;
     Py.clock := fun n => start + Z.of_nat n |}.

(** Noon of 1 March 2024, UTC. *)
Definition march_2024 : Py.Runtime := at_time 1709294400.

End SampleRuntime.

(* ------------------------------------------------------------------ *)
(** ** Vocabulary of the specification *)

Module Spec.
Import Py Ranges Cache.

(** The state of a first run: nothing loaded, no documents on disk. *)
Definition fresh : state := mkState [] [] 0 0 [].

(** The store [name] as [_load] returns it in state [s]. *)
Definition loaded (name : string) (s : state) : store :=
  match _load name s with Ret st _ => st | Raise _ _ => empty_store end.

(** The [_fetched_ranges] of each of the three entity stores is merged. *)
Definition ranges_merged (s : state) : Prop :=
  forall name, In name store_names ->
               merged_ok (_fetched_ranges (loaded name s)).

(** The operations of [LikesCache] that change the state. *)
Inductive operation : Type :=
| OpMergeActivities (items : list record)
| OpMergePlans (items : list record)
| OpMergeFeedback (items : list record)
| OpRecordRange (name start end_ : string)
| OpFetchActivities (api : Api) (start_date end_date : option string)
    (limit : option Z) (no_cache : bool)
| OpFetchPlans (api : Api) (start : option string) (game_id : option Z)
    (no_cache : bool)
| OpFetchFeedback (api : Api) (start end_ : option string) (no_cache : bool)
| OpBackfill (api : Api) (endpoint : string) (months : option Z)
| OpClear (before : option string).

Section WithRuntime.
Context `{Runtime}.

(** The state an operation leaves, whether it returns or raises. *)
Definition perform (s : state) (op : operation) : state :=
  match op with
  | OpMergeActivities items => final_state (_merge_activities items s)
  | OpMergePlans items => final_state (_merge_plans items s)
  | OpMergeFeedback items => final_state (_merge_feedback items s)
  | OpRecordRange name start end_ =>
      final_state (_record_fetched_range name start end_ s)
  | OpFetchActivities api start_date end_date limit no_cache =>
      final_state (fetch_activities api start_date end_date limit no_cache s)
  | OpFetchPlans api start game_id no_cache =>
      final_state (fetch_plans api start game_id no_cache s)
  | OpFetchFeedback api start end_ no_cache =>
      final_state (fetch_feedback api start end_ no_cache s)
  | OpBackfill api endpoint months =>
      final_state (backfill api endpoint months s)
  | OpClear before => final_state (clear before s)
  end.

Definition run (ops : list operation) (s : state) : state :=
  fold_left perform ops s.

(** *** Identity keys and order of results *)

(** The identity key of a record: [str] of its [id] (activities) or
    [created_time] (feedback), when it has the field. *)
Definition identity_key (key_field : string) (r : record) : option string :=
  option_map str (field key_field r).

Definition keys_of (key_field : string) (l : list record) : list string :=
  flat_map (fun r => match identity_key key_field r with
                     | Some k => [k]
                     | None => []
                     end) l.

(** No two records of [l] share an identity key. *)
Definition distinct_keys (key_field : string) (l : list record) : Prop :=
  NoDup (keys_of key_field l).





(** The number a record is sorted on: [int(r.get(f, 0))]. *)
Definition date_key (date_field : string) (r : record) : option Z :=
  match int_value (field_or date_field (VInt 0) r) with
  | inr k => Some k
  | inl _ => None
  end.

Definition not_older (date_field : string) (r1 r2 : record) : bool :=
  match date_key date_field r1, date_key date_field r2 with
  | Some k1, Some k2 => k2 <=? k1
  | _, _ => false
  end.

(** Sorted descending by the date field. *)
Definition descending (date_field : string) (l : list record) : Prop :=
  PySort.ordered (not_older date_field) l.

(** The string a plan is sorted on: [p.get("start", "")]. *)
Definition start_of (r : record) : option string :=
  match field_or "start" (VStr "") r with
  | VStr s => Some s
  | _ => None
  end.

Definition not_later (r1 r2 : record) : bool :=
  match start_of r1, start_of r2 with
  | Some s1, Some s2 => StrOrd.leb s1 s2
  | _, _ => false
  end.

(** Sorted ascending by start date. *)
Definition ascending (l : list record) : Prop :=
  PySort.ordered not_later l.

(** *** Clearing *)

Definition date_field_of (name : string) : string :=
  if String.eqb name "activities" then "sign_date"
  else if String.eqb name "plans" then "start"
  else "created_time".

(** The record's date field is strictly before the cutoff. *)
Definition dated_before (name before : string) (before_dt : Z) (rec : record)
  : bool :=
  match field (date_field_of name) rec with
  | Some v =>
      if String.eqb name "plans" then
        match v with VStr s => StrOrd.ltb s before | _ => false end
      else
        match int_value v with inr t => t <? before_dt | inl _ => false end
  | None => false
  end.

(** The record's date field holds a value that counts as true (not
    [None], [0], [False] or the empty string) and is strictly before the
    cutoff. *)
Definition is_stale (name before : string) (before_dt : Z) (rec : record)
  : bool :=
  truthy (field_or (date_field_of name) VNone rec)
  && dated_before name before before_dt rec.
End WithRuntime.

(** *** Backfill *)

Definition is_chunk (l : log_line) : bool :=
  match l with LogChunk _ _ _ _ => true | _ => false end.

(** Chunks attempted so far: the chunk lines printed. *)
Definition chunks_attempted (s : state) : nat :=
  List.length (filter is_chunk (stderr s)).

(** [ceil (a / b)] for a positive [b]. *)
Definition ceil_div (a b : Z) : Z := - ((- a) / b).

(** The streak of consecutive empty chunks after one more chunk returned
    [count] records. *)
Definition next_streak (k count : Z) : Z := if count =? 0 then k + 1 else 0.

(** The streak at the end of a log, from streak [k] at its start: every
    record count printed is one fetched chunk. *)
Fixpoint streak_through (k : Z) (log : list log_line) : Z :=
  match log with
  | [] => k
  | LogRecords count :: log' => streak_through (next_streak k count) log'
  | _ :: log' => streak_through k log'
  end.

(** Every chunk of the log was attempted while the streak was below
    [limit]. *)
Fixpoint attempts_below (limit k : Z) (log : list log_line) : Prop :=
  match log with
  | [] => True
  | LogChunk _ _ _ _ :: log' => k < limit /\ attempts_below limit k log'
  | LogRecords count :: log' => attempts_below limit (next_streak k count) log'
  | _ :: log' => attempts_below limit k log'
  end.

Definition count_chunks (log : list log_line) : nat :=
  List.length (filter is_chunk log).

(** No call to the collaborator fails. *)
Definition reliable (api : Api) : Prop :=
  (forall n s e l, get_activities api n s e l <> ApiFailure) /\
  (forall n s g, get_plans api n s g <> ApiFailure) /\
  (forall n s e, get_feedback api n s e <> ApiFailure).

End Spec.

(* ------------------------------------------------------------------ *)
(** ** Notions used in the proofs *)

Module Notions.
Import Py Ranges Cache Spec.

(** [steps T m]: from any state, running [m] ends, by return or by
    exception, in a state related by [T]. *)
Definition steps (T : state -> state -> Prop) {A} (m : M A) : Prop :=
  forall s, T s (final_state (m s)).

(** The store that [_load] builds from what is on disk. *)
Definition from_disk (f : option file) : store :=
  match f with
  | Some (Document recs ranges) =>
      mkStore (match recs with Some r => r | None => [] end)
              (match ranges with Some r => r | None => [] end)
  | Some Malformed | None => empty_store
  end.

(** The relation "if the fetched ranges were merged, they still are". *)
Definition keeps_merged (s s' : state) : Prop :=
  ranges_merged s -> ranges_merged s'.

(** The relation "no chunk line was printed". *)
Definition same_chunks (s s' : state) : Prop :=
  chunks_attempted s' = chunks_attempted s.

(** The relation "the collaborator was not called". *)
Definition same_calls (s s' : state) : Prop := api_calls s' = api_calls s.

(** Computations that call the collaborator at most [n] times. *)
Definition calls_within (n : nat) {A} (m : M A) : Prop :=
  forall s, (api_calls (final_state (m s)) <= api_calls s + n)%nat.

(** The relation "nothing was printed". *)
Definition same_log (s s' : state) : Prop := stderr s' = stderr s.

(** Operations that return and print nothing. *)
Definition quiet {A} (m : M A) : Prop :=
  forall s, exists a s', m s = Ret a s' /\ stderr s' = stderr s.

(** Computations from which no network error escapes. *)
Definition calm {A} (m : M A) : Prop :=
  forall s s', m s <> Raise RequestException s'.


(** The item has no value, or the empty string, in its key field. *)
Definition keyless (key_field : string) (item : record) : Prop :=
  field key_field item = None \/ field key_field item = Some (VStr "").

(** What the [seen] dictionary holds once the records [done] have been
    looked at: one entry per key met, holding the first record met with
    that key. *)
Definition seen_first (key : string) (done : list record)
  (seen : dict string record) : Prop :=
  NoDup (keys seen) /\
  (forall k r, In (k, r) seen ->
     rid key r = k /\
     find (fun r' => String.eqb (rid key r') k) done = Some r) /\
  (forall r, In r done -> In (rid key r) (keys seen)).

(** A check of [wf] that computes. *)
Fixpoint wfb {V} (d : dict value V) : bool :=
  match d with
  | [] => true
  | (k, _) :: d' =>
      forallb (fun k' => negb (eqb k' k)) (keys d') && wfb d'
  end.

(** How a chunk that was fetched ends the loop body, from a streak of [k]
    empty chunks before it: the count is printed; the loop goes on with the
    new streak if that is below 6, and otherwise stops. *)
Definition fetched_end (k : Z) (printed : list log_line) (e : body_end)
  : Prop :=
  exists count,
    (printed = [LogRecords count] /\ e = Next (next_streak k count) /\
     next_streak k count < 6) \/
    (printed = [LogRecords count; LogStopping] /\ e = Break /\
     6 <= next_streak k count).

(** How the [try] block for one chunk ends. *)
Definition chunk_end (k : Z) (printed : list log_line) (e : body_end) : Prop :=
  (printed = [LogCached] /\ e = Next k) \/ fetched_end k printed e.

End Notions.

(* ------------------------------------------------------------------ *)
(** ** Sample collaborators, records and states *)

Module Samples.
Import Py Ranges Cache Spec Notions.

(** A first run after one range of activities has been recorded. *)
Definition one_range_fetched : state :=
  final_state
    (_record_fetched_range "activities" "2024-01-01" "2024-01-10" fresh).

(** An activity with identity [o], id [id_] and timestamp [sign_date]. *)
Definition sample_item (o id_ sign_date : Z) : record :=
  mkRecord o [("id", VInt id_); ("sign_date", VInt sign_date)].

(** Ranges recorded out of order, a merge-insert and a clear. *)
Definition sample_ops : list operation :=
  [OpRecordRange "activities" "2024-01-05" "2024-01-10";
   OpMergeActivities [sample_item 1 7 1704412800];
   OpRecordRange "activities" "2024-01-01" "2024-01-05";
   OpClear (Some "2024-01-03")].

(** A collaborator that is unreachable. *)
Definition api_down : Api :=
  mkApi (fun _ _ _ _ => ApiFailure) (fun _ _ _ => ApiFailure)
        (fun _ _ _ => ApiFailure).

(** An activity that has no [id]. *)
Definition no_id_item : record := mkRecord 2 [("sign_date", VInt 1704412800)].


(** A plan with identity [o] that starts on [start]. *)
Definition sample_plan (o : Z) (start : string) : record :=
  mkRecord o [("start", VStr start)].

(** Two plans cached, the later one first. *)
Definition plans_cached : state :=
  final_state
    (_merge_plans (H := SampleRuntime.march_2024)
       [sample_plan 1 "2024-03-10"; sample_plan 2 "2024-03-05"] fresh).

(** Three activities cached: one dated at the epoch (timestamp 0), one of
    14 November 2023, one of 27 February 2024. *)
Definition three_cached : state :=
  final_state
    (_merge_activities (H := SampleRuntime.march_2024)
       [sample_item 1 7 0; sample_item 2 8 1700000000;
        sample_item 3 9 1709000000] fresh).

(** A collaborator that never has anything. *)
Definition api_empty : Api :=
  mkApi (fun _ _ _ _ => ApiData (mkListing 0 []))
        (fun _ _ _ => ApiData (mkListing 0 []))
        (fun _ _ _ => ApiData (mkListing 0 [])).

(** The state after a two-month backfill of activities on a first run. *)
Definition two_month_run : state :=
  final_state
    (backfill (H := SampleRuntime.march_2024) api_empty "activities" (Some 2)
       fresh).

(** The state after a backfill of activities without horizon on a first
    run, when the collaborator has nothing. *)
Definition empty_history_run : state :=
  final_state
    (backfill (H := SampleRuntime.march_2024) api_empty "activities" None
       fresh).

(** A collaborator that answers every plan call with one plan. *)
Definition api_one_plan : Api :=
  mkApi (fun _ _ _ _ => ApiData (mkListing 0 []))
        (fun _ _ _ => ApiData (mkListing 1 [sample_plan 1 "2024-03-10"]))
        (fun _ _ _ => ApiData (mkListing 0 [])).

(** The state after a backfill of plans without horizon on a first run,
    when every call returns that plan. *)
Definition long_run : state :=
  final_state
    (backfill (H := SampleRuntime.march_2024) api_one_plan "plans" None fresh).

End Samples.

(* ------------------------------------------------------------------ *)
(** ** Vocabulary: what the fetched ranges cover *)

Module Coverage.
Import StrOrd Ranges.

(** [x] lies in one of the ranges. *)
Definition covered_by (ranges : list range) (x : string) : Prop :=
  exists r, In r ranges /\ covers r x.

(** The window [w] lies inside one of the ranges. *)
Definition inside (w : range) (ranges : list range) : Prop :=
  exists r, In r ranges /\ le (fst r) (fst w) /\ le (snd w) (snd r).

(** A range that does not end before it starts. *)
Definition proper (r : range) : Prop := le (fst r) (snd r).

(** [g1], emitted first, ends no later than [g2] starts. *)
Definition precedes (g1 g2 : range) : bool := leb (snd g1) (fst g2).

(** A window inside a range of the store before is inside one after. *)
Definition keeps_inside (w : range) (st st' : Cache.store) : Prop :=
  inside w (Cache._fetched_ranges st) -> inside w (Cache._fetched_ranges st').

(** What an operation that only reads the cache leaves behind: no call to
    the collaborator, nothing printed, the documents and every store as
    they were. *)
Definition served_from_cache (s s' : Cache.state) : Prop :=
  Cache.api_calls s' = Cache.api_calls s /\
  Cache.stderr s' = Cache.stderr s /\
  Cache.disk s' = Cache.disk s /\
  forall name, Spec.loaded name s' = Spec.loaded name s.

End Coverage.

(* ------------------------------------------------------------------ *)
(** ** Vocabulary: what the operations write *)

Module Durability.
Import Py Ranges Cache Spec Notions.

(** The item as a merge leaves it: stamped with the time of the merge. *)
Definition stamped (now : string) (item : record) : record :=
  set_field "_cached_at" (VStr now) item.

(** What one pass of a merge loop does to the records of the store. *)
Definition upsert (key_of : record -> value) (now : string)
  (recs : dict value record) (item : record) : dict value record :=
  if truthy (key_of item) then set eqb (key_of item) (stamped now item) recs
  else recs.

Definition merged_records (key_of : record -> value) (now : string)
  (items : list record) (recs : dict value record) : dict value record :=
  fold_left (upsert key_of now) items recs.

(** The item is stored by a merge, under a key equal to [k]. *)
Definition stored_under (key_of : record -> value) (k : value)
  (item : record) : bool :=
  truthy (key_of item) && eqb k (key_of item).

(** The item as the merge loop hands it back. *)
Definition merged_item (key_of : record -> value) (now : string)
  (item : record) : record :=
  if truthy (key_of item) then stamped now item else item.

(** The document [_save] writes for a store. *)
Definition document (st : store) : file :=
  Document (Some (records st)) (Some (_fetched_ranges st)).

(** The state once [st] has replaced the store [name], in the object and
    on disk. *)
Definition commit (name : string) (st : store) (s : state) : state :=
  mkState (set String.eqb name st (_stores s))
          (set String.eqb name (document st) (disk s))
          (clock_reads s) (api_calls s) (stderr s).

(** The state after one reading of the clock. *)
Definition tick (s : state) : state :=
  mkState (_stores s) (disk s) (S (clock_reads s)) (api_calls s) (stderr s).

(** Every store the object holds is the one its document gives. *)
Definition in_sync (s : state) : Prop :=
  forall name st,
    get String.eqb name (_stores s) = Some st ->
    from_disk (get String.eqb name (disk s)) = st.

(** The next process: a new [LikesCache] object over the same directory. *)
Definition restart (s : state) : state :=
  mkState [] (disk s) (clock_reads s) (api_calls s) (stderr s).

(** Each store as [_load] returns it after is related by [R] to the store
    as [_load] returned it before. *)
Definition stores_related (R : string -> store -> store -> Prop)
  (s s' : state) : Prop :=
  forall name, R name (loaded name s) (loaded name s').

Section WithRuntime.
Context `{Runtime}.

(** What a merge of [items] into the store [name] gives from state [s]:
    the items come back as stamped, and a lookup in the store finds the
    last item that was stored under the key, or else what it found
    before. *)
Definition upserts (name : string) (key_of : record -> value)
  (items : list record) (s : state) (r : outcome (list record)) : Prop :=
  let now := isoformat (clock (clock_reads s)) in
  exists s',
    r = Ret (map (merged_item key_of now) items) s' /\
    forall k,
      get eqb k (records (loaded name s'))
      = match find (stored_under key_of k) (rev items) with
        | Some item => Some (stamped now item)
        | None => get eqb k (records (loaded name s))
        end.

(** The record has a timestamp in [date_field] that, read as a number,
    lies between the start of the first day and the start of the day after
    the last, both included. *)
Definition dated_within (date_field : string) (start_dt end_dt : Z)
  (rec : record) : bool :=
  match field date_field rec with
  | None | Some VNone => false
  | Some v =>
      match int_value v with
      | inr t => (start_dt <=? t) && (t <=? end_dt + 86400)
      | inl _ => false
      end
  end.

(** [start or _today()], when the clock is read in state [s]. *)
Definition plan_start_of (start : option string) (s : state) : string :=
  match start with
  | Some s0 => if truthy (VStr s0) then s0 else strftime (clock (clock_reads s))
  | None => strftime (clock (clock_reads s))
  end.

(** The store [name] is loaded and saved, and none of its records is
    dated before the cutoff as [clear] tests it. *)
Definition settled (name before : string) (before_dt : Z) (s : state)
  : Prop :=
  exists st,
    get String.eqb name (_stores s) = Some st /\
    get String.eqb name (disk s) = Some (document st) /\
    forall kr, In kr (records st) ->
               forall s0, stale name before before_dt (snd kr) s0
                          = Ret false s0.
End WithRuntime.

(** The store [name] after holds the keys it held before, in the same
    places, then at most one new key per item; its keys are unique if they
    were; its fetched ranges and every other store are as before. *)
Definition extends_store (name : string) (items : list record)
  (s s' : state) : Prop :=
  (exists added,
      keys (records (loaded name s'))
      = (keys (records (loaded name s)) ++ added)%list /\
      (List.length added <= List.length items)%nat) /\
  (wf eqb (records (loaded name s)) -> wf eqb (records (loaded name s'))) /\
  _fetched_ranges (loaded name s') = _fetched_ranges (loaded name s) /\
  (forall n, n <> name -> loaded n s' = loaded n s).

(** No two records of an entity store share a key. *)
Definition unique_keys (s : state) : Prop :=
  forall name, In name store_names -> wf eqb (records (loaded name s)).

Definition keeps_unique (st st' : store) : Prop :=
  wf eqb (records st) -> wf eqb (records st').

(** The keys of before are still there, in the same places. *)
Definition keeps_keys (st st' : store) : Prop :=
  exists added, keys (records st') = (keys (records st) ++ added)%list.

(** The store [n0] is as it was. *)
Definition untouched (n0 n : string) (st st' : store) : Prop :=
  n = n0 -> st' = st.

(** The fetched ranges of the store [n0] are as they were. *)
Definition same_ranges (n0 n : string) (st st' : store) : Prop :=
  n = n0 -> _fetched_ranges st' = _fetched_ranges st.

(** The relation "if the object and the documents agreed, they still
    do". *)
Definition keeps_sync (s s' : state) : Prop := in_sync s -> in_sync s'.

(** The plan has a start date, not empty, from [start] to [end_]. *)
Definition starts_within (start end_ : string) (rec : record) : bool :=
  match field_or "start" (VStr "") rec with
  | VStr s =>
      negb (String.eqb s "") && StrOrd.leb start s && StrOrd.leb s end_
  | _ => false
  end.

(** Every call to the collaborator fails. *)
Definition unreachable (api : Api) : Prop :=
  (forall n s e l, get_activities api n s e l = ApiFailure) /\
  (forall n s g, get_plans api n s g = ApiFailure) /\
  (forall n s e, get_feedback api n s e = ApiFailure).

(** The state differs from the one before at most in what was printed and
    in the readings of the clock. *)
Definition only_prints (s s' : state) : Prop :=
  _stores s' = _stores s /\ disk s' = disk s /\ api_calls s' = api_calls s.

(** At most one call was made, and the documents and every store are as
    before. *)
Definition one_call_at_most (s s' : state) : Prop :=
  (api_calls s' <= api_calls s + 1)%nat /\
  disk s' = disk s /\
  forall name, loaded name s' = loaded name s.

(** The operations that may delete records. *)
Definition deletes (op : operation) : bool :=
  match op with OpClear _ => true | _ => false end.

(** [clear()] without a cutoff is the one operation that forgets. *)
Definition wipes (op : operation) : bool :=
  match op with OpClear None => true | _ => false end.

(** Operations that only add to the cache. *)
Definition sample_fetches : list operation :=
  [OpMergeActivities [Samples.sample_item 1 7 1704412800];
   OpBackfill Samples.api_empty "activities" (Some 2);
   OpFetchPlans Samples.api_one_plan None None false].

(** The three cached activities after the records before 2024 have been
    cleared. *)
Definition cleared_2024 : state :=
  final_state
    (clear (H := SampleRuntime.march_2024) (Some "2024-01-01")
       Samples.three_cached).

End Durability.

(* ------------------------------------------------------------------ *)
(** ** The activities command of the CLI *)

Module Commands.
Import Py Cache Spec.

(** [a.get("run_type") == 1] *)
Definition is_run (a : record) : bool :=
  eqb (field_or "run_type" VNone a) (VInt 1).

Section WithRuntime.
Context `{Runtime}.

(** [cmd_activities] of [likes.py] up to the point where it prints: the
    [data] dictionary that [--json] dumps and that the table is made
    from. [limit] is [args.limit], an [int] (10 by default). *)
Definition cmd_activities (api : Api) (start end_ : option string)
  (limit : Z) (all_types no_cache : bool) : M listing :=
  data <- fetch_activities api start end_ None no_cache ;;
  let list := if negb all_types then filter is_run (rows data)
              else rows data in
  let list := slice_to limit list in
  ret (mkListing (Z.of_nat (List.length list)) list).
End WithRuntime.

(** An activity of the given kind. *)
Definition sample_activity (o id_ sign_date run_type : Z) : record :=
  mkRecord o [("id", VInt id_); ("sign_date", VInt sign_date);
              ("run_type", VInt run_type)].

(** A cache that holds two runs and one ride. *)
Definition mixed_cached : state :=
  final_state
    (_merge_activities (H := SampleRuntime.march_2024)
       [sample_activity 1 7 1700000000 1; sample_activity 2 8 1705000000 2;
        sample_activity 3 9 1709000000 1] fresh).

End Commands.

(* ------------------------------------------------------------------ *)
(** ** The API client *)

Module Client.
Import Py.

Definition BASE_URL : string := "https://my.likes.com.cn/api/open".

Definition RATE_LIMITS : dict string Z := [("/activity", 121)].

(** The keyword arguments of a request: [params=...], or
    [json={"plans": plans}]. *)
Inductive kwargs : Type :=
| Params (params : dict string value)
| Json (plans : list record).

(** [session.request(method, url, **kwargs)] *)
Record request : Type := mkRequest {
  method : string;
  url : string;
  payload : kwargs
}.

(** A response: its status code and the document its body decodes to,
    [None] when the body is not JSON and [resp.json()] raises. *)
Record response (J : Type) : Type := mkResponse {
  status_code : Z;
  body : option J
}.
Arguments mkResponse {J}.
Arguments status_code {J}.
Arguments body {J}.

Inductive reply (J : Type) : Type :=
| Response (resp : response J)
| NoResponse.   (** [session.request] raises: no connection, a timeout *)
Arguments Response {J}.
Arguments NoResponse {J}.

Inductive error : Type :=
| HTTPError (status : Z)   (** raised by [resp.raise_for_status()] *)
| ConnectionError          (** raised by [session.request] *)
| JSONDecodeError          (** raised by [resp.json()] *)
| TooManyPlans (got : nat).
    (** [ValueError("Max 200 plans per push, got ...")] *)

(** What the client leaves open: the JSON documents, the numbers of
    Python in which times are measured ([int] and [float], with their
    subtraction and comparison), the clock and the server. *)
Class Network : Type := {
  json : Type;
  (** Python's [None]: what a body [null] decodes to, and what a method
      returns when it ends without a [return]. *)
  null : json;
  number : Type;
  of_int : Z -> number;
  (** [0.6] *)
  DEFAULT_COOLDOWN : number;
  minus : number -> number -> number;
  less : number -> number -> bool;
  (** [time.time()] at the n-th reading. *)
  time : nat -> number;
  (** What the session answers to the n-th request it is handed. *)
  session_request : nat -> request -> reply json
}.

Section WithNetwork.
Context `{Network}.

(** The lines printed to [sys.stderr]. *)
Inductive notice : Type :=
| NoticeWaiting (wait : number) (path : string)
| NoticeRetrying (path : string) (wait : Z) (attempt max_retries : Z).

(** The [LikesAPI] object ([_last_call]) and the outside world as far as
    the client touches it: the requests handed to the session, the
    readings of the clock, the calls of [time.sleep] and the lines
    printed, each oldest first. *)
Record world : Type := mkWorld {
  requests : list request;
  time_reads : nat;
  _last_call : dict string number;
  sleeps : list number;
  notices : list notice
}.

Inductive result (A : Type) : Type :=
| Ok (a : A) (w : world)
| Err (e : error) (w : world).
Arguments Ok {A}.
Arguments Err {A}.

Definition N (A : Type) : Type := world -> result A.

Definition ret {A} (a : A) : N A := fun w => Ok a w.
Definition raise {A} (e : error) : N A := fun w => Err e w.
Definition bind {A B} (m : N A) (k : A -> N B) : N B :=
  fun w => match m w with Ok a w' => k a w' | Err e w' => Err e w' end.

Local Notation "x <- m ;; k" := (bind m (fun x => k))
  (at level 61, m at next level, right associativity).
Local Notation "m ;;; k" := (bind m (fun _ => k))
  (at level 61, right associativity).

Definition after {A} (r : result A) : world :=
  match r with Ok _ w => w | Err _ w => w end.

Definition time_time : N number :=
  fun w => Ok (time (time_reads w))
             (mkWorld (requests w) (S (time_reads w)) (_last_call w)
                (sleeps w) (notices w)).

Definition sleep (wait : number) : N unit :=
  fun w => Ok tt (mkWorld (requests w) (time_reads w) (_last_call w)
                    (sleeps w ++ [wait]) (notices w)).

Definition print (l : notice) : N unit :=
  fun w => Ok tt (mkWorld (requests w) (time_reads w) (_last_call w)
                    (sleeps w) (notices w ++ [l])).

(** [self._last_call.get(path, 0)] *)
Definition last_call (path : string) : N number :=
  fun w => Ok (match get String.eqb path (_last_call w) with
               | Some t => t
               | None => of_int 0
               end) w.

(** [self._last_call[path] = t] *)
Definition set_last_call (path : string) (t : number) : N unit :=
  fun w => Ok tt (mkWorld (requests w) (time_reads w)
                    (set String.eqb path t (_last_call w))
                    (sleeps w) (notices w)).

(** [self.session.request(...)] *)
Definition session_send (req : request) : N (response json) :=
  fun w =>
    let w' := mkWorld (requests w ++ [req]) (time_reads w) (_last_call w)
                (sleeps w) (notices w) in
    match session_request (List.length (requests w)) req with
    | Response resp => Ok resp w'
    | NoResponse => Err ConnectionError w'
    end.

(** [resp.raise_for_status()]: client and server errors raise. *)
Definition raise_for_status (resp : response json) : N unit :=
  if (400 <=? status_code resp) && (status_code resp <? 600)
  then raise (HTTPError (status_code resp))
  else ret tt.

(** [resp.json()] *)
Definition resp_json (resp : response json) : N json :=
  match body resp with
  | Some j => ret j
  | None => raise JSONDecodeError
  end.

Definition _wait_for_rate_limit (path : string) : N unit :=
  let cooldown :=
    match get String.eqb path RATE_LIMITS with
    | Some c => of_int c
    | None => DEFAULT_COOLDOWN
    end in
  last <- last_call path ;;
  now <- time_time ;;
  let elapsed := minus now last in
  if less elapsed cooldown then
    let wait := minus cooldown elapsed in
    (if less (of_int 5) wait then print (NoticeWaiting wait path)
     else ret tt) ;;;
    sleep wait
  else ret tt.

(** [range(n)] *)
Definition range (n : Z) : list Z := map Z.of_nat (seq 0 (Z.to_nat n)).

(** The loop of [_request] over the attempts that are left. A loop that
    runs out of attempts falls through, and the method returns [None]. *)
Fixpoint request_loop (method path : string) (kw : kwargs)
  (max_retries : Z) (attempts : list Z) : N json :=
  match attempts with
  | [] => ret null
  | attempt :: rest =>
      resp <- session_send (mkRequest method (BASE_URL ++ path) kw) ;;
      now <- time_time ;;
      set_last_call path now ;;;
      let finish := raise_for_status resp ;;; resp_json resp in
      if status_code resp =? 429 then
        let wait := match get String.eqb path RATE_LIMITS with
                    | Some w => w
                    | None => 60
                    end in
        if attempt <? max_retries - 1 then
          print (NoticeRetrying path wait (attempt + 1) max_retries) ;;;
          sleep (of_int wait) ;;;
          request_loop method path kw max_retries rest
        else finish
      else finish
  end.

Definition _request (method path : string) (kw : kwargs) : N json :=
  _wait_for_rate_limit path ;;;
  let max_retries := 3 in
  request_loop method path kw max_retries (range max_retries).

(** [d[k] = v] when [v] is truthy. *)
Definition set_if (test : bool) (k : string) (v : value)
  (d : dict string value) : dict string value :=
  if test then set String.eqb k v d else d.

Definition get_activities (start_date end_date page limit order : value)
  : N json :=
  let params := [("page", page); ("limit", limit);
                 ("order_by", VStr "sign_date"); ("order", order)] in
  let params := set_if (truthy start_date) "start_date" start_date params in
  let params := set_if (truthy end_date) "end_date" end_date params in
  _request "GET" "/activity" (Params params).

Definition get_plans (start game_id : value) : N json :=
  let params := [] in
  let params := set_if (truthy start) "start" start params in
  let params :=
    set_if (match game_id with VNone => false | _ => true end)
      "game_id" game_id params in
  _request "GET" "/plans" (Params params).

Definition get_feedback (start end_ : value) : N json :=
  _request "GET" "/feedback" (Params [("start", start); ("end", end_)]).

Definition push_plans (plans : list record) : N json :=
  if (200 <? Z.of_nat (List.length plans))
  then raise (TooManyPlans (List.length plans))
  else _request "POST" "/plans/push" (Json plans).

(** The methods of [LikesAPI] with their arguments. *)
Inductive api_call : Type :=
| GetActivities (start_date end_date page limit order : value)
| GetPlans (start game_id : value)
| GetFeedback (start end_ : value)
| PushPlans (plans : list record).

Definition invoke (c : api_call) : N json :=
  match c with
  | GetActivities start_date end_date page limit order =>
      get_activities start_date end_date page limit order
  | GetPlans start game_id => get_plans start game_id
  | GetFeedback start end_ => get_feedback start end_
  | PushPlans plans => push_plans plans
  end.

(** The path a method asks for. *)
Definition path_of (c : api_call) : string :=
  match c with
  | GetActivities _ _ _ _ _ => "/activity"
  | GetPlans _ _ => "/plans"
  | GetFeedback _ _ => "/feedback"
  | PushPlans _ => "/plans/push"
  end.

(** The wait before a retry: [RATE_LIMITS.get(path, 60)]. *)
Definition retry_wait (path : string) : Z :=
  match get String.eqb path RATE_LIMITS with
  | Some w => w
  | None => 60
  end.

(** The reply to the k-th request made from the world [w] on. *)
Definition reply_at (w : world) (k : nat) (req : request) : reply json :=
  session_request (List.length (requests w) + k) req.

(** The reply is a response with status 429. *)
Definition is_429 (r : reply json) : bool :=
  match r with
  | Response resp => status_code resp =? 429
  | NoResponse => false
  end.

(** The world once a request has been handed to the session and nothing
    came back. *)
Definition refused (req : request) (w : world) : world :=
  mkWorld (requests w ++ [req]) (time_reads w) (_last_call w) (sleeps w)
    (notices w).

(** The world once a request has been answered: the clock has been read
    and the time noted for the path. *)
Definition answered (path : string) (req : request) (w : world) : world :=
  mkWorld (requests w ++ [req]) (S (time_reads w))
    (set String.eqb path (time (time_reads w)) (_last_call w))
    (sleeps w) (notices w).

(** The world once the client has then announced a retry and slept. *)
Definition retried (path : string) (req : request) (attempt : Z)
  (w : world) : world :=
  let w1 := answered path req w in
  mkWorld (requests w1) (time_reads w1) (_last_call w1)
    (sleeps w1 ++ [of_int (retry_wait path)])
    (notices w1 ++ [NoticeRetrying path (retry_wait path) (attempt + 1) 3]).

(** What [_request] makes of the reply it does not retry, received in the
    world [w]: the exception of the session, the error status, the decoded
    body, or the exception of the decoding. *)
Definition settle (path : string) (req : request) (r : reply json)
  (w : world) : result json :=
  match r with
  | NoResponse => Err ConnectionError (refused req w)
  | Response resp =>
      if (400 <=? status_code resp) && (status_code resp <? 600)
      then Err (HTTPError (status_code resp)) (answered path req w)
      else match body resp with
           | Some j => Ok j (answered path req w)
           | None => Err JSONDecodeError (answered path req w)
           end
  end.

(** The request carries at most 200 plans. *)
Definition small_push (req : request) : Prop :=
  match payload req with
  | Json plans => (List.length plans <= 200)%nat
  | Params _ => True
  end.

End WithNetwork.

Arguments Ok {H A}.
Arguments Err {H A}.

(** A sample network: times in tenths of a second, a clock that starts
    in March 2024 and advances by a minute at each reading, and a server
    that is always busy. *)
Definition busy : Network :=
  Build_Network unit tt Z (fun n => 10 * n) 6 Z.sub Z.ltb
    (fun n => 17092944000 + 600 * Z.of_nat n)
    (fun _ _ => Response (mkResponse 429 None)).

(** A network whose documents are a number or [None], with a server that
    is busy once and then answers 200 with the body [null]. *)
Definition busy_once : Network :=
  Build_Network (option Z) None Z (fun n => 10 * n) 6 Z.sub Z.ltb
    (fun n => 17092944000 + 600 * Z.of_nat n)
    (fun n _ =>
       match n with
       | O => Response (mkResponse 429 None)
       | S _ => Response (mkResponse 200 (Some None))
       end).

Definition idle `{Network} : world := mkWorld [] 0 [] [] [].

End Client.

(* ------------------------------------------------------------------ *)
(** ** Cache statistics *)

Module Statistics.
Import Py Cache Spec.

(** One entry of the result of [stats]: the number of records, the
    document whose size [size_kb] reports ([None] where the code reports 0
    without looking at a file) and the date range. *)
Record info : Type := mkInfo {
  records_count : Z;
  sized : option file;
  date_range : option string
}.

(** [{"records": 0, "size_kb": 0, "date_range": None}] *)
Definition no_info : info := mkInfo 0 None None.

(** [a < b] on the objects a list of dates can hold: strings compare as
    strings, numbers as numbers, and anything else is a [TypeError]. *)
Definition lt_value (a b : value) : option bool :=
  match a, b with
  | VStr s, VStr t => Some (StrOrd.ltb s t)
  | _, _ =>
      match as_number a, as_number b with
      | Some m, Some n => Some (m <? n)
      | _, _ => None
      end
  end.

Section WithRuntime.
Context `{Runtime}.

Definition less_than (a b : value) : M bool :=
  match lt_value a b with
  | Some c => ret c
  | None => raise TypeError
  end.

Definition _ts_to_date (ts : value) : M string :=
  t <- int ts ;; d <- fromtimestamp t ;; ret (strftime d).

(** The body of the loop over the records: the date that the record adds
    to [dates], if it adds one. *)
Definition date_of (name : string) (rec : record) : M (option value) :=
  if String.eqb name "activities" then
    let sd := field_or "sign_date" VNone rec in
    if truthy sd then d <- _ts_to_date sd ;; ret (Some (VStr d))
    else ret None
  else if String.eqb name "plans" then
    let s := field_or "start" VNone rec in
    if truthy s then ret (Some s) else ret None
  else if String.eqb name "feedback" then
    let ct := field_or "created_time" VNone rec in
    if truthy ct then d <- _ts_to_date ct ;; ret (Some (VStr d))
    else ret None
  else ret None.

Definition collect_dates (name : string) (recs : list record)
  : M (list value) :=
  foldM (fun dates rec =>
           d <- date_of name rec ;;
           ret (match d with
                | Some v => (dates ++ [v])%list
                | None => dates
                end))
        [] recs.

(** [min] and [max] of a list with first item [first]: the best item so
    far gives way to each item that is less, or greater. *)
Definition py_min (first : value) (rest : list value) : M value :=
  foldM (fun best item =>
           c <- less_than item best ;; ret (if c then item else best))
        first rest.

Definition py_max (first : value) (rest : list value) : M value :=
  foldM (fun best item =>
           c <- less_than best item ;; ret (if c then item else best))
        first rest.

(** [f"{min(dates)} .. {max(dates)}" if dates else None] *)
Definition range_of (dates : list value) : M (option string) :=
  match dates with
  | [] => ret None
  | first :: rest =>
      lo <- py_min first rest ;;
      hi <- py_max first rest ;;
      ret (Some (str lo ++ " .. " ++ str hi))
  end.

(** One pass of the loop of [stats] over the three entities. *)
Definition stats_entry (name : string) : M info :=
  fun s =>
    match get String.eqb name (disk s) with
    | None => Ret no_info s
    | Some f =>
        (store <- _load name ;;
         let recs := records store in
         dates <- collect_dates name (values recs) ;;
         range <- range_of dates ;;
         ret (mkInfo (Z.of_nat (List.length recs)) (Some f) range)) s
    end.

Definition stats : M (dict string info) :=
  foldM (fun result name =>
           i <- stats_entry name ;;
           ret (set String.eqb name i result))
        [] store_names.

(** The day of a timestamp, where [_ts_to_date] gives one. *)
Definition day_of (ts : value) : option string :=
  match int_value ts with
  | inr t =>
      if (datetime_min <=? t) && (t <=? datetime_max)
      then Some (strftime t) else None
  | inl _ => None
  end.

(** The date under which [stats] counts a record of the entity. *)
Definition dated (name : string) (rec : record) : option value :=
  if String.eqb name "activities" then
    let sd := field_or "sign_date" VNone rec in
    if truthy sd then option_map VStr (day_of sd) else None
  else if String.eqb name "plans" then
    let s := field_or "start" VNone rec in
    if truthy s then Some s else None
  else if String.eqb name "feedback" then
    let ct := field_or "created_time" VNone rec in
    if truthy ct then option_map VStr (day_of ct) else None
  else None.

Definition dates_in (name : string) (recs : list record) : list value :=
  flat_map (fun rec => match dated name rec with
                       | Some d => [d]
                       | None => []
                       end) recs.

(** What [stats] says of an entity whose document is [f] and whose
    records are [recs]: their number, the document, and the first and the
    last of their dates. *)
Definition describes (name : string) (f : file) (recs : list record)
  (i : info) : Prop :=
  let dates := dates_in name recs in
  records_count i = Z.of_nat (List.length recs) /\
  sized i = Some f /\
  (dates = [] -> date_range i = None) /\
  (dates <> [] ->
   exists lo hi,
     In lo dates /\ In hi dates /\
     date_range i = Some (str lo ++ " .. " ++ str hi) /\
     forall d, In d dates ->
               lt_value d lo = Some false /\ lt_value hi d = Some false).

(** The state differs from the one before at most in which stores the
    object holds in memory: nothing was written, deleted, called, printed,
    and the clock was not read. *)
Definition only_loads (s s' : state) : Prop :=
  Coverage.served_from_cache s s' /\ clock_reads s' = clock_reads s.

End WithRuntime.

End Statistics.

(* ================================================================== *)
(** * Properties *)

(* ------------------------------------------------------------------ *)
(** ** The order on strings *)

Module StrOrdFacts.
Import StrOrd.

(** The order of [String_as_OT], with [lt] wrapped in an inductive so
    that the [order] tactic sees it as an atom. *)
Module OT <: UsualOrderedType.
Definition t := string.
Include HasUsualEq <+ UsualIsEq.
Definition eqb := String.eqb.
Definition eqb_eq := String.eqb_eq.
Include HasEqBool2Dec.
Definition compare := String_as_OT.compare.
Inductive lt_ (a b : string) : Prop :=
| lt_intro : compare a b = Lt -> lt_ a b.
Definition lt := lt_.
#[global] Instance lt_compat : Proper (eq ==> eq ==> iff) lt.
Proof. intros x x' Hx y y' Hy. now rewrite Hx, Hy. Qed.
Lemma compare_spec : forall x y, CompSpec eq lt x y (compare x y).
Proof.
  intros x y. unfold compare.
  destruct (String_as_OT.compare_spec x y); constructor; auto;
    constructor; assumption.
Qed.
#[global] Instance lt_strorder : StrictOrder lt.
Proof.
  split.
  - intros x [H].
    exact (StrictOrder_Irreflexive (R:=String_as_OT.lt) x H).
  - intros x y z [H1] [H2]. constructor.
    exact (StrictOrder_Transitive (R:=String_as_OT.lt) x y z H1 H2).
Qed.
End OT.

Module Facts := OrderedTypeFacts OT.

Lemma ltb_true a b : ltb a b = true <-> OT.lt a b.
Proof.
  unfold ltb. split.
  - destruct (String_as_OT.compare a b) eqn:E; try discriminate.
    intros _. now constructor.
  - intros [E]. unfold OT.compare in E. now rewrite E.
Qed.

Lemma ltb_false a b : ltb a b = false <-> ~ OT.lt a b.
Proof.
  rewrite <- ltb_true. destruct (ltb a b); intuition congruence.
Qed.

(** Decide goals of the order on strings: every test is split into its two
    outcomes, the outcomes become facts of the order, and [order]
    finishes. *)
Ltac tests :=
  unfold max, min, le, lt, leb in *;
  repeat match goal with
  | H : ltb _ _ = true |- _ => apply ltb_true in H
  | H : ltb _ _ = false |- _ => apply ltb_false in H
  | H : context [ltb ?a ?b] |- _ => destruct (ltb a b) eqn:?
  | |- context [ltb ?a ?b] => destruct (ltb a b) eqn:?
  end;
  cbn [negb fst snd] in *.

Ltac solve_order :=
  intros; tests;
  solve [ reflexivity | discriminate | assumption
        | exfalso; Facts.order | Facts.order | intuition Facts.order ].

Lemma le_refl a : le a a.
Proof. solve_order. Qed.

Lemma le_trans a b c : le a b -> le b c -> le a c.
Proof. solve_order. Qed.

Lemma lt_le_trans a b c : lt a b -> le b c -> lt a c.
Proof. solve_order. Qed.

Lemma le_lt_trans a b c : le a b -> lt b c -> lt a c.
Proof. solve_order. Qed.

Lemma lt_irrefl a : ~ lt a a.
Proof. intros H. solve_order. Qed.

Lemma leb_total a b : leb a b = true \/ leb b a = true.
Proof.
  destruct (ltb a b) eqn:E; [left | right]; solve_order.
Qed.

Lemma leb_trans a b c : leb a b = true -> leb b c = true -> leb a c = true.
Proof. solve_order. Qed.

End StrOrdFacts.

(* ------------------------------------------------------------------ *)
(** ** The stable sort *)

Module PySortFacts.
Import PySort.

Section Facts.
Context {A : Type} (before : A -> A -> bool).

Lemma insert_In x y l : In y (insert before x l) <-> y = x \/ In y l.
Proof.
  induction l as [|z l IH]; simpl.
  - intuition.
  - destruct (before x z); simpl; rewrite ?IH; intuition.
Qed.

Lemma sort_In y l : In y (sort before l) <-> In y l.
Proof.
  induction l as [|x l IH]; simpl; [tauto|].
  rewrite insert_In, IH. intuition.
Qed.

Lemma insert_length x l : List.length (insert before x l) = S (List.length l).
Proof.
  induction l as [|z l IH]; simpl; auto.
  destruct (before x z); simpl; auto.
Qed.

Lemma sort_length l : List.length (sort before l) = List.length l.
Proof.
  induction l as [|x l IH]; simpl; auto.
  now rewrite insert_length, IH.
Qed.

Lemma insert_id x l :
  (forall y, In y l -> before x y = true) -> insert before x l = x :: l.
Proof.
  destruct l as [|z l]; simpl; auto.
  intros Hx. now rewrite (Hx z) by auto.
Qed.

(** Sorting a list that is in order returns it. *)
Lemma sort_id l : ordered before l -> sort before l = l.
Proof.
  induction l as [|x l IH]; simpl; auto.
  intros [Hx Hl]. rewrite (IH Hl). now apply insert_id.
Qed.

Hypothesis before_total :
  forall x y, before x y = true \/ before y x = true.
Hypothesis before_trans :
  forall x y z, before x y = true -> before y z = true -> before x z = true.

Lemma insert_ordered x l :
  ordered before l -> ordered before (insert before x l).
Proof.
  induction l as [|z l IH]; simpl.
  - intuition.
  - intros [Hz Hl]. destruct (before x z) eqn:E; simpl.
    + repeat split; auto. intros y [->|Hy]; eauto.
    + split; auto. intros y Hy. apply insert_In in Hy as [->|Hy]; auto.
      destruct (before_total x z); congruence.
Qed.

Lemma sort_ordered l : ordered before (sort before l).
Proof.
  induction l as [|x l IH]; simpl; auto using insert_ordered.
Qed.
End Facts.
End PySortFacts.

(* ------------------------------------------------------------------ *)
(** ** The interval merger and the gap detector *)

Module RangesFacts.
Import StrOrd StrOrdFacts Ranges.

Lemma by_start_total r1 r2 : by_start r1 r2 = true \/ by_start r2 r1 = true.
Proof. apply leb_total. Qed.

Lemma by_start_trans r1 r2 r3 :
  by_start r1 r2 = true -> by_start r2 r3 = true -> by_start r1 r3 = true.
Proof. apply leb_trans. Qed.

Lemma sort_by_start_ordered ranges :
  PySort.ordered by_start (sort_by_start ranges).
Proof.
  unfold sort_by_start.
  apply PySortFacts.sort_ordered; [exact by_start_total|exact by_start_trans].
Qed.

Lemma sort_by_start_In r ranges : In r (sort_by_start ranges) <-> In r ranges.
Proof. apply PySortFacts.sort_In. Qed.

(** *** Merger *)

(** The walk keeps the start of [cur] in front, and its output is merged. *)
Lemma merge_walk_ok rest :
  forall cur,
    (forall r, In r rest -> le (fst cur) (fst r)) ->
    PySort.ordered by_start rest ->
    merged_ok (merge_walk cur rest) /\
    (forall r, In r (merge_walk cur rest) -> le (fst cur) (fst r)).
Proof.
  induction rest as [|[s e] rest IH]; intros cur Hcur Hord.
  - simpl. split; [split; [intros ? []|exact I]|].
    intros r [<-|[]]. apply le_refl.
  - destruct Hord as [Hse Hord]. cbn [merge_walk].
    destruct (leb s (snd cur)) eqn:E.
    + specialize (IH (fst cur, max (snd cur) e)). cbn [fst] in IH.
      apply IH; auto. intros r Hr. apply (Hcur r). now right.
    + assert (Hs : forall r, In r rest -> le s (fst r)).
      { intros r Hr. specialize (Hse r Hr). unfold by_start in Hse.
        simpl in Hse. solve_order. }
      destruct (IH (s, e) Hs Hord) as [Hok Hge].
      assert (Hcs : le (fst cur) s) by (apply (Hcur (s, e)); now left).
      split.
      * split; auto. intros r' Hr'. specialize (Hge r' Hr'). simpl in Hge.
        split; solve_order.
      * intros r [<-|Hr]; [apply le_refl|].
        specialize (Hge r Hr). simpl in Hge. solve_order.
Qed.

Lemma merge_ranges_ok ranges : merged_ok (_merge_ranges ranges).
Proof.
  unfold _merge_ranges. destruct ranges as [|r0 ranges]; [exact I|].
  pose proof (sort_by_start_ordered (r0 :: ranges)) as Hord.
  destruct (sort_by_start (r0 :: ranges)) as [|first rest]; [exact I|].
  destruct Hord as [Hfirst Hord].
  apply merge_walk_ok; auto.
  intros r Hr. specialize (Hfirst r Hr). unfold by_start in Hfirst.
  solve_order.
Qed.

Lemma merged_ok_ordered l : merged_ok l -> PySort.ordered by_start l.
Proof.
  induction l as [|r l IH]; simpl; auto.
  intros [Hr Hl]. split; auto.
  intros y Hy. destruct (Hr y Hy) as [Hle _]. unfold by_start. solve_order.
Qed.

Lemma merge_walk_merged cur rest :
  merged_ok (cur :: rest) -> merge_walk cur rest = cur :: rest.
Proof.
  revert cur. induction rest as [|[s e] rest IH]; intros cur Hok; auto.
  destruct Hok as [Hcur Hrest]. cbn [merge_walk].
  destruct (Hcur (s, e) (or_introl eq_refl)) as [_ Hlt]. simpl in Hlt.
  replace (leb s (snd cur)) with false by (symmetry; solve_order).
  f_equal. now apply IH.
Qed.

(** Merging a merged list returns it. *)
Lemma merge_ranges_merged l : merged_ok l -> _merge_ranges l = l.
Proof.
  intros Hok. unfold _merge_ranges, sort_by_start.
  rewrite (PySortFacts.sort_id by_start l (merged_ok_ordered l Hok)).
  destruct l as [|r l]; auto. now apply merge_walk_merged.
Qed.

(** *** Gap detector *)

Lemma gaps_walk_positive end_ sorted_r :
  forall cursor g, In g (gaps_walk end_ cursor sorted_r) -> lt (fst g) (snd g).
Proof.
  induction sorted_r as [|[rs re_] rest IH]; intros cursor g; cbn [gaps_walk].
  - destruct (ltb cursor end_) eqn:E; [|intros []].
    intros [<-|[]]. exact E.
  - intros Hg. apply in_app_or in Hg as [Hg|Hg]; [|eauto].
    destruct (ltb cursor rs); [|destruct Hg].
    destruct (ltb cursor (min rs end_)) eqn:E; [|destruct Hg].
    destruct Hg as [<-|[]]. exact E.
Qed.

(** Gaps start at or after the cursor. *)
Lemma gaps_walk_from end_ sorted_r :
  forall cursor g, In g (gaps_walk end_ cursor sorted_r) -> le cursor (fst g).
Proof.
  induction sorted_r as [|[rs re_] rest IH]; intros cursor g; cbn [gaps_walk].
  - destruct (ltb cursor end_); [|intros []].
    intros [<-|[]]. apply le_refl.
  - intros Hg. apply in_app_or in Hg as [Hg|Hg].
    + destruct (ltb cursor rs); [|destruct Hg].
      destruct (ltb cursor (min rs end_)); [|destruct Hg].
      destruct Hg as [<-|[]]. apply le_refl.
    + specialize (IH _ _ Hg). solve_order.
Qed.

Lemma gaps_walk_apart end_ sorted_r :
  PySort.ordered by_start sorted_r ->
  forall cursor g r,
    In g (gaps_walk end_ cursor sorted_r) -> In r sorted_r -> apart g r.
Proof.
  induction sorted_r as [|[rs re_] rest IH]; intros Hord cursor g r;
    cbn [gaps_walk]; [intros _ []|].
  destruct Hord as [Hrs Hord]. intros Hg Hr.
  assert (Hlater : forall r', In r' rest -> le rs (fst r')).
  { intros r' Hr'. specialize (Hrs r' Hr'). unfold by_start in Hrs.
    simpl in Hrs. solve_order. }
  apply in_app_or in Hg as [Hg|Hg].
  - destruct (ltb cursor rs) eqn:E1; [|destruct Hg].
    destruct (ltb cursor (min rs end_)) eqn:E2; [|destruct Hg].
    destruct Hg as [<-|[]]. right. simpl.
    destruct Hr as [<-|Hr]; [simpl|specialize (Hlater r Hr)]; solve_order.
  - destruct Hr as [<-|Hr]; [|eauto].
    left. simpl. apply gaps_walk_from in Hg. solve_order.
Qed.

Lemma covered_later g gaps r fetched x :
  covered gaps fetched x -> covered (g ++ gaps) (r :: fetched) x.
Proof.
  intros [[g' [Hg Hc]]|[r' [Hr Hc]]]; [left|right]; eexists; split; eauto.
  - apply in_or_app. now right.
  - now right.
Qed.

(** Every point after the cursor, up to the end of the request, is in a
    gap or in a fetched range. *)
Lemma gaps_walk_covers_after end_ sorted_r :
  forall cursor x,
    lt cursor x -> le x end_ ->
    covered (gaps_walk end_ cursor sorted_r) sorted_r x.
Proof.
  induction sorted_r as [|[rs re_] rest IH]; intros cursor x Hcx Hxe;
    cbn [gaps_walk].
  - left. exists (cursor, end_). unfold covers. simpl.
    replace (ltb cursor end_) with true by (symmetry; solve_order).
    split; [now left|]. split; solve_order.
  - destruct (ltb (max cursor re_) x) eqn:E.
    + apply covered_later. apply IH; auto.
    + destruct (ltb x rs) eqn:Exrs.
      * left. exists (cursor, min rs end_). split.
        -- apply in_or_app. left.
           replace (ltb cursor rs) with true by (symmetry; solve_order).
           replace (ltb cursor (min rs end_)) with true
             by (symmetry; solve_order).
           now left.
        -- unfold covers. simpl. split; solve_order.
      * right. exists (rs, re_). split; [now left|].
        unfold covers. simpl. split; solve_order.
Qed.

(** So is the cursor itself, as long as it is before the end. *)
Lemma gaps_walk_covers_cursor end_ sorted_r :
  forall cursor,
    lt cursor end_ ->
    covered (gaps_walk end_ cursor sorted_r) sorted_r cursor.
Proof.
  induction sorted_r as [|[rs re_] rest IH]; intros cursor Hce;
    cbn [gaps_walk].
  - left. exists (cursor, end_). unfold covers. simpl.
    replace (ltb cursor end_) with true by (symmetry; solve_order).
    split; [now left|]. split; solve_order.
  - destruct (ltb cursor rs) eqn:E1.
    + left. exists (cursor, min rs end_). split.
      * apply in_or_app. left.
        replace (ltb cursor (min rs end_)) with true
          by (symmetry; solve_order).
        now left.
      * unfold covers. simpl. split; solve_order.
    + destruct (ltb re_ cursor) eqn:E2.
      * replace (max cursor re_) with cursor by (unfold max; solve_order).
        apply (covered_later []). now apply IH.
      * right. exists (rs, re_). split; [now left|].
        unfold covers. simpl. split; solve_order.
Qed.

(** The three properties of the gap detector on a list of fetched ranges. *)
Lemma detect_gaps_spec ranges start end_ :
  lt start end_ ->
  let gaps := detect_gaps ranges start end_ in
  (forall x, le start x -> le x end_ -> covered gaps ranges x) /\
  (forall g r, In g gaps -> In r ranges -> apart g r) /\
  (forall g, In g gaps -> lt (fst g) (snd g)).
Proof.
  intros Hse gaps. subst gaps. unfold detect_gaps.
  destruct ranges as [|r0 ranges].
  - repeat split.
    + left. exists (start, end_). split; [now left|]. split; assumption.
    + intros g r _ [].
    + intros g [<-|[]]. exact Hse.
  - set (rs := r0 :: ranges). repeat split.
    + intros x Hsx Hxe.
      assert (Hc : covered (gaps_walk end_ start (sort_by_start rs))
                     (sort_by_start rs) x).
      { destruct (ltb start x) eqn:E.
        - now apply gaps_walk_covers_after.
        - replace x with start.
          + now apply gaps_walk_covers_cursor.
          + clear Hse Hxe. solve_order. }
      destruct Hc as [Hc|[r [Hr Hc]]]; [now left|right].
      exists r. split; auto. now apply sort_by_start_In.
    + intros g r Hg Hr. eapply gaps_walk_apart; eauto.
      * apply sort_by_start_ordered.
      * now apply sort_by_start_In.
    + intros g Hg. eapply gaps_walk_positive; eauto.
Qed.

End RangesFacts.

(* ------------------------------------------------------------------ *)
(** ** The cache *)

Module CacheFacts.
Import Py Ranges Cache Spec Notions Samples.

(** *** Running monadic code *)

Lemma bind_Ret {A B} (m : M A) (k : A -> M B) s b s' :
  bind m k s = Ret b s' ->
  exists a s1, m s = Ret a s1 /\ k a s1 = Ret b s'.
Proof.
  unfold bind. destruct (m s) as [a s1|e s1]; [eauto|discriminate].
Qed.

Lemma final_bind {A B} (m : M A) (k : A -> M B) s :
  final_state (bind m k s) =
  match m s with
  | Ret a s1 => final_state (k a s1)
  | Raise _ s1 => s1
  end.
Proof. unfold bind. now destruct (m s). Qed.

Lemma mapM_length {A B} (f : A -> M B) l :
  forall s bs s', mapM f l s = Ret bs s' -> List.length bs = List.length l.
Proof.
  induction l as [|a l IH]; simpl; intros s bs s' Hm.
  - inversion Hm. reflexivity.
  - apply bind_Ret in Hm as (b & s1 & _ & Hm).
    apply bind_Ret in Hm as (bs' & s2 & Hl & Hm).
    inversion Hm. simpl. f_equal. eauto.
Qed.

(** *** Relations that every step of an execution respects

    [steps T m]: from any state, running [m] ends, by return or by
    exception, in a state related by [T]. For a reflexive and transitive
    [T] this is closed under the constructs of the monad. *)

Section Steps.
Context `{Runtime}.
Variable T : state -> state -> Prop.
Hypothesis T_refl : forall s, T s s.
Hypothesis T_trans : forall a b c, T a b -> T b c -> T a c.

Lemma steps_ret {A} (a : A) : steps T (ret a).
Proof. intros s. apply T_refl. Qed.

Lemma steps_raise {A} e : steps T (@raise A e).
Proof. intros s. apply T_refl. Qed.

Lemma steps_bind {A B} (m : M A) (k : A -> M B) :
  steps T m -> (forall a, steps T (k a)) -> steps T (bind m k).
Proof.
  intros Hm Hk s. rewrite final_bind. specialize (Hm s).
  destruct (m s) as [a s1|e s1]; simpl in Hm; auto.
  eapply T_trans; [exact Hm|apply Hk].
Qed.

Lemma steps_try {A} (body handler : M A) :
  steps T body -> steps T handler -> steps T (try_request body handler).
Proof.
  intros Hb Hh s. unfold try_request. specialize (Hb s).
  destruct (body s) as [a s1|[] s1]; simpl in Hb; auto.
  eapply T_trans; [exact Hb|apply Hh].
Qed.

Lemma steps_foldM {A B} (f : B -> A -> M B) l :
  (forall b a, steps T (f b a)) -> forall b, steps T (foldM f b l).
Proof.
  intros Hf. induction l as [|a l IH]; intros b; simpl.
  - apply steps_ret.
  - apply steps_bind; auto.
Qed.

Lemma steps_mapM {A B} (f : A -> M B) l :
  (forall a, steps T (f a)) -> steps T (mapM f l).
Proof.
  intros Hf. induction l as [|a l IH]; simpl.
  - apply steps_ret.
  - repeat (apply steps_bind; auto; intros).
Qed.

Lemma steps_filterM {A} (f : A -> M bool) l :
  (forall a, steps T (f a)) -> steps T (filterM f l).
Proof.
  intros Hf. induction l as [|a l IH]; simpl.
  - apply steps_ret.
  - repeat (apply steps_bind; auto; intros).
Qed.

(** One step of a proof that a composite operation respects [T]. *)
Ltac step :=
  first
    [ apply steps_ret
    | apply steps_raise
    | assumption
    | apply steps_bind; [|intros]
    | apply steps_try
    | apply steps_foldM; intros
    | apply steps_mapM; intros
    | apply steps_filterM; intros
    | match goal with
      | |- steps T (match ?x with _ => _ end) => destruct x
      | |- steps T (let (_, _) := ?x in _) => destruct x
      end ].

(** Conversions and date arithmetic do not touch the state. *)
Lemma steps_parse_date d : steps T (_parse_date d).
Proof. unfold _parse_date. repeat step. Qed.

Lemma steps_add_days dt n : steps T (add_days dt n).
Proof. unfold add_days. repeat step. Qed.

Lemma steps_fromtimestamp t : steps T (fromtimestamp t).
Proof. unfold fromtimestamp. repeat step. Qed.

Lemma steps_int v : steps T (int v).
Proof. unfold int. repeat step. Qed.

Hint Resolve steps_parse_date steps_add_days steps_fromtimestamp steps_int
  : core.

Lemma steps_in_window f a b r : steps T (in_window f a b r).
Proof. unfold in_window. repeat (step; auto). Qed.

Lemma steps_plan_in_window a b r : steps T (plan_in_window a b r).
Proof. unfold plan_in_window. repeat (step; auto). Qed.

Lemma steps_sort_desc f l : steps T (sort_desc f l).
Proof. unfold sort_desc. repeat (step; auto). Qed.

Lemma steps_sort_plans l : steps T (sort_plans l).
Proof. unfold sort_plans, plan_start_key. repeat (step; auto). Qed.

Lemma steps_stale name before dt r : steps T (stale name before dt r).
Proof. unfold stale. repeat (step; auto). Qed.

Hint Resolve steps_in_window steps_plan_in_window steps_sort_desc
  steps_sort_plans steps_stale : core.

(** The primitives that read the state or the clock. *)
Hypothesis T_load : forall name, steps T (_load name).
Hypothesis T_save : forall name, steps T (_save name).
Hypothesis T_clock : steps T read_clock.
Hint Resolve T_load T_save T_clock : core.

Lemma steps_today : steps T _today.
Proof. unfold _today. repeat (step; auto). Qed.

Lemma steps_now : steps T now_isoformat.
Proof. unfold now_isoformat. repeat (step; auto). Qed.

Lemma steps_detect_gaps name a b : steps T (_detect_gaps name a b).
Proof. unfold _detect_gaps. repeat (step; auto). Qed.

Lemma steps_get_cached_activities a b : steps T (_get_cached_activities a b).
Proof. unfold _get_cached_activities. repeat (step; auto). Qed.

Lemma steps_get_cached_plans a b : steps T (_get_cached_plans a b).
Proof. unfold _get_cached_plans. repeat (step; auto). Qed.

Lemma steps_get_cached_feedback a b : steps T (_get_cached_feedback a b).
Proof. unfold _get_cached_feedback. repeat (step; auto). Qed.

Hint Resolve steps_today steps_now steps_detect_gaps
  steps_get_cached_activities steps_get_cached_plans
  steps_get_cached_feedback : core.

(** Updates of a store that leave its [_fetched_ranges] alone. *)
Hypothesis T_update_records :
  forall name f,
    (forall st, _fetched_ranges (f st) = _fetched_ranges st) ->
    steps T (update_store name f).

Lemma steps_merge_into name key_of items :
  steps T (merge_into name key_of items).
Proof.
  unfold merge_into, merge_item.
  repeat (step; auto).
Qed.

Lemma steps_clear_store before dt name : steps T (clear_store before dt name).
Proof.
  unfold clear_store.
  repeat (step; auto).
Qed.

Hint Resolve steps_merge_into steps_clear_store : core.

(** The update that records a fetched range. *)
Hypothesis T_update_ranges :
  forall name start end_,
    steps T (update_store name
             (fun st => mkStore (records st)
                (_merge_ranges (_fetched_ranges st ++ [(start, end_)])))).

Lemma steps_record_fetched_range name a b :
  steps T (_record_fetched_range name a b).
Proof. unfold _record_fetched_range. repeat (step; auto). Qed.

Hint Resolve steps_record_fetched_range : core.

(** Printing, calling the collaborator, and wiping the cache. *)
Hypothesis T_print : forall l, is_chunk l = false -> steps T (print l).
Hypothesis T_call : forall answer, steps T (call answer).
Hypothesis T_wipe : steps T (clear None).
Hint Resolve T_print T_call : core.

Lemma steps_clear before : steps T (clear before).
Proof.
  destruct before as [before|]; [|exact T_wipe].
  unfold clear. repeat (step; auto).
Qed.

Lemma steps_fetch_activities api a b limit no_cache :
  steps T (fetch_activities api a b limit no_cache).
Proof.
  unfold fetch_activities, gather_activities, fill_gap_activities,
    _merge_activities.
  repeat (step; auto).
Qed.

Lemma steps_fetch_plans api a g no_cache :
  steps T (fetch_plans api a g no_cache).
Proof.
  unfold fetch_plans, or_today, _merge_plans.
  repeat (step; auto).
Qed.

Lemma steps_fetch_feedback api a b no_cache :
  steps T (fetch_feedback api a b no_cache).
Proof.
  unfold fetch_feedback, gather_feedback, fill_gap_feedback,
    _merge_feedback.
  repeat (step; auto).
Qed.

Lemma steps_after_fetch months streak items :
  steps T (after_fetch months streak items).
Proof. unfold after_fetch. repeat (step; auto). Qed.

Hint Resolve steps_after_fetch : core.

Lemma steps_fetch_chunk api endpoint months a b k :
  steps T (fetch_chunk api endpoint months a b k).
Proof.
  unfold fetch_chunk, _merge_activities, _merge_feedback, _merge_plans.
  repeat (step; auto).
Qed.

(** Printing the line that announces a chunk. *)
Hypothesis T_print_chunk :
  forall endpoint i a b, steps T (print (LogChunk endpoint i a b)).

Lemma steps_backfill_chunk api endpoint months today_dt chunk_days i k :
  steps T (backfill_chunk api endpoint months today_dt chunk_days i k).
Proof.
  unfold backfill_chunk.
  repeat (step; auto using steps_fetch_chunk).
Qed.

Lemma steps_backfill_loop api endpoint months today_dt chunk_days n :
  forall i k,
    steps T (backfill_loop api endpoint months today_dt chunk_days n i k).
Proof.
  induction n as [|n IH]; intros i k; simpl.
  - apply steps_ret.
  - apply steps_bind; [apply steps_backfill_chunk|].
    intros [k'| |]; auto using steps_ret.
Qed.

Lemma steps_backfill api endpoint months :
  steps T (backfill api endpoint months).
Proof.
  unfold backfill.
  repeat (step; auto using steps_backfill_loop).
Qed.

(** Every operation of the cache respects [T]. *)
Lemma steps_run ops : forall s, T s (run ops s).
Proof.
  induction ops as [|op ops IH]; intros s; simpl; [apply T_refl|].
  eapply T_trans; [|apply IH].
  destruct op; simpl.
  - apply steps_merge_into.
  - apply steps_merge_into.
  - apply steps_merge_into.
  - apply steps_record_fetched_range.
  - apply steps_fetch_activities.
  - apply steps_fetch_plans.
  - apply steps_fetch_feedback.
  - apply steps_backfill.
  - apply steps_clear.
Qed.
End Steps.

(** *** Dictionaries keyed by strings *)

Lemma get_set_same {V} k (v : V) d :
  get String.eqb k (set String.eqb k v d) = Some v.
Proof.
  induction d as [|[k' v'] d IH]; simpl.
  - now rewrite String.eqb_refl.
  - destruct (String.eqb k k') eqn:E; simpl; now rewrite E.
Qed.

Lemma get_set_other {V} k k' (v : V) d :
  String.eqb k k' = false ->
  get String.eqb k (set String.eqb k' v d) = get String.eqb k d.
Proof.
  intros Hk. induction d as [|[k0 v0] d IH]; simpl.
  - now rewrite Hk.
  - destruct (String.eqb k' k0) eqn:E; simpl.
    + apply String.eqb_eq in E. subst k0. now rewrite Hk.
    + now rewrite IH.
Qed.

Lemma get_set {V} k k' (v : V) d :
  get String.eqb k (set String.eqb k' v d) =
  if String.eqb k k' then Some v else get String.eqb k d.
Proof.
  destruct (String.eqb k k') eqn:E.
  - apply String.eqb_eq in E. subst. apply get_set_same.
  - now apply get_set_other.
Qed.

Lemma get_del {V} k k' (d : dict string V) :
  get String.eqb k (del String.eqb k' d) =
  if String.eqb k k' then None else get String.eqb k d.
Proof.
  unfold del. induction d as [|[k0 v0] d IH]; simpl.
  - now destruct (String.eqb k k').
  - destruct (String.eqb k' k0) eqn:E; simpl.
    + apply String.eqb_eq in E. subst k0. rewrite IH.
      now destruct (String.eqb k k').
    + rewrite IH. destruct (String.eqb k k0) eqn:E0; [|reflexivity].
      apply String.eqb_eq in E0. subst k0.
      now rewrite String.eqb_sym, E.
Qed.

(** *** What the primitives do to a store *)

Lemma loaded_eq name s :
  loaded name s =
  match get String.eqb name (_stores s) with
  | Some d => d
  | None => from_disk (get String.eqb name (disk s))
  end.
Proof.
  unfold loaded, _load. now destruct (get String.eqb name (_stores s)).
Qed.

Lemma load_Ret name s :
  _load name s = Ret (loaded name s) (final_state (_load name s)).
Proof.
  unfold loaded, _load. now destruct (get String.eqb name (_stores s)).
Qed.

Lemma loaded_load name n s :
  loaded n (final_state (_load name s)) = loaded n s.
Proof.
  unfold _load. destruct (get String.eqb name (_stores s)) eqn:E;
    [reflexivity|].
  rewrite !loaded_eq. simpl. rewrite get_set.
  destruct (String.eqb n name) eqn:En; [|reflexivity].
  apply String.eqb_eq in En. subst n. now rewrite E.
Qed.

Lemma stores_load name s :
  get String.eqb name (_stores (final_state (_load name s)))
  = Some (loaded name s).
Proof.
  rewrite loaded_eq. unfold _load.
  destruct (get String.eqb name (_stores s)) eqn:E; simpl; [exact E|].
  apply get_set_same.
Qed.

Lemma loaded_save name n s :
  loaded n (final_state (_save name s)) = loaded n s \/
  loaded n (final_state (_save name s)) = empty_store.
Proof.
  rewrite !loaded_eq. unfold _save. simpl.
  destruct (get String.eqb n (_stores s)) eqn:En; [now left|].
  rewrite get_set. destruct (String.eqb n name) eqn:E; [|now left].
  apply String.eqb_eq in E. subst n. rewrite En. now right.
Qed.

Lemma loaded_save_loaded name n s :
  get String.eqb name (_stores s) <> None ->
  loaded n (final_state (_save name s)) = loaded n s.
Proof.
  intros Hl. rewrite !loaded_eq. unfold _save. simpl.
  destruct (get String.eqb n (_stores s)) eqn:En; [reflexivity|].
  rewrite get_set. destruct (String.eqb n name) eqn:E; [|reflexivity].
  apply String.eqb_eq in E. subst n. contradiction.
Qed.

Lemma loaded_update name f n s :
  loaded n (final_state (update_store name f s)) =
  if String.eqb n name then
    match get String.eqb name (_stores s) with
    | Some d => f d
    | None => loaded n s
    end
  else loaded n s.
Proof.
  rewrite !loaded_eq. unfold update_store.
  destruct (get String.eqb name (_stores s)) eqn:E; simpl.
  - rewrite get_set. now destruct (String.eqb n name).
  - now destruct (String.eqb n name).
Qed.

(** *** The merged-ranges invariant *)

Lemma keeps_merged_refl s : keeps_merged s s.
Proof. intros Hs. exact Hs. Qed.

Lemma keeps_merged_trans a b c :
  keeps_merged a b -> keeps_merged b c -> keeps_merged a c.
Proof. unfold keeps_merged. auto. Qed.

Lemma keeps_merged_load name : steps keeps_merged (_load name).
Proof. intros s Hs n Hn. rewrite loaded_load. now apply Hs. Qed.

Lemma keeps_merged_save name : steps keeps_merged (_save name).
Proof.
  intros s Hs n Hn.
  destruct (loaded_save name n s) as [-> | ->]; [now apply Hs|exact I].
Qed.

Lemma keeps_merged_same {A} (m : M A) :
  (forall s, _stores (final_state (m s)) = _stores s /\
             disk (final_state (m s)) = disk s) ->
  steps keeps_merged m.
Proof.
  intros Hm s Hs n Hn. destruct (Hm s) as [Hst Hd].
  rewrite loaded_eq, Hst, Hd, <- loaded_eq. now apply Hs.
Qed.

Lemma keeps_merged_update_records name f :
  (forall st, _fetched_ranges (f st) = _fetched_ranges st) ->
  steps keeps_merged (update_store name f).
Proof.
  intros Hf s Hs n Hn. rewrite loaded_update.
  destruct (String.eqb n name) eqn:E; [|now apply Hs].
  apply String.eqb_eq in E. subst n.
  specialize (Hs name Hn). rewrite loaded_eq in Hs.
  destruct (get String.eqb name (_stores s)) eqn:E; [now rewrite Hf|].
  now rewrite loaded_eq, E.
Qed.

Lemma keeps_merged_update_ranges name start end_ :
  steps keeps_merged
    (update_store name
       (fun st => mkStore (records st)
                    (_merge_ranges (_fetched_ranges st ++ [(start, end_)])))).
Proof.
  intros s Hs n Hn. rewrite loaded_update.
  destruct (String.eqb n name) eqn:E; [|now apply Hs].
  destruct (get String.eqb name (_stores s)); [|now apply Hs].
  simpl. apply RangesFacts.merge_ranges_ok.
Qed.

Lemma keeps_merged_wipe `{Runtime} : steps keeps_merged (clear None).
Proof.
  intros s _ n Hn. rewrite loaded_eq. simpl. rewrite !get_del.
  destruct Hn as [<-|[<-|[<-|[]]]]; exact I.
Qed.

(** Every operation keeps the fetched ranges merged. *)
Lemma run_keeps_merged `{Runtime} ops s :
  ranges_merged s -> ranges_merged (run ops s).
Proof.
  apply (steps_run keeps_merged keeps_merged_refl keeps_merged_trans
           keeps_merged_load keeps_merged_save).
  - apply keeps_merged_same. intros s0. now split.
  - apply keeps_merged_update_records.
  - apply keeps_merged_update_ranges.
  - intros l _. apply keeps_merged_same. intros s0. now split.
  - intros answer. apply keeps_merged_same. intros s0. unfold call.
    destruct (answer (api_calls s0)); now split.
  - apply keeps_merged_wipe.
  - intros e i a b. apply keeps_merged_same. intros s0. now split.
Qed.

Lemma record_fetched_range_Ret name start end_ s :
  exists s', _record_fetched_range name start end_ s = Ret tt s' /\
    _fetched_ranges (loaded name s') =
    _merge_ranges (_fetched_ranges (loaded name s) ++ [(start, end_)]) /\
    records (loaded name s') = records (loaded name s).
Proof.
  unfold _record_fetched_range, bind. rewrite load_Ret.
  set (s1 := final_state (_load name s)).
  assert (Hst : get String.eqb name (_stores s1) = Some (loaded name s))
    by apply stores_load.
  unfold update_store at 1. rewrite Hst.
  eexists. split; [reflexivity|].
  rewrite loaded_eq. simpl. rewrite get_set_same.
  simpl. now split.
Qed.

(** *** The gap detector and the interval merger on a store *)

(** C1. For a request [start < end_] and any fetched ranges of the store,
    [_detect_gaps] returns gaps such that every point of [[start, end_]]
    lies in a gap or in a fetched range, every gap and every fetched range
    share at most an end point, and every gap has [gap_start < gap_end]. *)
Theorem detect_gaps_complete (name start end_ : string) (s : state) :
  StrOrd.lt start end_ ->
  exists gaps s',
    _detect_gaps name start end_ s = Ret gaps s' /\
    let fetched := _fetched_ranges (loaded name s) in
    (forall x, StrOrd.le start x -> StrOrd.le x end_ ->
               covered gaps fetched x) /\
    (forall g r, In g gaps -> In r fetched -> apart g r) /\
    (forall g, In g gaps -> StrOrd.lt (fst g) (snd g)).
Proof.
  intros Hlt. unfold _detect_gaps, bind. rewrite load_Ret.
  eexists. eexists. split; [reflexivity|].
  now apply RangesFacts.detect_gaps_spec.
Qed.

Lemma detect_gaps_complete_witness :
  StrOrd.lt "2024-01-01" "2024-01-20" /\
  exists gaps s',
    _detect_gaps "activities" "2024-01-01" "2024-01-20" one_range_fetched
    = Ret gaps s' /\
    let fetched := _fetched_ranges (loaded "activities" one_range_fetched) in
    (forall x, StrOrd.le "2024-01-01" x -> StrOrd.le x "2024-01-20" ->
               covered gaps fetched x) /\
    (forall g r, In g gaps -> In r fetched -> apart g r) /\
    (forall g, In g gaps -> StrOrd.lt (fst g) (snd g)).
Proof.
  split; [reflexivity|].
  apply (detect_gaps_complete "activities" "2024-01-01" "2024-01-20"
           one_range_fetched).
  reflexivity.
Defined.

(** C2. The interval merger's output is sorted by start with every
    interval ending strictly before each later one starts; recording a
    fetched range leaves the store's [_fetched_ranges] in that form; and
    from a state whose entity stores have merged ranges, every sequence of
    operations (merge-insert, recording a range, fetches, backfill, clear)
    ends in such a state. *)
Theorem fetched_ranges_stay_merged `{Runtime}
  (ranges : list range) (name start end_ : string) (s0 : state)
  (ops : list operation) (s : state) :
  ranges_merged s ->
  merged_ok (_merge_ranges ranges) /\
  merged_ok (_fetched_ranges
               (loaded name
                  (final_state (_record_fetched_range name start end_ s0)))) /\
  ranges_merged (run ops s).
Proof.
  intros Hs. split; [apply RangesFacts.merge_ranges_ok|]. split.
  - destruct (record_fetched_range_Ret name start end_ s0)
      as (s' & E & Hr & _).
    rewrite E. simpl. rewrite Hr. apply RangesFacts.merge_ranges_ok.
  - now apply run_keeps_merged.
Qed.

Lemma fresh_ranges_merged : ranges_merged fresh.
Proof. intros name _. exact I. Qed.

Lemma fetched_ranges_stay_merged_witness :
  ranges_merged fresh /\
  merged_ok (_merge_ranges [("2024-01-05", "2024-01-10");
                            ("2024-01-01", "2024-01-05")]) /\
  merged_ok (_fetched_ranges
               (loaded "activities"
                  (final_state
                     (_record_fetched_range "activities" "2024-01-10"
                        "2024-01-20" one_range_fetched)))) /\
  ranges_merged (run (H := SampleRuntime.march_2024) sample_ops fresh).
Proof.
  split; [exact fresh_ranges_merged|].
  apply (fetched_ranges_stay_merged (H := SampleRuntime.march_2024)).
  exact fresh_ranges_merged.
Defined.

(** C3. The interval merger is idempotent. *)
Theorem merge_ranges_idempotent (ranges : list range) :
  _merge_ranges (_merge_ranges ranges) = _merge_ranges ranges.
Proof.
  apply RangesFacts.merge_ranges_merged, RangesFacts.merge_ranges_ok.
Qed.

(** *** Network errors do not escape *)

Lemma calm_ret {A} (a : A) : calm (ret a).
Proof. intros s s'. discriminate. Qed.

Lemma calm_raise {A} e : e <> RequestException -> calm (@raise A e).
Proof. intros He s s' E. inversion E. contradiction. Qed.

Lemma calm_bind {A B} (m : M A) (k : A -> M B) :
  calm m -> (forall a, calm (k a)) -> calm (bind m k).
Proof.
  intros Hm Hk s s'. unfold bind.
  destruct (m s) as [a s1|e s1] eqn:E; [apply Hk|].
  intros E'. inversion E'. subst. now apply (Hm s s').
Qed.

(** Whatever the body does, a handler from which no network error escapes
    makes the whole [try] statement so. *)
Lemma calm_try {A} (body handler : M A) :
  calm handler -> calm (try_request body handler).
Proof.
  intros Hh s s'. unfold try_request.
  destruct (body s) as [a s1|[] s1]; try discriminate. apply Hh.
Qed.

Lemma calm_foldM {A B} (f : B -> A -> M B) l :
  (forall b a, calm (f b a)) -> forall b, calm (foldM f b l).
Proof.
  intros Hf. induction l as [|a l IH]; intros b; simpl.
  - apply calm_ret.
  - apply calm_bind; auto.
Qed.

Lemma calm_mapM {A B} (f : A -> M B) l :
  (forall a, calm (f a)) -> calm (mapM f l).
Proof.
  intros Hf. induction l as [|a l IH]; simpl.
  - apply calm_ret.
  - apply calm_bind; auto. intros b. apply calm_bind; auto.
    intros bs. apply calm_ret.
Qed.

Lemma calm_filterM {A} (f : A -> M bool) l :
  (forall a, calm (f a)) -> calm (filterM f l).
Proof.
  intros Hf. induction l as [|a l IH]; simpl.
  - apply calm_ret.
  - apply calm_bind; auto. intros b. apply calm_bind; auto.
    intros bs. apply calm_ret.
Qed.

Lemma calm_load name : calm (_load name).
Proof.
  intros s s'. unfold _load.
  destruct (get String.eqb name (_stores s)); discriminate.
Qed.

Lemma calm_save name : calm (_save name).
Proof. intros s s'. discriminate. Qed.

Lemma calm_clock `{Runtime} : calm read_clock.
Proof. intros s s'. discriminate. Qed.

Lemma calm_update name f : calm (update_store name f).
Proof.
  intros s s'. unfold update_store.
  destruct (get String.eqb name (_stores s)); discriminate.
Qed.

Lemma calm_print l : calm (print l).
Proof. intros s s'. discriminate. Qed.

Lemma calm_int `{Runtime} v : calm (int v).
Proof.
  intros s s'. unfold int, int_value.
  destruct v as [|b|n|str]; try discriminate.
  destruct (int_of_str str); discriminate.
Qed.

(** One step of a proof that no network error escapes a composite
    operation: a [try] statement is settled by its handler. *)
Ltac calm_step :=
  first
    [ apply calm_ret
    | apply calm_raise; discriminate
    | apply calm_load | apply calm_save | apply calm_clock
    | apply calm_update | apply calm_print | apply calm_int
    | apply calm_try
    | apply calm_bind; [|intros]
    | apply calm_foldM; intros
    | apply calm_mapM; intros
    | apply calm_filterM; intros
    | match goal with
      | |- calm (match ?x with _ => _ end) => destruct x
      | |- calm (let (_, _) := ?x in _) => destruct x
      end ].

Ltac calm_unfold :=
  unfold gather_activities, gather_feedback, fill_gap_activities,
    fill_gap_feedback, _merge_activities, _merge_plans, _merge_feedback,
    merge_into, merge_item, _get_cached_activities, _get_cached_feedback,
    _get_cached_plans, in_window, plan_in_window, _detect_gaps,
    _record_fetched_range, sort_desc, sort_plans, plan_start_key, or_today,
    _today, now_isoformat, _parse_date, add_days, fromtimestamp.



Lemma calm_fetch_plans `{Runtime} api a g no_cache :
  calm (fetch_plans api a g no_cache).
Proof. unfold fetch_plans. calm_unfold. repeat calm_step. Qed.

(** *** A gap whose call fails *)




(** *** Merge-insert *)

Lemma merge_item_Ret `{Runtime} name key_of now item s :
  exists item' s', merge_item name key_of now item s = Ret item' s'.
Proof.
  unfold merge_item. destruct (truthy (key_of item)); simpl.
  - unfold bind, update_store.
    destruct (get String.eqb name (_stores s)); eauto.
  - eauto.
Qed.

Lemma merge_item_skip `{Runtime} name key_of now item s :
  truthy (key_of item) = false ->
  merge_item name key_of now item s = Ret item s.
Proof. intros Hk. unfold merge_item. now rewrite Hk. Qed.

Lemma mapM_merge_item_Ret `{Runtime} name key_of now items :
  forall s, exists out s',
    mapM (merge_item name key_of now) items s = Ret out s' /\
    List.length out = List.length items.
Proof.
  induction items as [|item items IH]; intros s; simpl.
  - now exists [], s.
  - destruct (merge_item_Ret name key_of now item s) as (item' & s1 & E1).
    destruct (IH s1) as (out & s2 & E2 & Hlen).
    exists (item' :: out), s2. unfold bind. rewrite E1, E2.
    simpl. now rewrite Hlen.
Qed.

Lemma mapM_app {A B} (f : A -> M B) l1 l2 :
  forall s,
    mapM f (l1 ++ l2) s =
    (bs1 <- mapM f l1 ;; bs2 <- mapM f l2 ;; ret (bs1 ++ bs2)%list) s.
Proof.
  induction l1 as [|a l1 IH]; intros s; simpl.
  - unfold bind, ret. now destruct (mapM f l2 s).
  - unfold bind, ret. destruct (f a s) as [b s1|e s1]; [|reflexivity].
    rewrite IH. unfold bind, ret.
    destruct (mapM f l1 s1) as [bs1 s2|e s2]; [|reflexivity].
    now destruct (mapM f l2 s2).
Qed.

(** An item without a key passes through a merge untouched, and the merge
    ends in the state it would have reached without that item. *)
Lemma merge_into_skip `{Runtime} name key_of before item after s :
  truthy (key_of item) = false ->
  exists out1 out2 s',
    merge_into name key_of (before ++ item :: after) s
    = Ret (out1 ++ item :: out2)%list s' /\
    merge_into name key_of (before ++ after) s = Ret (out1 ++ out2)%list s' /\
    List.length out1 = List.length before.
Proof.
  intros Hk. unfold merge_into, bind. rewrite load_Ret.
  set (s1 := final_state (_load name s)).
  unfold now_isoformat, bind, read_clock, ret.
  set (now := isoformat (clock (clock_reads s1))).
  set (s2 := mkState _ _ _ _ _).
  destruct (mapM_merge_item_Ret name key_of now before s2)
    as (out1 & s3 & E1 & Hlen).
  destruct (mapM_merge_item_Ret name key_of now after s3)
    as (out2 & s4 & E2 & _).
  exists out1, out2. eexists.
  rewrite !mapM_app. unfold bind. rewrite E1. cbn [mapM]. unfold bind.
  rewrite (merge_item_skip name key_of now item s3 Hk), E2.
  unfold ret, _save. repeat split; auto.
Qed.

Lemma keyless_str key_field item :
  keyless key_field item ->
  truthy (VStr (str (field_or key_field (VStr "") item))) = false.
Proof. unfold field_or. now intros [-> | ->]. Qed.

Lemma keyless_raw key_field item :
  keyless key_field item ->
  truthy (field_or key_field (VStr "") item) = false.
Proof. unfold field_or. now intros [-> | ->]. Qed.

(** C10. Merge-insert skips an item whose identity key is missing or empty
    (an activity without [id], a plan without [start], a feedback entry
    without [created_time]): the merge returns without raising, the item
    comes back untouched, and the final state, stores included, is the one
    the merge reaches without that item. *)
Theorem merge_skips_keyless `{Runtime} (before : list record) (item : record)
  (after : list record) (s : state) :
  (keyless "id" item ->
   exists out1 out2 s',
     _merge_activities (before ++ item :: after) s
     = Ret (out1 ++ item :: out2)%list s' /\
     _merge_activities (before ++ after) s = Ret (out1 ++ out2)%list s' /\
     List.length out1 = List.length before) /\
  (keyless "start" item ->
   exists out1 out2 s',
     _merge_plans (before ++ item :: after) s
     = Ret (out1 ++ item :: out2)%list s' /\
     _merge_plans (before ++ after) s = Ret (out1 ++ out2)%list s' /\
     List.length out1 = List.length before) /\
  (keyless "created_time" item ->
   exists out1 out2 s',
     _merge_feedback (before ++ item :: after) s
     = Ret (out1 ++ item :: out2)%list s' /\
     _merge_feedback (before ++ after) s = Ret (out1 ++ out2)%list s' /\
     List.length out1 = List.length before).
Proof.
  repeat split; intros Hk.
  - apply merge_into_skip. now apply keyless_str.
  - apply merge_into_skip. now apply keyless_raw.
  - apply merge_into_skip. now apply keyless_str.
Qed.

Lemma merge_skips_keyless_witness :
  keyless "id" no_id_item /\
  exists out1 out2 s',
    _merge_activities (H := SampleRuntime.march_2024)
      ([sample_item 1 7 1704412800] ++ no_id_item :: []) fresh
    = Ret (out1 ++ no_id_item :: out2)%list s' /\
    _merge_activities (H := SampleRuntime.march_2024)
      ([sample_item 1 7 1704412800] ++ []) fresh
    = Ret (out1 ++ out2)%list s' /\
    List.length out1 = List.length [sample_item 1 7 1704412800].
Proof.
  split; [now left|].
  apply (proj1 (merge_skips_keyless (H := SampleRuntime.march_2024)
                  [sample_item 1 7 1704412800] no_id_item [] fresh)).
  now left.
Defined.

(** *** Sorting and deduplicating results *)

Lemma insert_perm {A} (before : A -> A -> bool) x l :
  Permutation (PySort.insert before x l) (x :: l).
Proof.
  induction l as [|y l IH]; simpl; [reflexivity|].
  destruct (before x y); [reflexivity|].
  rewrite IH. apply perm_swap.
Qed.

Lemma sort_perm {A} (before : A -> A -> bool) l :
  Permutation (PySort.sort before l) l.
Proof.
  induction l as [|x l IH]; simpl; [reflexivity|].
  rewrite insert_perm. now constructor.
Qed.

Lemma ordered_map {A B} (R : A -> A -> bool) (R' : B -> B -> bool)
  (g : A -> B) l :
  (forall x y, In x l -> In y l -> R x y = true -> R' (g x) (g y) = true) ->
  PySort.ordered R l -> PySort.ordered R' (map g l).
Proof.
  induction l as [|x l IH]; simpl; auto.
  intros Hg [Hx Hl]. split.
  - intros y' Hy'. apply in_map_iff in Hy' as (y & <- & Hy). auto.
  - apply IH; auto.
Qed.

Lemma In_firstn {A} n (l : list A) x : In x (firstn n l) -> In x l.
Proof.
  revert l. induction n as [|n IH]; intros [|y l]; simpl; try tauto.
  intros [->|Hx]; auto.
Qed.

Lemma ordered_firstn {A} (R : A -> A -> bool) n l :
  PySort.ordered R l -> PySort.ordered R (firstn n l).
Proof.
  revert l. induction n as [|n IH]; intros [|y l]; simpl; auto.
  intros [Hy Hl]. split; auto.
  intros z Hz. apply Hy. eapply In_firstn; eauto.
Qed.

Lemma NoDup_firstn {A} n (l : list A) : NoDup l -> NoDup (firstn n l).
Proof.
  intros Hl. rewrite <- (firstn_skipn n l) in Hl.
  eapply NoDup_app_remove_r; eauto.
Qed.

Lemma In_slice_to {A} n (l : list A) x : In x (slice_to n l) -> In x l.
Proof. unfold slice_to. destruct (n <? 0); apply In_firstn. Qed.

Lemma ordered_slice_to {A} (R : A -> A -> bool) n l :
  PySort.ordered R l -> PySort.ordered R (slice_to n l).
Proof. unfold slice_to. destruct (n <? 0); apply ordered_firstn. Qed.

Lemma slice_to_map {A B} (g : A -> B) n l :
  map g (slice_to n l) = slice_to n (map g l).
Proof.
  unfold slice_to. rewrite length_map.
  destruct (n <? 0); symmetry; apply firstn_map.
Qed.

Lemma NoDup_slice_to {A} n (l : list A) : NoDup l -> NoDup (slice_to n l).
Proof. unfold slice_to. destruct (n <? 0); apply NoDup_firstn. Qed.

Lemma int_Ret `{Runtime} v s k s' :
  int v s = Ret k s' -> s' = s /\ int_value v = inr k.
Proof.
  unfold int. destruct (int_value v); unfold ret, raise; intros E;
    inversion E; auto.
Qed.

(** The keys that [sort_desc] computes are the records' date keys. *)
Lemma keyed_Ret `{Runtime} date_field l :
  forall s keyed s',
    mapM (fun r => k <- int (field_or date_field (VInt 0) r) ;; ret (k, r)) l s
    = Ret keyed s' ->
    s' = s /\ map snd keyed = l /\
    (forall kr, In kr keyed -> date_key date_field (snd kr) = Some (fst kr)).
Proof.
  induction l as [|r l IH]; simpl; intros s keyed s' E.
  - inversion E. subst. repeat split; auto. intros ? [].
  - apply bind_Ret in E as (kr & s1 & E1 & E).
    apply bind_Ret in E as (rest & s2 & E2 & E).
    apply bind_Ret in E1 as (k & s0 & Ek & E1).
    apply int_Ret in Ek as [-> Hk].
    inversion E1. subst kr s1. inversion E. subst keyed s'.
    destruct (IH _ _ _ E2) as (-> & Hmap & Hkeys).
    repeat split; simpl; [now f_equal|].
    intros kr [<-|Hkr]; auto.
    simpl. unfold date_key. now rewrite Hk.
Qed.

Lemma newest_first_total a b :
  newest_first a b = true \/ newest_first b a = true.
Proof. unfold newest_first. lia. Qed.

Lemma newest_first_trans a b c :
  newest_first a b = true -> newest_first b c = true ->
  newest_first a c = true.
Proof. unfold newest_first. lia. Qed.

(** [sort_desc] returns its input reordered, newest first, and leaves the
    state alone. *)
Lemma sort_desc_Ret `{Runtime} date_field l s out s' :
  sort_desc date_field l s = Ret out s' ->
  s' = s /\ Permutation out l /\ descending date_field out.
Proof.
  unfold sort_desc. intros E.
  apply bind_Ret in E as (keyed & s1 & Ek & E).
  apply keyed_Ret in Ek as (-> & Hmap & Hkeys).
  inversion E. subst out s'. split; [reflexivity|]. split.
  - rewrite <- Hmap. apply Permutation_map, sort_perm.
  - unfold descending. eapply ordered_map.
    2: { apply PySortFacts.sort_ordered;
         [exact newest_first_total|exact newest_first_trans]. }
    intros x y Hx Hy Hxy.
    apply PySortFacts.sort_In in Hx, Hy.
    unfold not_older. rewrite (Hkeys x Hx), (Hkeys y Hy). exact Hxy.
Qed.

Lemma get_None_keys {V} k (d : dict string V) :
  get String.eqb k d = None <-> ~ In k (keys d).
Proof.
  induction d as [|[k' v] d IH]; simpl; [tauto|].
  destruct (String.eqb k k') eqn:E.
  - apply String.eqb_eq in E. subst. split; [discriminate|]. tauto.
  - apply String.eqb_neq in E. rewrite IH. intuition congruence.
Qed.

Lemma set_absent {V} k (v : V) (d : dict string V) :
  get String.eqb k d = None -> set String.eqb k v d = (d ++ [(k, v)])%list.
Proof.
  induction d as [|[k' v'] d IH]; simpl; [reflexivity|].
  destruct (String.eqb k k'); [discriminate|].
  intros Hg. now rewrite IH.
Qed.

Lemma find_app {A} (p : A -> bool) l1 l2 :
  find p (l1 ++ l2) =
  match find p l1 with Some x => Some x | None => find p l2 end.
Proof.
  induction l1 as [|x l1 IH]; simpl; [reflexivity|].
  now destruct (p x).
Qed.

Lemma find_None_iff {A} (p : A -> bool) l :
  find p l = None <-> forall x, In x l -> p x = false.
Proof.
  induction l as [|y l IH]; simpl.
  - split; [intros _ ? []|reflexivity].
  - destruct (p y) eqn:E.
    + split; [discriminate|]. intros Hall.
      specialize (Hall y (or_introl eq_refl)). congruence.
    + rewrite IH. split.
      * intros Hall x [<-|Hx]; auto.
      * intros Hall x Hx. apply Hall. now right.
Qed.

Lemma seen_first_fold key l :
  forall done seen,
    seen_first key done seen ->
    seen_first key (done ++ l)
      (fold_left
         (fun seen r =>
            match get String.eqb (rid key r) seen with
            | Some _ => seen
            | None => set String.eqb (rid key r) r seen
            end) l seen).
Proof.
  induction l as [|x l IH]; intros done seen Hinv; simpl.
  - now rewrite app_nil_r.
  - replace (done ++ x :: l)%list with ((done ++ [x]) ++ l)%list
      by now rewrite <- app_assoc.
    apply IH. destruct Hinv as (Hnd & Hfirst & Hall).
    destruct (get String.eqb (rid key x) seen) as [r0|] eqn:Hg.
    + split; [exact Hnd|]. split.
      * intros k r Hkr. destruct (Hfirst k r Hkr) as [Hk Hf].
        split; [exact Hk|]. rewrite find_app. now rewrite Hf.
      * intros r Hr. apply in_app_or in Hr as [Hr|[<-|[]]]; auto.
        destruct (in_dec string_dec (rid key x) (keys seen)) as [Hin|Hout];
          auto.
        apply get_None_keys in Hout. congruence.
    + rewrite (set_absent _ _ _ Hg).
      pose proof (proj1 (get_None_keys _ _) Hg) as Hout.
      split; [|split].
      * unfold keys. rewrite map_app. simpl.
        apply NoDup_app; [exact Hnd|repeat constructor; intros []|].
        intros k Hk [<-|[]]. contradiction.
      * intros k r Hkr. rewrite find_app.
        apply in_app_or in Hkr as [Hin|[Heq|[]]].
        -- destruct (Hfirst k r Hin) as [Hk Hf]. now rewrite Hf.
        -- inversion Heq. subst k r. split; [reflexivity|].
           replace (find (fun r' => String.eqb (rid key r') (rid key x)) done)
             with (@None record).
           ++ simpl. now rewrite String.eqb_refl.
           ++ symmetry. apply find_None_iff. intros r' Hr'.
              apply String.eqb_neq. intros Heq'.
              apply Hout. rewrite <- Heq'. now apply Hall.
      * intros r Hr. unfold keys. rewrite map_app. apply in_or_app.
        apply in_app_or in Hr as [Hr|[<-|[]]]; [left|right].
        -- now apply Hall.
        -- now left.
Qed.

(** The deduplicated records have pairwise different keys, and each is the
    first record of [all_records] with its key. *)
Lemma dedup_seen_spec key all_records :
  let kept := values (dedup_seen key all_records) in
  NoDup (map (rid key) kept) /\
  (forall r, In r kept ->
     find (fun r' => String.eqb (rid key r') (rid key r)) all_records = Some r).
Proof.
  assert (H0 : seen_first key [] []).
  { split; [apply NoDup_nil|]. split; [intros ? ? []|intros ? []]. }
  pose proof (seen_first_fold key all_records [] [] H0) as Hinv.
  simpl in Hinv. fold (dedup_seen key all_records) in Hinv.
  destruct Hinv as (Hnd & Hfirst & _).
  simpl. split.
  - replace (map (rid key) (values (dedup_seen key all_records)))
      with (keys (dedup_seen key all_records)); [exact Hnd|].
    unfold keys, values. rewrite map_map. apply map_ext_in.
    intros [k r] Hkr. simpl. symmetry. now apply Hfirst.
  - intros r Hr. apply in_map_iff in Hr as ([k r'] & <- & Hkr).
    destruct (Hfirst k r' Hkr) as [<- Hfind]. exact Hfind.
Qed.

Lemma identity_key_rid key r k : identity_key key r = Some k -> rid key r = k.
Proof.
  unfold identity_key, rid, field_or.
  destruct (field key r); simpl; congruence.
Qed.

Lemma keys_of_In key l k :
  In k (keys_of key l) <-> exists r, In r l /\ identity_key key r = Some k.
Proof.
  unfold keys_of. rewrite in_flat_map. split.
  - intros (r & Hr & Hk). exists r. split; auto.
    destruct (identity_key key r); [|destruct Hk].
    destruct Hk as [<-|[]]. reflexivity.
  - intros (r & Hr & Hk). exists r. split; auto. rewrite Hk. now left.
Qed.

Lemma distinct_keys_of_rid key l :
  NoDup (map (rid key) l) -> distinct_keys key l.
Proof.
  unfold distinct_keys. induction l as [|r l IH]; simpl; [constructor|].
  intros Hnd. inversion Hnd as [|? ? Hout Hrest]. subst.
  destruct (identity_key key r) as [k|] eqn:Hk; simpl; auto.
  constructor; auto.
  intros Hin. apply keys_of_In in Hin as (r' & Hr' & Hk').
  apply Hout. apply in_map_iff. exists r'. split; auto.
  apply identity_key_rid in Hk, Hk'. congruence.
Qed.




Lemma plan_keyed_Ret l :
  forall s keyed s',
    mapM plan_start_key l s = Ret keyed s' ->
    s' = s /\ map snd keyed = l /\
    (forall kr, In kr keyed -> start_of (snd kr) = Some (fst kr)).
Proof.
  induction l as [|p l IH]; simpl; intros s keyed s' E.
  - inversion E. subst. repeat split; auto. intros ? [].
  - apply bind_Ret in E as (kr & s1 & E1 & E).
    apply bind_Ret in E as (rest & s2 & E2 & E).
    inversion E. subst keyed s'.
    destruct (IH _ _ _ E2) as (-> & Hmap & Hkeys).
    unfold plan_start_key in E1.
    destruct (field_or "start" (VStr "") p) as [| | |st] eqn:Hst;
      try discriminate.
    inversion E1. subst kr s1.
    repeat split; simpl; [now f_equal|].
    intros kr [<-|Hkr]; auto.
    simpl. unfold start_of. now rewrite Hst.
Qed.

Lemma earliest_first_total a b :
  earliest_first a b = true \/ earliest_first b a = true.
Proof. apply StrOrdFacts.leb_total. Qed.

Lemma earliest_first_trans a b c :
  earliest_first a b = true -> earliest_first b c = true ->
  earliest_first a c = true.
Proof. apply StrOrdFacts.leb_trans. Qed.

Lemma sort_plans_Ret l s out s' :
  sort_plans l s = Ret out s' ->
  s' = s /\ Permutation out l /\ ascending out.
Proof.
  unfold sort_plans. intros E.
  apply bind_Ret in E as (keyed & s1 & Ek & E).
  apply plan_keyed_Ret in Ek as (-> & Hmap & Hkeys).
  inversion E. subst out s'. split; [reflexivity|]. split.
  - rewrite <- Hmap. apply Permutation_map, sort_perm.
  - unfold ascending. eapply ordered_map.
    2: { apply PySortFacts.sort_ordered;
         [exact earliest_first_total|exact earliest_first_trans]. }
    intros x y Hx Hy Hxy.
    apply PySortFacts.sort_In in Hx, Hy.
    unfold not_later. rewrite (Hkeys x Hx), (Hkeys y Hy). exact Hxy.
Qed.

(** A cache-aware [fetch_activities] that returns has gathered records and
    handed them to the deduplicate-sort-limit tail. *)
Lemma fetch_activities_Ret `{Runtime} api start_date end_date limit s result
  s' :
  fetch_activities api start_date end_date limit false s = Ret result s' ->
  exists today start end_ s1 all_records s2 deduped,
    gather_activities api today start end_ s1 = Ret all_records s2 /\
    sort_desc "sign_date" (values (dedup_seen "id" all_records)) s2
    = Ret deduped s' /\
    rows result =
    match limit with
    | Some n => if n =? 0 then deduped else slice_to n deduped
    | None => deduped
    end.
Proof.
  unfold fetch_activities. intros E.
  apply bind_Ret in E as (today & s0 & _ & E).
  apply bind_Ret in E as (start & s1 & _ & E).
  apply bind_Ret in E as (all_records & s2 & Hg & E).
  apply bind_Ret in E as (deduped & s3 & Hs & E).
  inversion E. subst result s3.
  exists today, start. do 5 eexists. repeat split; eauto.
Qed.


(** *** Identity keys of the results *)










(** *** Order of the results *)





(** *** Clearing with a cutoff *)

Lemma eqb_refl v : eqb v v = true.
Proof.
  destruct v as [|b|n|str]; simpl; auto using Z.eqb_refl, String.eqb_refl.
Qed.

Lemma eqb_sym a b : eqb a b = eqb b a.
Proof.
  destruct a as [|[]|m|sa], b as [|[]|n|sb]; simpl;
    auto using Z.eqb_sym, String.eqb_sym.
Qed.

(** Two entries of a dictionary with the same key are the same entry. *)
Lemma wf_unique {V} (d : dict value V) k1 v1 k2 v2 :
  wf eqb d -> In (k1, v1) d -> In (k2, v2) d -> eqb k1 k2 = true ->
  (k1, v1) = (k2, v2).
Proof.
  induction d as [|[k v] d IH]; simpl; [tauto|].
  intros [Hk Hd] [H1|H1] [H2|H2] He.
  - congruence.
  - inversion H1. subst k v.
    assert (Hin : In k2 (keys d)) by (apply in_map_iff; now exists (k2, v2)).
    specialize (Hk k2 Hin). rewrite eqb_sym in Hk. congruence.
  - inversion H2. subst k v.
    assert (Hin : In k1 (keys d)) by (apply in_map_iff; now exists (k1, v1)).
    specialize (Hk k1 Hin). congruence.
  - now apply IH.
Qed.

Lemma filter_twice {A} (f g : A -> bool) l :
  filter g (filter f l) = filter (fun x => f x && g x) l.
Proof.
  induction l as [|a l IH]; simpl; auto.
  destruct (f a); simpl; [|exact IH].
  destruct (g a); simpl; congruence.
Qed.

Lemma fold_del {V} ks (d : dict value V) :
  fold_left (fun d k => del eqb k d) ks d =
  filter (fun kv => negb (existsb (fun k => eqb k (fst kv)) ks)) d.
Proof.
  revert d. induction ks as [|k ks IH]; intros d; simpl.
  - symmetry. apply forallb_filter_id. now apply forallb_forall.
  - rewrite IH. unfold del. rewrite filter_twice. apply filter_ext.
    intros kv. now rewrite negb_orb.
Qed.

(** Deleting the keys of the entries that satisfy [p] leaves the entries
    that do not, in their order. *)
Lemma delete_selected {V} (p : value * V -> bool) (d : dict value V) :
  wf eqb d ->
  fold_left (fun d k => del eqb k d) (keys (filter p d)) d =
  filter (fun kv => negb (p kv)) d.
Proof.
  intros Hwf. rewrite fold_del. apply filter_ext_in.
  intros [k v] Hkv. f_equal. simpl.
  destruct (p (k, v)) eqn:Hp.
  - apply existsb_exists. exists k. split; [|apply eqb_refl].
    apply in_map_iff. exists (k, v). split; auto.
    apply filter_In. now split.
  - destruct (existsb (fun k0 => eqb k0 k) (keys (filter p d))) eqn:He; auto.
    apply existsb_exists in He as (k0 & Hk0 & He).
    apply in_map_iff in Hk0 as ([k1 v1] & Hfst & Hin). simpl in Hfst. subst k1.
    apply filter_In in Hin as [Hin Hp1].
    assert (Heq : (k0, v1) = (k, v)) by (eapply wf_unique; eauto).
    congruence.
Qed.

Lemma fromtimestamp_Ret `{Runtime} t s d s' :
  fromtimestamp t s = Ret d s' -> s' = s /\ d = t.
Proof.
  unfold fromtimestamp, ret, raise.
  destruct ((t <? - 2 ^ 63) || (2 ^ 63 <=? t)); [discriminate|].
  destruct ((datetime_min <=? t) && (t <=? datetime_max)); [|discriminate].
  intros E. inversion E. auto.
Qed.

Lemma dated_Ret `{Runtime} v before_dt s b s' :
  (t <- int v ;; d <- fromtimestamp t ;; ret (d <? before_dt)) s = Ret b s' ->
  s' = s /\
  b = match int_value v with inr t => t <? before_dt | inl _ => false end.
Proof.
  intros E.
  apply bind_Ret in E as (t & s1 & Ht & E).
  apply bind_Ret in E as (d & s2 & Hd & E).
  apply int_Ret in Ht as [-> Ht].
  apply fromtimestamp_Ret in Hd as [-> ->].
  inversion E. now rewrite Ht.
Qed.

(** The test of [clear] is the specification's [is_stale]. *)
Lemma stale_Ret `{Runtime} name before before_dt rec s b s' :
  In name store_names ->
  stale name before before_dt rec s = Ret b s' ->
  s' = s /\ b = is_stale name before before_dt rec.
Proof.
  intros Hn. unfold stale, is_stale, dated_before, date_field_of, field_or.
  destruct Hn as [<-|[<-|[<-|[]]]]; simpl.
  - destruct (field "sign_date" rec) as [v|]; simpl.
    + destruct (truthy v); simpl.
      * apply dated_Ret.
      * intros E. inversion E. auto.
    + intros E. inversion E. auto.
  - destruct (field "start" rec) as [v|]; simpl.
    + destruct (truthy v) eqn:Ht; simpl.
      * destruct v; try discriminate. intros E. inversion E. auto.
      * intros E. inversion E. auto.
    + intros E. inversion E. auto.
  - destruct (field "created_time" rec) as [v|]; simpl.
    + destruct (truthy v); simpl.
      * apply dated_Ret.
      * intros E. inversion E. auto.
    + intros E. inversion E. auto.
Qed.

Lemma filterM_pure {A} (f : A -> M bool) (p : A -> bool) l :
  (forall a s b s', f a s = Ret b s' -> s' = s /\ b = p a) ->
  forall s out s',
    filterM f l s = Ret out s' -> s' = s /\ out = filter p l.
Proof.
  intros Hf. induction l as [|a l IH]; simpl; intros s out s' E.
  - inversion E. auto.
  - apply bind_Ret in E as (b & s1 & Hb & E).
    apply bind_Ret in E as (rest & s2 & Hrest & E).
    apply Hf in Hb as [-> ->]. apply IH in Hrest as [-> ->].
    inversion E. split; auto.
Qed.

(** The loop that deletes the doomed keys from the loaded store. *)
Lemma delete_keys_Ret name ks :
  forall s st,
    get String.eqb name (_stores s) = Some st ->
    exists s',
      foldM (fun _ key =>
               update_store name
                 (fun st => mkStore (del eqb key (records st))
                                    (_fetched_ranges st)))
            tt ks s = Ret tt s' /\
      get String.eqb name (_stores s') =
      Some (mkStore (fold_left (fun d k => del eqb k d) ks (records st))
                    (_fetched_ranges st)) /\
      (forall n, String.eqb n name = false -> loaded n s' = loaded n s).
Proof.
  induction ks as [|k ks IH]; intros s st Hst; simpl.
  - exists s. split; [reflexivity|]. split; [|reflexivity].
    rewrite Hst. now destruct st.
  - unfold bind. unfold update_store at 1. rewrite Hst.
    set (s1 := with_stores _ s).
    destruct (IH s1 (mkStore (del eqb k (records st)) (_fetched_ranges st)))
      as (s' & E & Hget & Hframe).
    { subst s1. simpl. apply get_set_same. }
    exists s'. split; [exact E|]. split; [exact Hget|].
    intros n Hn. rewrite (Hframe n Hn), !loaded_eq. subst s1. simpl.
    now rewrite get_set_other.
Qed.

(** What one pass of [clear] does to the stores. *)
Lemma clear_store_Ret `{Runtime} before before_dt name s s' :
  In name store_names ->
  wf eqb (records (loaded name s)) ->
  clear_store before before_dt name s = Ret tt s' ->
  loaded name s' =
  mkStore (filter (fun kr => negb (is_stale name before before_dt (snd kr)))
             (records (loaded name s)))
          (_fetched_ranges (loaded name s)) /\
  (forall n, String.eqb n name = false -> loaded n s' = loaded n s).
Proof.
  intros Hn Hwf. unfold clear_store. intros E.
  apply bind_Ret in E as (st & s1 & Hl & E).
  rewrite load_Ret in Hl. inversion Hl as [[Hst Hs1]]. clear Hl.
  subst st s1.
  apply bind_Ret in E as (doomed & s2 & Hd & E).
  apply (filterM_pure _
           (fun kr => is_stale name before before_dt (snd kr))) in Hd
    as [-> ->].
  2: { intros kr s0 b s0'. now apply stale_Ret. }
  apply bind_Ret in E as (_u & s3 & Hdel & E).
  destruct (delete_keys_Ret name
              (keys (filter (fun kr => is_stale name before before_dt (snd kr))
                       (records (loaded name s))))
              (final_state (_load name s)) (loaded name s))
    as (s3' & Hdel' & Hget & Hframe).
  { apply stores_load. }
  rewrite Hdel' in Hdel. inversion Hdel. subst s3'. clear Hdel.
  assert (Hs' : s' = final_state (_save name s3)) by now rewrite E.
  subst s'. split.
  - rewrite loaded_save_loaded by congruence.
    rewrite loaded_eq, Hget. f_equal.
    now apply delete_selected.
  - intros n Hnn. rewrite loaded_save_loaded by congruence.
    rewrite (Hframe n Hnn). apply loaded_load.
Qed.

Lemma parse_date_Ret `{Runtime} d s dt s' :
  _parse_date d s = Ret dt s' -> s' = s /\ strptime d = Some dt.
Proof.
  unfold _parse_date. destruct (strptime d); [|discriminate].
  intros E. inversion E. auto.
Qed.

Lemma wfb_wf {V} (d : dict value V) : wfb d = true -> wf eqb d.
Proof.
  induction d as [|[k v] d IH]; simpl; [trivial|].
  intros Hb. apply andb_true_iff in Hb as [Hk Hd]. split; [|now apply IH].
  intros k' Hk'. rewrite forallb_forall in Hk.
  specialize (Hk k' Hk'). now apply negb_true_iff.
Qed.

(** C7, as amended: clearing with a cutoff deletes, from each of the three
    stores, exactly the records whose date field holds a value that counts
    as true and is strictly before the cutoff; every other record stays,
    unchanged and in place; and [_fetched_ranges] of all three stores is
    unchanged. *)
Theorem clear_before_cutoff `{Runtime} (before : string) (s s' : state) :
  (forall name, In name store_names -> wf eqb (records (loaded name s))) ->
  clear (Some before) s = Ret tt s' ->
  exists before_dt,
    strptime before = Some before_dt /\
    forall name, In name store_names ->
      records (loaded name s') =
      filter (fun kr => negb (is_stale name before before_dt (snd kr)))
        (records (loaded name s)) /\
      _fetched_ranges (loaded name s') = _fetched_ranges (loaded name s).
Proof.
  intros Hwf E. unfold clear in E.
  apply bind_Ret in E as (before_dt & s0 & Hp & E).
  apply parse_date_Ret in Hp as [-> Hp].
  exists before_dt. split; [exact Hp|].
  cbn [foldM store_names] in E.
  apply bind_Ret in E as (_u1 & sa & Ha & E). destruct _u1.
  apply bind_Ret in E as (_u2 & sp & Hpl & E). destruct _u2.
  apply bind_Ret in E as (_u3 & sf & Hf & E). destruct _u3.
  inversion E. subst sf. clear E.
  apply clear_store_Ret in Ha as [Ha Ha'];
    [|simpl; tauto|apply Hwf; simpl; tauto].
  apply clear_store_Ret in Hpl as [Hpl Hpl']; [|simpl; tauto|].
  2: { rewrite Ha' by reflexivity. apply Hwf. simpl. tauto. }
  apply clear_store_Ret in Hf as [Hf Hf']; [|simpl; tauto|].
  2: { rewrite Hpl', Ha' by reflexivity. apply Hwf. simpl. tauto. }
  intros name [<-|[<-|[<-|[]]]].
  - rewrite Hf', Hpl', Ha by reflexivity. now split.
  - rewrite Hf', Hpl, Ha' by reflexivity. now split.
  - rewrite Hf, Hpl', Ha' by reflexivity. now split.
Qed.

Lemma three_cached_wf name :
  In name store_names -> wf eqb (records (loaded name three_cached)).
Proof.
  intros [<-|[<-|[<-|[]]]]; apply wfb_wf; reflexivity.
Qed.

Lemma clear_before_cutoff_witness :
  (forall name, In name store_names ->
                wf eqb (records (loaded name three_cached))) /\
  exists s',
    clear (H := SampleRuntime.march_2024) (Some "2024-01-01") three_cached
    = Ret tt s' /\
    keys (records (loaded "activities" s')) = [VStr "7"; VStr "9"] /\
    _fetched_ranges (loaded "activities" s')
    = _fetched_ranges (loaded "activities" three_cached).
Proof.
  split; [exact three_cached_wf|].
  destruct (clear (H := SampleRuntime.march_2024) (Some "2024-01-01")
              three_cached) as [[] s'|e s'] eqn:E;
    [|vm_compute in E; discriminate].
  exists s'. split; [reflexivity|].
  destruct (clear_before_cutoff (H := SampleRuntime.march_2024) "2024-01-01"
              three_cached s' three_cached_wf E) as (before_dt & Hdt & Hall).
  destruct (Hall "activities" (or_introl eq_refl)) as [Hrecs Hranges].
  split; [|exact Hranges].
  rewrite Hrecs. vm_compute in Hdt. inversion Hdt. subst before_dt.
  reflexivity.
Defined.

(** C7 as stated fails for a record dated at the epoch: its date,
    1 January 1970, is strictly before the cutoff 1 January 2024, and
    [clear] keeps it, because its [sign_date] of 0 counts as false. *)
Lemma clear_keeps_epoch_record :
  exists s' rec,
    clear (H := SampleRuntime.march_2024) (Some "2024-01-01") three_cached
    = Ret tt s' /\
    strptime (Runtime := SampleRuntime.march_2024) "2024-01-01"
    = Some 1704067200 /\
    In (VStr "7", rec) (records (loaded "activities" s')) /\
    field "sign_date" rec = Some (VInt 0) /\
    dated_before (H := SampleRuntime.march_2024) "activities" "2024-01-01"
      1704067200 rec = true.
Proof.
  eexists. eexists. split; [vm_compute; reflexivity|].
  split; [reflexivity|]. split; [vm_compute; left; reflexivity|].
  split; reflexivity.
Qed.

(** *** Backfill: the number of chunks *)

(** Operations that leave the state as it is. *)
Lemma eq_trans_state (a b c : state) : a = b -> b = c -> a = c.
Proof. congruence. Qed.

Lemma add_days_final `{Runtime} dt n s : final_state (add_days dt n s) = s.
Proof.
  symmetry. exact (steps_add_days eq (@eq_refl state) dt n s).
Qed.

Lemma add_days_Ret `{Runtime} dt n s r s' :
  add_days dt n s = Ret r s' -> s' = s.
Proof. intros E. rewrite <- (add_days_final dt n s), E. reflexivity. Qed.

Lemma same_chunks_refl s : same_chunks s s.
Proof. reflexivity. Qed.

Lemma same_chunks_trans a b c :
  same_chunks a b -> same_chunks b c -> same_chunks a c.
Proof. unfold same_chunks. congruence. Qed.

Lemma same_chunks_stderr {A} (m : M A) :
  (forall s, stderr (final_state (m s)) = stderr s) ->
  steps same_chunks m.
Proof. intros Hm s. unfold same_chunks, chunks_attempted. now rewrite Hm. Qed.

Lemma same_chunks_load name : steps same_chunks (_load name).
Proof.
  apply same_chunks_stderr. intros s. unfold _load.
  now destruct (get String.eqb name (_stores s)).
Qed.

Lemma same_chunks_save name : steps same_chunks (_save name).
Proof. apply same_chunks_stderr. reflexivity. Qed.

Lemma same_chunks_clock `{Runtime} : steps same_chunks read_clock.
Proof. apply same_chunks_stderr. reflexivity. Qed.

Lemma same_chunks_update name f : steps same_chunks (update_store name f).
Proof.
  apply same_chunks_stderr. intros s. unfold update_store.
  now destruct (get String.eqb name (_stores s)).
Qed.

Lemma same_chunks_call answer : steps same_chunks (call answer).
Proof.
  apply same_chunks_stderr. intros s. unfold call.
  now destruct (answer (api_calls s)).
Qed.

Lemma same_chunks_print l : is_chunk l = false -> steps same_chunks (print l).
Proof.
  intros Hl s. unfold same_chunks, chunks_attempted. simpl.
  rewrite filter_app. simpl. rewrite Hl. now rewrite app_nil_r.
Qed.

Lemma fetch_chunk_same_chunks `{Runtime} api endpoint months a b k :
  steps same_chunks (fetch_chunk api endpoint months a b k).
Proof.
  apply (steps_fetch_chunk same_chunks same_chunks_refl same_chunks_trans
           same_chunks_load same_chunks_save same_chunks_clock).
  - intros name f _. apply same_chunks_update.
  - intros name st en. apply same_chunks_update.
  - apply same_chunks_print.
  - apply same_chunks_call.
Qed.

Lemma print_chunk_attempted endpoint i a b s :
  chunks_attempted (final_state (print (LogChunk endpoint i a b) s))
  = S (chunks_attempted s).
Proof.
  unfold chunks_attempted. simpl. rewrite filter_app, length_app. simpl. lia.
Qed.

(** After a prefix that leaves the state alone, a computation ends where
    it started or where its continuation ends. *)
Lemma bind_pure_final {A B} (m : M A) (k : A -> M B) s :
  steps eq m ->
  final_state (bind m k s) = s \/
  exists a, final_state (bind m k s) = final_state (k a s).
Proof.
  intros Hm. rewrite final_bind. specialize (Hm s).
  destruct (m s) as [a s1|e s1]; simpl in Hm; subst s1; eauto.
Qed.

Lemma add_days_pure `{Runtime} dt n : steps eq (add_days dt n).
Proof. exact (steps_add_days eq (@eq_refl state) dt n). Qed.

(** One pass through the loop body attempts at most one chunk. *)
Lemma backfill_chunk_attempts `{Runtime} api endpoint months today_dt
  chunk_days i k s :
  (chunks_attempted
     (final_state
        (backfill_chunk api endpoint months today_dt chunk_days i k s))
   <= S (chunks_attempted s))%nat.
Proof.
  unfold backfill_chunk.
  match goal with
  | |- context [bind ?m ?k s] =>
      destruct (bind_pure_final m k s (add_days_pure _ _)) as [->|[end_dt ->]]
  end; [lia|].
  match goal with
  | |- context [bind ?m ?k s] =>
      destruct (bind_pure_final m k s (add_days_pure _ _)) as [->|[start_dt ->]]
  end; [lia|].
  match goal with
  | |- context [bind ?m ?k s] =>
      destruct (bind_pure_final m k s) as [->|[past ->]]
  end.
  - destruct (horizon months) as [m|]; [|apply (steps_ret eq (@eq_refl state))].
    apply (steps_bind eq eq_trans_state); [apply add_days_pure|].
    intros d. apply (steps_ret eq (@eq_refl state)).
  - lia.
  - destruct past; [simpl; lia|].
    rewrite final_bind.
    change (print (LogChunk endpoint (i + 1) (strftime start_dt)
                     (strftime end_dt)) s)
      with (Ret tt (final_state
                      (print (LogChunk endpoint (i + 1) (strftime start_dt)
                                (strftime end_dt)) s))).
    cbv iota beta.
    rewrite (fetch_chunk_same_chunks api endpoint months _ _ k _).
    rewrite print_chunk_attempted. lia.
Qed.

Lemma backfill_loop_attempts `{Runtime} api endpoint months today_dt
  chunk_days n :
  forall i k s,
    (chunks_attempted
       (final_state
          (backfill_loop api endpoint months today_dt chunk_days n i k s))
     <= chunks_attempted s + n)%nat.
Proof.
  induction n as [|n IH]; intros i k s; simpl; [lia|].
  rewrite final_bind.
  pose proof (backfill_chunk_attempts api endpoint months today_dt chunk_days
                i k s) as Hc.
  destruct (backfill_chunk api endpoint months today_dt chunk_days i k s)
    as [[k'| |] s1|e s1]; simpl in *; try lia.
  specialize (IH (i + 1) k' s1). lia.
Qed.

Lemma today_same_chunks `{Runtime} : steps same_chunks _today.
Proof.
  apply steps_today;
    first [exact same_chunks_refl | exact same_chunks_trans
          | exact same_chunks_clock].
Qed.

Lemma backfill_attempts `{Runtime} api endpoint months s :
  (chunks_attempted (final_state (backfill api endpoint months s))
   <= chunks_attempted s
      + Z.to_nat (max_chunks_of months (chunk_days_of endpoint)))%nat.
Proof.
  unfold backfill. rewrite final_bind.
  pose proof (today_same_chunks s) as Ht. unfold same_chunks in Ht.
  destruct (_today s) as [today s1|e s1]; simpl in Ht; [|lia].
  rewrite final_bind. unfold _parse_date.
  destruct (strptime today) as [today_dt|]; simpl; [|lia].
  rewrite <- Ht. apply backfill_loop_attempts.
Qed.

(** *** Backfill: the number of calls *)

Lemma same_calls_refl s : same_calls s s.
Proof. reflexivity. Qed.

Lemma same_calls_trans a b c :
  same_calls a b -> same_calls b c -> same_calls a c.
Proof. unfold same_calls. congruence. Qed.

Lemma same_calls_load name : steps same_calls (_load name).
Proof.
  intros s. unfold same_calls, _load.
  now destruct (get String.eqb name (_stores s)).
Qed.

Lemma same_calls_save name : steps same_calls (_save name).
Proof. intros s. reflexivity. Qed.

Lemma same_calls_clock `{Runtime} : steps same_calls read_clock.
Proof. intros s. reflexivity. Qed.

Lemma same_calls_update name f : steps same_calls (update_store name f).
Proof.
  intros s. unfold same_calls, update_store.
  now destruct (get String.eqb name (_stores s)).
Qed.

Lemma same_calls_print l : steps same_calls (print l).
Proof. intros s. reflexivity. Qed.

Lemma within_of_steps {A} (m : M A) n : steps same_calls m -> calls_within n m.
Proof. intros Hm s. rewrite (Hm s). lia. Qed.

Lemma within_bind {A B} n1 n2 (m : M A) (k : A -> M B) :
  calls_within n1 m -> (forall a, calls_within n2 (k a)) ->
  calls_within (n1 + n2) (bind m k).
Proof.
  intros Hm Hk s. rewrite final_bind. specialize (Hm s).
  destruct (m s) as [a s1|e s1]; simpl in Hm; [|lia].
  specialize (Hk a s1). lia.
Qed.

Lemma within_try {A} n1 n2 (body handler : M A) :
  calls_within n1 body -> calls_within n2 handler ->
  calls_within (n1 + n2) (try_request body handler).
Proof.
  intros Hb Hh s. unfold try_request. specialize (Hb s).
  destruct (body s) as [a s1|[] s1]; simpl in *; try lia.
  specialize (Hh s1). lia.
Qed.

Lemma within_call answer : calls_within 1 (call answer).
Proof.
  intros s. unfold call. destruct (answer (api_calls s)); simpl; lia.
Qed.

Lemma detect_gaps_no_call name a b n : calls_within n (_detect_gaps name a b).
Proof.
  apply within_of_steps, steps_detect_gaps;
    first [exact same_calls_refl | exact same_calls_trans
          | exact same_calls_load].
Qed.

Lemma merge_into_no_call `{Runtime} name key_of items n :
  calls_within n (merge_into name key_of items).
Proof.
  apply within_of_steps, steps_merge_into;
    first [exact same_calls_refl | exact same_calls_trans
          | exact same_calls_load | exact same_calls_save
          | exact same_calls_clock | intros ? f _; apply same_calls_update].
Qed.

Lemma record_range_no_call name a b n :
  calls_within n (_record_fetched_range name a b).
Proof.
  apply within_of_steps, steps_record_fetched_range;
    first [exact same_calls_trans | exact same_calls_load
          | exact same_calls_save | intros ? ? ?; apply same_calls_update].
Qed.

Lemma after_fetch_no_call months k items n :
  calls_within n (after_fetch months k items).
Proof.
  apply within_of_steps, steps_after_fetch;
    first [exact same_calls_refl | exact same_calls_trans
          | intros l _; apply same_calls_print].
Qed.

Lemma print_no_call {A} l (a : A) n : calls_within n (print l ;;; ret a).
Proof. intros s. simpl. lia. Qed.

(** Call, merge, record the range or not, count: one call. *)
Lemma fetched_one_call `{Runtime} answer name key_of (mid : M unit) months k :
  calls_within 0 mid ->
  calls_within 1
    (data <- call answer ;;
     items <- merge_into name key_of (rows data) ;;
     mid ;;;
     after_fetch months k items).
Proof.
  intros Hmid.
  apply (within_bind 1 0); [apply within_call|]. intros data.
  apply (within_bind 0 0); [apply merge_into_no_call|]. intros items.
  apply (within_bind 0 0); [exact Hmid|]. intros _.
  apply after_fetch_no_call.
Qed.

Lemma fetch_chunk_one_call `{Runtime} api endpoint months a b k :
  calls_within 1 (fetch_chunk api endpoint months a b k).
Proof.
  unfold fetch_chunk. apply (within_try 1 0); [|apply print_no_call].
  destruct (String.eqb endpoint "activities").
  { apply (within_bind 0 1); [apply detect_gaps_no_call|].
    intros [|g gaps]; [apply print_no_call|].
    apply (fetched_one_call _ "activities" activity_key
             (_record_fetched_range "activities" a b)).
    apply record_range_no_call. }
  destruct (String.eqb endpoint "feedback").
  { apply (within_bind 0 1); [apply detect_gaps_no_call|].
    intros [|g gaps]; [apply print_no_call|].
    apply (fetched_one_call _ "feedback" feedback_key
             (_record_fetched_range "feedback" a b)).
    apply record_range_no_call. }
  destruct (String.eqb endpoint "plans"); [|apply print_no_call].
  apply (fetched_one_call (fun n => get_plans api n (Some a) None) "plans"
           plan_key (ret tt)).
  intros s. simpl. lia.
Qed.

(** One pass through the loop body calls the collaborator at most once. *)
Lemma backfill_chunk_one_call `{Runtime} api endpoint months today_dt
  chunk_days i k :
  calls_within 1
    (backfill_chunk api endpoint months today_dt chunk_days i k).
Proof.
  intros s. unfold backfill_chunk.
  match goal with
  | |- context [bind ?m ?k s] =>
      destruct (bind_pure_final m k s (add_days_pure _ _)) as [->|[end_dt ->]]
  end; [lia|].
  match goal with
  | |- context [bind ?m ?k s] =>
      destruct (bind_pure_final m k s (add_days_pure _ _)) as [->|[start_dt ->]]
  end; [lia|].
  match goal with
  | |- context [bind ?m ?k s] =>
      destruct (bind_pure_final m k s) as [->|[past ->]]
  end.
  - destruct (horizon months) as [m|]; [|apply (steps_ret eq (@eq_refl state))].
    apply (steps_bind eq eq_trans_state); [apply add_days_pure|].
    intros d. apply (steps_ret eq (@eq_refl state)).
  - lia.
  - destruct past; [simpl; lia|].
    apply (within_bind 0 1).
    + apply within_of_steps, same_calls_print.
    + intros _. apply fetch_chunk_one_call.
Qed.

Lemma backfill_loop_calls `{Runtime} api endpoint months today_dt chunk_days n :
  forall i k,
    calls_within n
      (backfill_loop api endpoint months today_dt chunk_days n i k).
Proof.
  induction n as [|n IH]; intros i k s; simpl; [lia|].
  rewrite final_bind.
  pose proof (backfill_chunk_one_call api endpoint months today_dt chunk_days
                i k s) as Hc.
  destruct (backfill_chunk api endpoint months today_dt chunk_days i k s)
    as [[k'| |] s1|e s1]; simpl in *; try lia.
  specialize (IH (i + 1) k' s1). lia.
Qed.

Lemma backfill_calls `{Runtime} api endpoint months :
  calls_within (Z.to_nat (max_chunks_of months (chunk_days_of endpoint)))
    (backfill api endpoint months).
Proof.
  intros s. unfold backfill. rewrite final_bind.
  assert (Ht : steps same_calls _today).
  { apply steps_today;
      first [exact same_calls_refl | exact same_calls_trans
            | exact same_calls_clock]. }
  specialize (Ht s). unfold same_calls in Ht.
  destruct (_today s) as [today s1|e s1]; simpl in Ht; [|lia].
  rewrite final_bind. unfold _parse_date.
  destruct (strptime today) as [today_dt|]; simpl; [|lia].
  rewrite <- Ht. apply backfill_loop_calls.
Qed.

Lemma floor_le_ceil a b : 0 < b -> a / b <= ceil_div a b.
Proof.
  intros Hb. unfold ceil_div.
  pose proof (Z.div_mod a b ltac:(lia)) as H1.
  pose proof (Z.mod_pos_bound a b Hb) as H2.
  pose proof (Z.div_mod (- a) b ltac:(lia)) as H3.
  pose proof (Z.mod_pos_bound (- a) b Hb) as H4.
  nia.
Qed.

Lemma chunk_days_positive endpoint : 0 < chunk_days_of endpoint.
Proof.
  unfold chunk_days_of, PLAN_CHUNK_DAYS, CHUNK_DAYS.
  destruct (String.eqb endpoint "plans"); lia.
Qed.

(** C8. With a horizon of [months > 0], backfill attempts at most
    [ceil (months * 30 / chunk_days) + 1] chunks, and calls the collaborator
    at most that often, whatever the collaborator answers and whether the
    run returns or raises; with [months = 2] and a chunk size of 30 that is
    at most 4. *)
Theorem backfill_chunk_bound `{Runtime} (api : Api) (endpoint : string)
  (months : Z) (s : state) :
  0 < months ->
  let s' := final_state (backfill api endpoint (Some months) s) in
  let chunks := Z.of_nat (chunks_attempted s') - Z.of_nat (chunks_attempted s) in
  let calls := Z.of_nat (api_calls s') - Z.of_nat (api_calls s) in
  let bound := ceil_div (months * 30) (chunk_days_of endpoint) + 1 in
  chunks <= bound /\ calls <= bound /\
  (months = 2 -> chunk_days_of endpoint = 30 -> chunks <= 4 /\ calls <= 4).
Proof.
  intros Hm s' chunks calls bound.
  pose proof (backfill_attempts api endpoint (Some months) s) as Ha.
  pose proof (backfill_calls api endpoint (Some months) s) as Hc.
  fold s' in Ha, Hc. unfold max_chunks_of, horizon in Ha, Hc.
  replace (months =? 0) with false in Ha, Hc by (symmetry; lia).
  pose proof (floor_le_ceil (months * 30) (chunk_days_of endpoint)
                (chunk_days_positive endpoint)) as Hfc.
  pose proof (Z.div_pos (months * 30) (chunk_days_of endpoint)
                ltac:(lia) (chunk_days_positive endpoint)) as Hpos.
  fold bound in Hfc.
  assert (Hchunks : chunks <= bound) by (subst chunks; clearbody s'; lia).
  assert (Hcalls : calls <= bound) by (subst calls; clearbody s'; lia).
  split; [exact Hchunks|]. split; [exact Hcalls|].
  intros Hm2 Hcd.
  assert (Hfour : bound <= 4).
  { subst bound. rewrite Hm2, Hcd. vm_compute. discriminate. }
  clearbody chunks calls bound. lia.
Qed.

Lemma backfill_chunk_bound_witness :
  0 < 2 /\
  Z.of_nat (chunks_attempted two_month_run)
  - Z.of_nat (chunks_attempted fresh) <= 4 /\
  Z.of_nat (api_calls two_month_run) - Z.of_nat (api_calls fresh) <= 4 /\
  chunks_attempted two_month_run = 3%nat /\
  api_calls two_month_run = 3%nat.
Proof.
  split; [lia|].
  pose proof (proj2 (proj2 (backfill_chunk_bound
                              (H := SampleRuntime.march_2024)
                              api_empty "activities" 2 fresh ltac:(lia)))
                eq_refl eq_refl) as [Hchunks Hcalls].
  split; [exact Hchunks|]. split; [exact Hcalls|].
  split; vm_compute; reflexivity.
Defined.

(** *** Backfill: when the loop stops *)

Lemma same_log_refl s : same_log s s.
Proof. reflexivity. Qed.

Lemma same_log_trans a b c : same_log a b -> same_log b c -> same_log a c.
Proof. unfold same_log. congruence. Qed.

Lemma same_log_load name : steps same_log (_load name).
Proof.
  intros s. unfold same_log, _load.
  now destruct (get String.eqb name (_stores s)).
Qed.

Lemma same_log_save name : steps same_log (_save name).
Proof. intros s. reflexivity. Qed.

Lemma same_log_clock `{Runtime} : steps same_log read_clock.
Proof. intros s. reflexivity. Qed.

Lemma same_log_update name f : steps same_log (update_store name f).
Proof.
  intros s. unfold same_log, update_store.
  now destruct (get String.eqb name (_stores s)).
Qed.

Lemma quiet_of_steps {A} (m : M A) :
  (forall s, exists a s', m s = Ret a s') -> steps same_log m -> quiet m.
Proof.
  intros Hret Hlog s. destruct (Hret s) as (a & s' & E).
  exists a, s'. split; [exact E|].
  specialize (Hlog s). now rewrite E in Hlog.
Qed.

Lemma quiet_detect_gaps name a b : quiet (_detect_gaps name a b).
Proof.
  apply quiet_of_steps.
  - intros s. unfold _detect_gaps, bind. rewrite load_Ret. eauto.
  - apply steps_detect_gaps;
      first [exact same_log_refl | exact same_log_trans | exact same_log_load].
Qed.

Lemma quiet_merge_into `{Runtime} name key_of items :
  quiet (merge_into name key_of items).
Proof.
  apply quiet_of_steps.
  - intros s. unfold merge_into, bind. rewrite load_Ret.
    unfold now_isoformat, bind, read_clock, ret.
    match goal with
    | |- context [mapM ?f items ?st] =>
        destruct (mapM_merge_item_Ret name key_of
                    (isoformat
                       (clock (clock_reads (final_state (_load name s)))))
                    items st) as (out & s2 & E & _)
    end.
    rewrite E. unfold _save. eauto.
  - apply steps_merge_into;
      first [exact same_log_refl | exact same_log_trans | exact same_log_load
            | exact same_log_save | exact same_log_clock
            | intros n f _; apply same_log_update].
Qed.

Lemma quiet_record_fetched_range name a b :
  quiet (_record_fetched_range name a b).
Proof.
  apply quiet_of_steps.
  - intros s. destruct (record_fetched_range_Ret name a b s) as (s' & E & _).
    eauto.
  - apply steps_record_fetched_range;
      first [exact same_log_trans | exact same_log_load | exact same_log_save
            | intros n st en; apply same_log_update].
Qed.

Lemma quiet_call answer :
  (forall n, answer n <> ApiFailure) -> quiet (call answer).
Proof.
  intros Hok s. unfold call. specialize (Hok (api_calls s)).
  destruct (answer (api_calls s)); [eauto|contradiction].
Qed.

Lemma quiet_ret_tt : quiet (ret tt).
Proof. intros s. now exists tt, s. Qed.

Lemma after_fetch_Ret months k items s :
  horizon months = None ->
  exists e s' printed,
    after_fetch months k items s = Ret e s' /\
    stderr s' = (stderr s ++ printed)%list /\
    fetched_end k printed e.
Proof.
  intros Hh. unfold after_fetch. rewrite Hh.
  set (count := Z.of_nat (List.length items)).
  fold (next_streak k count). unfold BACKFILL_EMPTY_STOP.
  destruct (6 <=? next_streak k count) eqn:E.
  - do 3 eexists. split; [reflexivity|]. simpl. rewrite <- app_assoc.
    split; [reflexivity|]. exists count. right. repeat split. lia.
  - do 3 eexists. split; [reflexivity|]. simpl.
    split; [reflexivity|]. exists count. left. repeat split. lia.
Qed.

(** Call, merge, an optional quiet step, count. *)
Lemma fetched_Ret `{Runtime} answer name key_of (mid : M unit) months k s :
  horizon months = None ->
  (forall n, answer n <> ApiFailure) ->
  quiet mid ->
  exists e s' printed,
    (data <- call answer ;;
     items <- merge_into name key_of (rows data) ;;
     mid ;;;
     after_fetch months k items) s = Ret e s' /\
    stderr s' = (stderr s ++ printed)%list /\
    fetched_end k printed e.
Proof.
  intros Hh Hok Hmid. unfold bind.
  destruct (quiet_call answer Hok s) as (data & s1 & -> & L1).
  destruct (quiet_merge_into name key_of (rows data) s1)
    as (items & s2 & -> & L2).
  destruct (Hmid s2) as ([] & s3 & -> & L3).
  destruct (after_fetch_Ret months k items s3 Hh)
    as (e & s4 & printed & -> & L4 & He).
  exists e, s4, printed. split; [reflexivity|]. split; [|exact He].
  rewrite L4. congruence.
Qed.

Lemma fetch_chunk_Ret `{Runtime} api endpoint months a b k s :
  horizon months = None -> reliable api -> In endpoint store_names ->
  exists e s' printed,
    fetch_chunk api endpoint months a b k s = Ret e s' /\
    stderr s' = (stderr s ++ printed)%list /\
    chunk_end k printed e.
Proof.
  intros Hh (Hact & Hplans & Hfb) Hendpoint.
  assert (Hbody : forall body handler e s' printed,
             body s = Ret e s' ->
             stderr s' = (stderr s ++ printed)%list ->
             chunk_end k printed e ->
             exists e s' printed,
               @try_request body_end body handler s = Ret e s' /\
               stderr s' = (stderr s ++ printed)%list /\
               chunk_end k printed e).
  { intros body handler e s' printed E L He. exists e, s', printed.
    unfold try_request. now rewrite E. }
  assert (Hcached : forall s1,
             stderr s1 = stderr s ->
             exists s',
               (print LogCached ;;; ret (Next k)) s1 = Ret (Next k) s' /\
               stderr s' = (stderr s ++ [LogCached])%list).
  { intros s1 L. eexists. split; [reflexivity|]. simpl. now rewrite L. }
  unfold fetch_chunk.
  destruct Hendpoint as [<-|[<-|[<-|[]]]]; cbn [String.eqb Ascii.eqb Bool.eqb];
    cbv iota.
  - (* activities *)
    destruct (quiet_detect_gaps "activities" a b s) as (gaps & s1 & Eg & L1).
    destruct gaps as [|g gaps].
    + destruct (Hcached s1 L1) as (s' & E & L).
      eapply Hbody; [unfold bind; rewrite Eg; exact E|exact L|now left].
    + destruct (fetched_Ret (fun n => get_activities api n a b (Some 100))
                  "activities" activity_key
                  (_record_fetched_range "activities" a b) months k s1 Hh)
        as (e & s' & printed & E & L & He).
      { intros n. apply Hact. }
      { apply quiet_record_fetched_range. }
      eapply Hbody; [unfold bind at 1; rewrite Eg; exact E| |right; exact He].
      now rewrite L, L1.
  - (* plans *)
    destruct (fetched_Ret (fun n => get_plans api n (Some a) None)
                "plans" plan_key (ret tt) months k s Hh)
      as (e & s' & printed & E & L & He).
    { intros n. apply Hplans. }
    { apply quiet_ret_tt. }
    eapply Hbody; [exact E|exact L|right; exact He].
  - (* feedback *)
    destruct (quiet_detect_gaps "feedback" a b s) as (gaps & s1 & Eg & L1).
    destruct gaps as [|g gaps].
    + destruct (Hcached s1 L1) as (s' & E & L).
      eapply Hbody; [unfold bind; rewrite Eg; exact E|exact L|now left].
    + destruct (fetched_Ret (fun n => get_feedback api n a b)
                  "feedback" feedback_key
                  (_record_fetched_range "feedback" a b) months k s1 Hh)
        as (e & s' & printed & E & L & He).
      { intros n. apply Hfb. }
      { apply quiet_record_fetched_range. }
      eapply Hbody; [unfold bind at 1; rewrite Eg; exact E| |right; exact He].
      now rewrite L, L1.
Qed.

Lemma backfill_chunk_Ret `{Runtime} api endpoint months today_dt chunk_days
  i k s e s' :
  horizon months = None -> reliable api -> In endpoint store_names ->
  backfill_chunk api endpoint months today_dt chunk_days i k s = Ret e s' ->
  exists a b printed,
    stderr s' = (stderr s ++ LogChunk endpoint (i + 1) a b :: printed)%list /\
    chunk_end k printed e.
Proof.
  intros Hh Hapi Hendpoint. unfold backfill_chunk. rewrite Hh. intros E.
  apply bind_Ret in E as (end_dt & s1 & E1 & E).
  apply add_days_Ret in E1. subst s1.
  apply bind_Ret in E as (start_dt & s1 & E2 & E).
  apply add_days_Ret in E2. subst s1.
  apply bind_Ret in E as (past & s1 & E3 & E).
  inversion E3. subst past s1. clear E3.
  apply bind_Ret in E as ([] & s1 & E4 & E).
  inversion E4. subst s1. clear E4.
  match type of E with
  | fetch_chunk _ _ _ ?a ?b _ ?st = _ =>
      destruct (fetch_chunk_Ret api endpoint months a b k st Hh Hapi Hendpoint)
        as (e' & s'' & printed & E' & L & He);
      exists a, b, printed
  end.
  rewrite E' in E. inversion E. subst e' s''.
  split; [|exact He]. rewrite L. simpl. now rewrite <- app_assoc.
Qed.

Lemma next_streak_le k count :
  next_streak k count <= k + 1 \/ next_streak k count = 0.
Proof. unfold next_streak. destruct (count =? 0); lia. Qed.

(** The trace of the loop from chunk [i] with a streak [k] below 6: every
    chunk is attempted with a streak below 6, and the loop ends with the
    streak at 6 or with all [n] iterations used. *)
Lemma backfill_loop_trace `{Runtime} api endpoint months today_dt chunk_days n :
  horizon months = None -> reliable api -> In endpoint store_names ->
  forall i k s s',
    0 <= k < 6 ->
    backfill_loop api endpoint months today_dt chunk_days n i k s = Ret tt s' ->
    exists log,
      stderr s' = (stderr s ++ log)%list /\
      attempts_below 6 k log /\
      0 <= streak_through k log /\
      (streak_through k log = 6 \/
       (count_chunks log = n /\ streak_through k log < 6)).
Proof.
  intros Hh Hapi Hendpoint.
  induction n as [|n IH]; intros i k s s' Hk E; simpl in E.
  - inversion E. subst s'. exists []. rewrite app_nil_r. simpl.
    repeat split; try lia. right. split; [reflexivity|lia].
  - apply bind_Ret in E as (e & s1 & Ec & E).
    apply (backfill_chunk_Ret api endpoint months today_dt chunk_days i k s e s1
             Hh Hapi Hendpoint) in Ec as (a & b & printed & L & Hend).
    destruct Hend as [[-> ->]|[count [(-> & -> & Hlt)|(-> & -> & Hge)]]].
    + (* cached *)
      destruct (IH (i + 1) k s1 s' Hk E) as (log & L' & Hatt & Hpos & Hstop).
      exists (LogChunk endpoint (i + 1) a b :: LogCached :: log).
      split; [rewrite L', L, <- app_assoc; reflexivity|].
      simpl. repeat split; try lia; try assumption.
      destruct Hstop as [Hsix|[Hcount Hlt]]; [now left|right].
      split; [|exact Hlt]. unfold count_chunks in *. simpl. now f_equal.
    + (* fetched, the loop goes on *)
      assert (Hk' : 0 <= next_streak k count < 6).
      { split; [|exact Hlt]. unfold next_streak. destruct (count =? 0); lia. }
      destruct (IH (i + 1) (next_streak k count) s1 s' Hk' E)
        as (log & L' & Hatt & Hpos & Hstop).
      exists (LogChunk endpoint (i + 1) a b :: LogRecords count :: log).
      split; [rewrite L', L, <- app_assoc; reflexivity|].
      simpl. repeat split; try lia; try assumption.
      destruct Hstop as [Hsix|[Hcount Hlt']]; [now left|right].
      split; [|exact Hlt']. unfold count_chunks in *. simpl. now f_equal.
    + (* fetched, the streak reached the threshold *)
      inversion E. subst s'.
      exists [LogChunk endpoint (i + 1) a b; LogRecords count; LogStopping].
      split; [exact L|]. simpl.
      destruct (next_streak_le k count) as [Hle|Hzero]; [|lia].
      repeat split; lia.
Qed.

(** C9, as amended: without a horizon, with a collaborator whose calls all
    succeed, a backfill of activities, plans or feedback that returns has
    attempted every chunk while the streak of consecutive empty chunks was
    below 6, and has stopped either with that streak at 6 or after 999
    chunks. *)
Theorem backfill_auto_stop `{Runtime} (api : Api) (endpoint : string)
  (months : option Z) (s s' : state) :
  horizon months = None ->
  reliable api ->
  In endpoint ["activities"; "plans"; "feedback"] ->
  backfill api endpoint months s = Ret tt s' ->
  exists log,
    stderr s' = (stderr s ++ log)%list /\
    attempts_below 6 0 log /\
    (streak_through 0 log = 6 \/
     (count_chunks log = 999%nat /\ streak_through 0 log < 6)).
Proof.
  intros Hh Hapi Hendpoint E. unfold backfill in E.
  apply bind_Ret in E as (today & s1 & Et & E).
  apply bind_Ret in E as (today_dt & s2 & Ep & E).
  apply parse_date_Ret in Ep as [-> _].
  assert (L1 : stderr s1 = stderr s).
  { unfold _today, bind, read_clock, ret in Et. now inversion Et. }
  unfold max_chunks_of in E. rewrite Hh in E.
  apply (backfill_loop_trace api endpoint months today_dt
           (chunk_days_of endpoint) (Z.to_nat 999) Hh Hapi Hendpoint 0 0 s1 s')
    in E as (log & L & Hatt & _ & Hstop); [|lia].
  exists log. rewrite L, L1. split; [reflexivity|]. split; [exact Hatt|].
  destruct Hstop as [Hsix|[Hcount Hlt]]; [now left|right].
  split; [|exact Hlt]. rewrite Hcount. reflexivity.
Qed.

Lemma api_empty_reliable : reliable api_empty.
Proof. repeat split; intros; discriminate. Qed.

Lemma backfill_auto_stop_witness :
  horizon None = None /\ reliable api_empty /\
  In "activities" ["activities"; "plans"; "feedback"] /\
  backfill (H := SampleRuntime.march_2024) api_empty "activities" None fresh
  = Ret tt empty_history_run /\
  count_chunks (stderr empty_history_run) = 6%nat /\
  exists log,
    stderr empty_history_run = (stderr fresh ++ log)%list /\
    attempts_below 6 0 log /\
    (streak_through 0 log = 6 \/
     (count_chunks log = 999%nat /\ streak_through 0 log < 6)).
Proof.
  assert (E : backfill (H := SampleRuntime.march_2024) api_empty "activities"
                None fresh = Ret tt empty_history_run)
    by (vm_compute; reflexivity).
  split; [reflexivity|]. split; [exact api_empty_reliable|].
  split; [now left|]. split; [exact E|].
  split; [vm_compute; reflexivity|].
  exact (backfill_auto_stop (H := SampleRuntime.march_2024) api_empty
           "activities" None fresh empty_history_run eq_refl
           api_empty_reliable (or_introl eq_refl) E).
Defined.

(** C9 as stated fails at the cap of 999 chunks: with no horizon and every
    call succeeding with one record, no empty chunk ever occurs, and the
    loop still stops, after 999 chunks, with the streak at 0. *)
Lemma backfill_stops_at_cap :
  reliable api_one_plan /\
  backfill (H := SampleRuntime.march_2024) api_one_plan "plans" None fresh
  = Ret tt long_run /\
  count_chunks (stderr long_run) = 999%nat /\
  streak_through 0 (stderr long_run) = 0 /\
  ~ In LogStopping (stderr long_run).
Proof.
  split; [repeat split; intros; discriminate|].
  split; [vm_compute; reflexivity|].
  split; [vm_compute; reflexivity|].
  split; [vm_compute; reflexivity|].
  set (stopping := fun l => match l with LogStopping => true | _ => false end).
  assert (Hnone : existsb stopping (stderr long_run) = false)
    by (vm_compute; reflexivity).
  intros Hin.
  assert (Hsome : existsb stopping (stderr long_run) = true).
  { apply existsb_exists. exists LogStopping. split; [exact Hin|reflexivity]. }
  congruence.
Qed.

End CacheFacts.

(* ------------------------------------------------------------------ *)
(** ** Coverage of the merged ranges and of the gaps *)

Module CoverageFacts.
Import StrOrd StrOrdFacts Ranges RangesFacts Coverage.

Lemma merge_walk_coverage rest :
  forall cur x,
    (forall r, In r rest -> le (fst cur) (fst r)) ->
    PySort.ordered by_start rest ->
    (covered_by (merge_walk cur rest) x <-> covered_by (cur :: rest) x).
Proof.
  induction rest as [|[s e] rest IH]; intros cur x Hcur Hord.
  - reflexivity.
  - destruct Hord as [Hse Hord]. cbn [merge_walk].
    assert (Hcs : le (fst cur) s) by (apply (Hcur (s, e)); now left).
    assert (Hs : forall r, In r rest -> le s (fst r)).
    { intros r Hr. specialize (Hse r Hr). unfold by_start in Hse.
      simpl in Hse. solve_order. }
    destruct (leb s (snd cur)) eqn:E.
    + rewrite IH; auto.
      2:{ intros r Hr. apply (Hcur r). now right. }
      unfold covered_by. split.
      * intros (r & [<-|Hr] & Hc).
        -- unfold covers in Hc. simpl in Hc. destruct Hc as [H1 H2].
           destruct (ltb (snd cur) x) eqn:E2.
           ++ exists (s, e). split; [right; now left|].
              unfold covers. simpl. split; solve_order.
           ++ exists cur. split; [now left|].
              unfold covers. split; solve_order.
        -- exists r. split; auto. right. now right.
      * intros (r & [<-|[<-|Hr]] & Hc).
        -- exists (fst cur, max (snd cur) e). split; [now left|].
           unfold covers in *. simpl. destruct Hc. split; solve_order.
        -- exists (fst cur, max (snd cur) e). split; [now left|].
           unfold covers in *. simpl in *. destruct Hc. split; solve_order.
        -- exists r. split; auto. now right.
    + unfold covered_by. split.
      * intros (r & [Hr|Hr] & Hc).
        -- exists r. split; auto. now left.
        -- assert (Hc' : covered_by (merge_walk (s, e) rest) x)
             by (exists r; auto).
           apply IH in Hc'; auto. destruct Hc' as (r' & Hr' & Hc').
           exists r'. split; auto. now right.
      * intros (r & [Hr|Hr] & Hc).
        -- exists r. split; auto. now left.
        -- assert (Hc' : covered_by ((s, e) :: rest) x) by (exists r; auto).
           apply IH in Hc'; auto. destruct Hc' as (r' & Hr' & Hc').
           exists r'. split; auto. now right.
Qed.

Lemma merge_ranges_coverage ranges x :
  covered_by (_merge_ranges ranges) x <-> covered_by ranges x.
Proof.
  unfold _merge_ranges. destruct ranges as [|r0 ranges]; [reflexivity|].
  pose proof (sort_by_start_ordered (r0 :: ranges)) as Hord.
  pose proof (fun r => sort_by_start_In r (r0 :: ranges)) as Hin.
  destruct (sort_by_start (r0 :: ranges)) as [|first rest].
  - exfalso. apply (Hin r0). now left.
  - destruct Hord as [Hfirst Hord].
    rewrite merge_walk_coverage; auto.
    + unfold covered_by. split; intros (r & Hr & Hc); exists r; split; auto;
        now apply Hin.
    + intros r Hr. specialize (Hfirst r Hr). unfold by_start in Hfirst.
      solve_order.
Qed.

(** Gaps end at or before the end of the request. *)
Lemma gaps_walk_until end_ sorted_r :
  forall cursor g, In g (gaps_walk end_ cursor sorted_r) -> le (snd g) end_.
Proof.
  induction sorted_r as [|[rs re_] rest IH]; intros cursor g; cbn [gaps_walk].
  - destruct (ltb cursor end_); [|intros []].
    intros [<-|[]]. apply le_refl.
  - intros Hg. apply in_app_or in Hg as [Hg|Hg]; [|eauto].
    destruct (ltb cursor rs); [|destruct Hg].
    destruct (ltb cursor (min rs end_)); [|destruct Hg].
    destruct Hg as [<-|[]]. simpl. solve_order.
Qed.

(** Over proper ranges, every gap ends no later than the next one starts. *)
Lemma gaps_walk_ascending end_ sorted_r :
  (forall r, In r sorted_r -> proper r) ->
  forall cursor, PySort.ordered precedes (gaps_walk end_ cursor sorted_r).
Proof.
  induction sorted_r as [|[rs re_] rest IH]; intros Hp cursor; cbn [gaps_walk].
  - destruct (ltb cursor end_); simpl; [|exact I].
    split; [intros y []|exact I].
  - assert (Hrest : PySort.ordered precedes
                      (gaps_walk end_ (max cursor re_) rest))
      by (apply IH; intros r Hr; apply Hp; now right).
    destruct (ltb cursor rs) eqn:E1; [|exact Hrest].
    destruct (ltb cursor (min rs end_)) eqn:E2; [|exact Hrest].
    simpl. split; [|exact Hrest].
    intros g Hg. apply gaps_walk_from in Hg.
    assert (Hr : proper (rs, re_)) by (apply Hp; now left).
    unfold proper in Hr. unfold precedes. simpl in *. solve_order.
Qed.

(** No gap is left once the cursor has reached the end of the request, or
    a range ahead starts at or before the cursor and reaches that end. *)
Lemma gaps_walk_none end_ sorted_r :
  PySort.ordered by_start sorted_r ->
  forall cursor,
    le end_ cursor \/
    (exists r, In r sorted_r /\ le (fst r) cursor /\ le end_ (snd r)) ->
    gaps_walk end_ cursor sorted_r = [].
Proof.
  induction sorted_r as [|[rs re_] rest IH]; intros Hord cursor Hc;
    cbn [gaps_walk].
  - destruct Hc as [Hc|(r & [] & _)].
    replace (ltb cursor end_) with false by (symmetry; solve_order).
    reflexivity.
  - destruct Hord as [Hrs Hord].
    assert (Hlater : forall r', In r' rest -> le rs (fst r')).
    { intros r' Hr'. specialize (Hrs r' Hr'). unfold by_start in Hrs.
      simpl in Hrs. solve_order. }
    destruct Hc as [Hc|(r & [<-|Hr] & Hr1 & Hr2)].
    + rewrite IH; auto; [|left; solve_order].
      destruct (ltb cursor rs) eqn:E1; [|reflexivity].
      replace (ltb cursor (min rs end_)) with false
        by (symmetry; solve_order).
      reflexivity.
    + simpl in Hr1, Hr2. rewrite IH; auto; [|left; solve_order].
      replace (ltb cursor rs) with false by (symmetry; solve_order).
      reflexivity.
    + specialize (Hlater r Hr).
      rewrite IH; auto.
      * replace (ltb cursor rs) with false by (symmetry; solve_order).
        reflexivity.
      * right. exists r. repeat split; auto. solve_order.
Qed.

Lemma detect_gaps_inside ranges start end_ :
  inside (start, end_) ranges -> detect_gaps ranges start end_ = [].
Proof.
  intros (r & Hr & H1 & H2). unfold detect_gaps.
  destruct ranges as [|r0 ranges]; [destruct Hr|].
  apply gaps_walk_none; [apply sort_by_start_ordered|].
  right. exists r. split; [now apply sort_by_start_In|]. now split.
Qed.

Lemma detect_gaps_backwards ranges start end_ :
  ranges <> [] -> le end_ start -> detect_gaps ranges start end_ = [].
Proof.
  intros Hne Hle. unfold detect_gaps.
  destruct ranges as [|r0 ranges]; [contradiction|].
  apply gaps_walk_none; [apply sort_by_start_ordered|]. now left.
Qed.

(** Merging keeps a window that is inside one range inside one range. *)
Lemma merge_walk_inside w rest :
  forall cur,
    (forall r, In r rest -> le (fst cur) (fst r)) ->
    PySort.ordered by_start rest ->
    inside w (cur :: rest) -> inside w (merge_walk cur rest).
Proof.
  induction rest as [|[s e] rest IH]; intros cur Hcur Hord Hin; [exact Hin|].
  cbn [merge_walk]. destruct Hord as [Hse Hord].
  assert (Hcs : le (fst cur) s) by (apply (Hcur (s, e)); now left).
  assert (Hs : forall r, In r rest -> le s (fst r)).
  { intros r Hr. specialize (Hse r Hr). unfold by_start in Hse.
    simpl in Hse. solve_order. }
  destruct (leb s (snd cur)) eqn:E.
  - apply IH; auto.
    + intros r Hr. apply (Hcur r). now right.
    + destruct Hin as (r & [<-|[<-|Hr]] & H1 & H2).
      * exists (fst cur, max (snd cur) e). split; [now left|].
        simpl. split; solve_order.
      * exists (fst cur, max (snd cur) e). split; [now left|].
        simpl in *. split; solve_order.
      * exists r. split; [now right|]. now split.
  - destruct Hin as (r & [Hr|Hr] & H1 & H2).
    + exists r. split; [now left|]. now split.
    + destruct (IH (s, e) Hs Hord) as (r' & Hr' & H').
      * exists r. now split.
      * exists r'. split; [now right|exact H'].
Qed.

Lemma merge_ranges_inside w ranges :
  inside w ranges -> inside w (_merge_ranges ranges).
Proof.
  intros (r & Hr & Hw). unfold _merge_ranges.
  destruct ranges as [|r0 ranges]; [destruct Hr|].
  pose proof (sort_by_start_ordered (r0 :: ranges)) as Hord.
  pose proof (fun r => sort_by_start_In r (r0 :: ranges)) as Hin.
  destruct (sort_by_start (r0 :: ranges)) as [|first rest].
  - exfalso. apply (Hin r0). now left.
  - destruct Hord as [Hfirst Hord].
    apply merge_walk_inside; auto.
    + intros r' Hr'. specialize (Hfirst r' Hr'). unfold by_start in Hfirst.
      solve_order.
    + exists r. split; [now apply Hin|exact Hw].
Qed.

(** After a range has been added and the list merged, the range and every
    window that was inside a range before are inside a range. *)
Lemma record_inside w ranges r :
  inside w ranges \/ w = r -> inside w (_merge_ranges (ranges ++ [r])).
Proof.
  intros Hw. apply merge_ranges_inside. destruct Hw as [(r' & Hr' & Hw)| ->].
  - exists r'. split; [apply in_or_app; now left|exact Hw].
  - exists r. split; [apply in_or_app; right; now left|].
    split; apply le_refl.
Qed.

End CoverageFacts.

(* ------------------------------------------------------------------ *)
(** ** Merges, recorded ranges and deletions as single steps *)

Module DurabilityFacts.
Import Py Ranges Cache Spec Notions Samples CacheFacts Durability.

Lemma set_get_same {V} k (v : V) d :
  get String.eqb k d = Some v -> set String.eqb k v d = d.
Proof.
  induction d as [|[k0 v0] d IH]; simpl; [discriminate|].
  destruct (String.eqb k k0) eqn:E.
  - intros E'. inversion E'. reflexivity.
  - intros E'. now rewrite IH.
Qed.

Lemma set_set {V} k (v1 v2 : V) d :
  set String.eqb k v2 (set String.eqb k v1 d) = set String.eqb k v2 d.
Proof.
  induction d as [|[k0 v0] d IH]; simpl.
  - now rewrite String.eqb_refl.
  - destruct (String.eqb k k0) eqn:E; simpl; rewrite E; [reflexivity|].
    now rewrite IH.
Qed.

Lemma store_eta st : mkStore (records st) (_fetched_ranges st) = st.
Proof. now destruct st. Qed.

(** [_load] puts the store it returns into the object and changes nothing
    else. *)
Lemma load_state name s :
  final_state (_load name s)
  = with_stores (set String.eqb name (loaded name s)) s.
Proof.
  rewrite loaded_eq. unfold _load, with_stores.
  destruct (get String.eqb name (_stores s)) eqn:E; simpl.
  - rewrite (set_get_same _ _ _ E). now destruct s.
  - reflexivity.
Qed.

Section Merge.
Context `{Runtime}.
Variables (name : string) (key_of : record -> value) (now : string).

Lemma merge_item_state item s st :
  get String.eqb name (_stores s) = Some st ->
  merge_item name key_of now item s
  = Ret (merged_item key_of now item)
        (with_stores
           (set String.eqb name
              (mkStore (upsert key_of now (records st) item)
                       (_fetched_ranges st))) s).
Proof.
  intros Hst. unfold merge_item, merged_item, upsert.
  destruct (truthy (key_of item)); simpl.
  - unfold bind, update_store. now rewrite Hst.
  - unfold ret, with_stores. rewrite store_eta.
    rewrite (set_get_same _ _ _ Hst). now destruct s.
Qed.

Lemma mapM_merge_item_state items :
  forall s st,
    get String.eqb name (_stores s) = Some st ->
    mapM (merge_item name key_of now) items s
    = Ret (map (merged_item key_of now) items)
          (with_stores
             (set String.eqb name
                (mkStore (merged_records key_of now items (records st))
                         (_fetched_ranges st))) s).
Proof.
  induction items as [|item items IH]; intros s st Hst.
  - simpl. unfold ret, with_stores. rewrite store_eta.
    rewrite (set_get_same _ _ _ Hst). now destruct s.
  - cbn [mapM map merged_records fold_left]. unfold bind at 1.
    rewrite (merge_item_state item s st Hst).
    unfold bind at 1.
    erewrite IH by (simpl; apply get_set_same).
    unfold ret, with_stores. simpl. rewrite set_set. reflexivity.
Qed.
End Merge.

(** A merge, as one step: the items come back stamped, and the store with
    the items inserted replaces the old one in the object and on disk. *)
Lemma merge_into_commit `{Runtime} name key_of items s :
  let now := isoformat (clock (clock_reads s)) in
  merge_into name key_of items s
  = Ret (map (merged_item key_of now) items)
        (commit name
           (mkStore (merged_records key_of now items
                       (records (loaded name s)))
                    (_fetched_ranges (loaded name s)))
           (tick s)).
Proof.
  intros now. unfold merge_into. unfold bind at 1. rewrite load_Ret.
  rewrite load_state.
  unfold bind at 1. unfold now_isoformat, bind, read_clock, ret.
  cbn [clock_reads with_stores].
  erewrite mapM_merge_item_state by (simpl; apply get_set_same).
  unfold _save, with_disk, with_stores, commit, tick. simpl.
  rewrite get_set_same, set_set. reflexivity.
Qed.

(** Recording a fetched range, as one step. *)
Lemma record_commit name start end_ s :
  _record_fetched_range name start end_ s
  = Ret tt
      (commit name
         (mkStore (records (loaded name s))
                  (_merge_ranges
                     (_fetched_ranges (loaded name s) ++ [(start, end_)])))
         s).
Proof.
  unfold _record_fetched_range. unfold bind at 1. rewrite load_Ret.
  rewrite load_state. unfold bind, update_store, with_stores. simpl.
  rewrite get_set_same. unfold _save, with_disk, commit. simpl.
  rewrite get_set_same, set_set. reflexivity.
Qed.

Lemma loaded_commit n name st s :
  loaded n (commit name st s) = if String.eqb n name then st else loaded n s.
Proof.
  rewrite !loaded_eq. unfold commit. simpl. rewrite !get_set.
  destruct (String.eqb n name); reflexivity.
Qed.

Lemma loaded_tick n s : loaded n (tick s) = loaded n s.
Proof. now rewrite !loaded_eq. Qed.

(** The deletions of [clear], as one update of the store. *)
Lemma delete_keys_state name ks :
  forall s st,
    get String.eqb name (_stores s) = Some st ->
    foldM (fun _ key =>
             update_store name
               (fun st => mkStore (del eqb key (records st))
                                  (_fetched_ranges st)))
          tt ks s
    = Ret tt
        (with_stores
           (set String.eqb name
              (mkStore (fold_left (fun d k => del eqb k d) ks (records st))
                       (_fetched_ranges st))) s).
Proof.
  induction ks as [|k ks IH]; intros s st Hst.
  - simpl. unfold ret, with_stores. rewrite store_eta.
    rewrite (set_get_same _ _ _ Hst). now destruct s.
  - cbn [foldM fold_left]. unfold bind, update_store. rewrite Hst.
    erewrite IH by (simpl; apply get_set_same).
    unfold with_stores. simpl. rewrite set_set. reflexivity.
Qed.

(** Testing the records against the cutoff changes nothing, whether it
    returns or raises. *)
Lemma filter_stale_final `{Runtime} name before dt (l : list (value * record)) s :
  final_state (filterM (fun kr => stale name before dt (snd kr)) l s) = s.
Proof.
  symmetry.
  apply (steps_filterM eq (@eq_refl state) (@eq_trans state)).
  intros a. apply (steps_stale eq (@eq_refl state) (@eq_trans state)).
Qed.

(** One pass of [clear(before)] either stops at a record whose date cannot
    be read, having changed nothing, or replaces the store by one with
    some records deleted and the same fetched ranges. *)
Lemma clear_store_final `{Runtime} before dt name s :
  let st := loaded name s in
  (exists e,
      clear_store before dt name s = Raise e (final_state (_load name s))) \/
  exists doomed,
    filterM (fun kr => stale name before dt (snd kr)) (records st)
      (final_state (_load name s))
    = Ret doomed (final_state (_load name s)) /\
    clear_store before dt name s
    = Ret tt
        (commit name
           (mkStore (fold_left (fun d k => del eqb k d) (keys doomed)
                       (records st))
                    (_fetched_ranges st)) s).
Proof.
  intros st.
  pose proof (load_Ret name s) as Hl. fold st in Hl.
  pose proof (stores_load name s) as Hst. fold st in Hst.
  pose proof (load_state name s) as Hs1. fold st in Hs1.
  set (s1 := final_state (_load name s)) in *.
  pose proof (filter_stale_final name before dt (records st) s1) as Hf.
  unfold clear_store, bind. rewrite Hl.
  destruct (filterM _ (records st) s1) as [doomed s2|e s2]; simpl in Hf;
    subst s2.
  - right. exists doomed. split; [reflexivity|].
    rewrite (delete_keys_state name (keys doomed) s1 st Hst).
    rewrite Hs1. unfold _save, with_disk, with_stores, commit. simpl.
    rewrite get_set_same, set_set. reflexivity.
  - left. now exists e.
Qed.

End DurabilityFacts.

(* ------------------------------------------------------------------ *)
(** ** Relations that every whole step respects *)

Module UnitsFacts.
Import Py Ranges Cache Spec Notions Samples CacheFacts Durability.

(** *** Relations that every merge and every recorded range respect *)

Section Units.
Context `{Runtime}.
Variable T : state -> state -> Prop.
Hypothesis T_refl : forall s, T s s.
Hypothesis T_trans : forall a b c, T a b -> T b c -> T a c.
Hypothesis T_load : forall name, steps T (_load name).
Hypothesis T_clock : steps T read_clock.
Hypothesis T_print : forall l, steps T (print l).
Hypothesis T_call : forall answer, steps T (call answer).

(** The stores that may receive records, and those that may have a
    fetched range recorded. *)
Variables merged recorded : string -> Prop.
Hypothesis T_merge :
  forall name key_of items,
    merged name -> steps T (merge_into name key_of items).
Hypothesis T_record :
  forall name a b, recorded name -> steps T (_record_fetched_range name a b).

Ltac unit_step :=
  first
    [ apply (steps_ret T T_refl)
    | apply (steps_raise T T_refl)
    | assumption
    | apply T_load | apply T_print | apply T_call
    | apply (steps_today T T_clock)
    | apply (steps_parse_date T T_refl)
    | apply (steps_add_days T T_refl)
    | apply (steps_sort_desc T T_refl T_trans)
    | apply (steps_sort_plans T T_refl T_trans)
    | apply (steps_detect_gaps T T_refl T_trans T_load)
    | apply (steps_get_cached_activities T T_refl T_trans T_load)
    | apply (steps_get_cached_plans T T_refl T_trans T_load)
    | apply (steps_get_cached_feedback T T_refl T_trans T_load)
    | apply T_merge; assumption
    | apply T_record; assumption
    | apply (steps_bind T T_trans); [|intros]
    | apply (steps_try T T_trans)
    | apply (steps_foldM T T_refl T_trans); intros
    | match goal with
      | |- steps T (match ?x with _ => _ end) => destruct x
      | |- steps T (let (_, _) := ?x in _) => destruct x
      end ].

Lemma units_fetch_activities api a b limit no_cache :
  merged "activities" -> recorded "activities" ->
  steps T (fetch_activities api a b limit no_cache).
Proof.
  intros Hm Hr.
  unfold fetch_activities, gather_activities, fill_gap_activities,
    _merge_activities.
  repeat unit_step.
Qed.

Lemma units_fetch_plans api a g no_cache :
  merged "plans" -> steps T (fetch_plans api a g no_cache).
Proof.
  intros Hm. unfold fetch_plans, or_today, _merge_plans.
  repeat unit_step.
Qed.

Lemma units_fetch_feedback api a b no_cache :
  merged "feedback" -> recorded "feedback" ->
  steps T (fetch_feedback api a b no_cache).
Proof.
  intros Hm Hr.
  unfold fetch_feedback, gather_feedback, fill_gap_feedback, _merge_feedback.
  repeat unit_step.
Qed.

Lemma units_after_fetch months k items : steps T (after_fetch months k items).
Proof. unfold after_fetch. repeat unit_step. Qed.

Lemma units_fetch_chunk api endpoint months a b k :
  merged endpoint -> (endpoint <> "plans" -> recorded endpoint) ->
  steps T (fetch_chunk api endpoint months a b k).
Proof.
  intros Hm Hr.
  unfold fetch_chunk, _merge_activities, _merge_feedback, _merge_plans.
  apply (steps_try T T_trans); [|repeat unit_step].
  destruct (String.eqb endpoint "activities") eqn:Ea.
  { apply String.eqb_eq in Ea. subst endpoint.
    specialize (Hr ltac:(discriminate)).
    repeat first [apply units_after_fetch | unit_step]. }
  destruct (String.eqb endpoint "feedback") eqn:Ef.
  { apply String.eqb_eq in Ef. subst endpoint.
    specialize (Hr ltac:(discriminate)).
    repeat first [apply units_after_fetch | unit_step]. }
  destruct (String.eqb endpoint "plans") eqn:Ep.
  { apply String.eqb_eq in Ep. subst endpoint. clear Hr.
    repeat first [apply units_after_fetch | unit_step]. }
  repeat unit_step.
Qed.

Lemma units_backfill_chunk api endpoint months today_dt chunk_days i k :
  merged endpoint -> (endpoint <> "plans" -> recorded endpoint) ->
  steps T (backfill_chunk api endpoint months today_dt chunk_days i k).
Proof.
  intros Hm Hr. unfold backfill_chunk.
  repeat first [apply units_fetch_chunk; assumption | unit_step].
Qed.

Lemma units_backfill_loop api endpoint months today_dt chunk_days n :
  merged endpoint -> (endpoint <> "plans" -> recorded endpoint) ->
  forall i k,
    steps T (backfill_loop api endpoint months today_dt chunk_days n i k).
Proof.
  intros Hm Hr. induction n as [|n IH]; intros i k; simpl.
  - apply (steps_ret T T_refl).
  - apply (steps_bind T T_trans); [now apply units_backfill_chunk|].
    intros [k'| |]; [apply IH|apply (steps_ret T T_refl)..].
Qed.

Lemma units_backfill api endpoint months :
  merged endpoint -> (endpoint <> "plans" -> recorded endpoint) ->
  steps T (backfill api endpoint months).
Proof.
  intros Hm Hr. unfold backfill.
  repeat first [apply units_backfill_loop; assumption | unit_step].
Qed.

(** Clearing with a cutoff, and every operation but [clear()]. *)
Hypothesis T_clear_store :
  forall before dt name, steps T (clear_store before dt name).

Lemma units_clear before : steps T (clear (Some before)).
Proof. unfold clear. repeat first [apply T_clear_store | unit_step]. Qed.

Hypothesis all_merged : forall name, merged name.
Hypothesis all_recorded : forall name, recorded name.

Lemma units_perform op s : wipes op = false -> T s (perform s op).
Proof.
  destruct op as [items|items|items|name a b|api a b l nc|api a g nc
                 |api a b nc|api e m|[before|]]; simpl; intros Hw;
    try discriminate.
  - apply T_merge, all_merged.
  - apply T_merge, all_merged.
  - apply T_merge, all_merged.
  - apply T_record, all_recorded.
  - apply units_fetch_activities; auto.
  - apply units_fetch_plans; auto.
  - apply units_fetch_feedback; auto.
  - apply units_backfill; auto.
  - apply units_clear.
Qed.

Lemma units_run ops :
  Forall (fun op => wipes op = false) ops -> forall s, T s (run ops s).
Proof.
  induction 1 as [|op ops Hop _ IH]; intros s; simpl; [apply T_refl|].
  eapply T_trans; [apply units_perform; exact Hop|apply IH].
Qed.
End Units.

End UnitsFacts.

(* ------------------------------------------------------------------ *)
(** ** Relations between the stores before and after *)

Module RelatedFacts.
Import Py Ranges Cache Spec Notions Samples CacheFacts.
Import Durability DurabilityFacts UnitsFacts.

(** *** Relations between a store before and after an operation *)

Section Related.
Context `{Runtime}.
Variable R : string -> store -> store -> Prop.
Hypothesis R_refl : forall name st, R name st st.
Hypothesis R_trans :
  forall name a b c, R name a b -> R name b c -> R name a c.

Lemma related_refl s : stores_related R s s.
Proof. intros name. apply R_refl. Qed.

Lemma related_trans a b c :
  stores_related R a b -> stores_related R b c -> stores_related R a c.
Proof. intros Hab Hbc name. eapply R_trans; [apply Hab|apply Hbc]. Qed.

(** What leaves every store as it is respects the relation. *)
Lemma related_same {A} (m : M A) :
  (forall s name, loaded name (final_state (m s)) = loaded name s) ->
  steps (stores_related R) m.
Proof. intros Hm s name. rewrite Hm. apply R_refl. Qed.

Lemma related_load name : steps (stores_related R) (_load name).
Proof. apply related_same. intros s n. apply loaded_load. Qed.

Lemma related_clock : steps (stores_related R) read_clock.
Proof. apply related_same. intros s n. now rewrite !loaded_eq. Qed.

Lemma related_print l : steps (stores_related R) (print l).
Proof. apply related_same. intros s n. now rewrite !loaded_eq. Qed.

Lemma related_call answer : steps (stores_related R) (call answer).
Proof.
  apply related_same. intros s n. unfold call.
  destruct (answer (api_calls s)); now rewrite !loaded_eq.
Qed.

Variables merged recorded : string -> Prop.
Hypothesis R_merge :
  forall name key_of now items st,
    merged name ->
    R name st (mkStore (merged_records key_of now items (records st))
                       (_fetched_ranges st)).
Hypothesis R_record :
  forall name st r,
    recorded name ->
    R name st (mkStore (records st) (_merge_ranges (_fetched_ranges st ++ [r]))).

Lemma related_merge name key_of items :
  merged name -> steps (stores_related R) (merge_into name key_of items).
Proof.
  intros Hm s n. rewrite merge_into_commit. simpl.
  rewrite loaded_commit, loaded_tick.
  destruct (String.eqb n name) eqn:E; [|apply R_refl].
  apply String.eqb_eq in E. subst n. now apply R_merge.
Qed.

Lemma related_record name a b :
  recorded name ->
  steps (stores_related R) (_record_fetched_range name a b).
Proof.
  intros Hr s n. rewrite record_commit. simpl. rewrite loaded_commit.
  destruct (String.eqb n name) eqn:E; [|apply R_refl].
  apply String.eqb_eq in E. subst n. now apply R_record.
Qed.

Lemma related_fetch_activities api a b limit no_cache :
  merged "activities" -> recorded "activities" ->
  steps (stores_related R) (fetch_activities api a b limit no_cache).
Proof.
  apply (units_fetch_activities _ related_refl related_trans related_load
           related_clock related_print related_call merged recorded
           related_merge related_record).
Qed.

Lemma related_fetch_plans api a g no_cache :
  merged "plans" ->
  steps (stores_related R) (fetch_plans api a g no_cache).
Proof.
  apply (units_fetch_plans _ related_refl related_trans related_load
           related_clock related_print related_call merged related_merge).
Qed.

Lemma related_fetch_feedback api a b no_cache :
  merged "feedback" -> recorded "feedback" ->
  steps (stores_related R) (fetch_feedback api a b no_cache).
Proof.
  apply (units_fetch_feedback _ related_refl related_trans related_load
           related_clock related_print related_call merged recorded
           related_merge related_record).
Qed.

Lemma related_backfill api endpoint months :
  merged endpoint -> (endpoint <> "plans" -> recorded endpoint) ->
  steps (stores_related R) (backfill api endpoint months).
Proof.
  apply (units_backfill _ related_refl related_trans related_load
           related_clock related_print related_call merged recorded
           related_merge related_record).
Qed.

Hypothesis all_merged : forall name, merged name.
Hypothesis all_recorded : forall name, recorded name.

(** Every operation but [clear] respects the relation. *)
Lemma related_perform_keep op s :
  deletes op = false -> stores_related R s (perform s op).
Proof.
  destruct op as [items|items|items|name a b|api a b l nc|api a g nc
                 |api a b nc|api e m|before]; simpl; intros Hd;
    try discriminate.
  - apply related_merge, all_merged.
  - apply related_merge, all_merged.
  - apply related_merge, all_merged.
  - apply related_record, all_recorded.
  - apply related_fetch_activities; auto.
  - apply related_fetch_plans; auto.
  - apply related_fetch_feedback; auto.
  - apply related_backfill; auto.
Qed.

Lemma related_run_keep ops :
  Forall (fun op => deletes op = false) ops ->
  forall s, stores_related R s (run ops s).
Proof.
  induction 1 as [|op ops Hop _ IH]; intros s; simpl; [apply related_refl|].
  eapply related_trans; [apply related_perform_keep; exact Hop|apply IH].
Qed.

(** Deleting records, as [clear(before)] does. *)
Hypothesis R_delete :
  forall name st ks,
    R name st (mkStore (fold_left (fun d k => del eqb k d) ks (records st))
                       (_fetched_ranges st)).

Lemma related_clear_store before dt name :
  steps (stores_related R) (clear_store before dt name).
Proof.
  intros s n.
  destruct (clear_store_final before dt name s)
    as [(e & E)|(doomed & _ & E)]; rewrite E; simpl.
  - rewrite loaded_load. apply R_refl.
  - rewrite loaded_commit.
    destruct (String.eqb n name) eqn:En; [|apply R_refl].
    apply String.eqb_eq in En. subst n. apply R_delete.
Qed.

(** Every sequence of operations without [clear()] respects the
    relation. *)
Lemma related_run ops :
  Forall (fun op => wipes op = false) ops ->
  forall s, stores_related R s (run ops s).
Proof.
  apply (units_run _ related_refl related_trans related_load related_clock
           related_print related_call merged recorded related_merge
           related_record related_clear_store all_merged all_recorded).
Qed.
End Related.

End RelatedFacts.

(* ------------------------------------------------------------------ *)
(** ** What has been fetched *)

Module CoverageStateFacts.
Import Py Ranges Cache Spec Notions Samples CacheFacts.
Import Coverage CoverageFacts Durability DurabilityFacts RelatedFacts.

Lemma detect_gaps_Ret name start end_ s :
  _detect_gaps name start end_ s
  = Ret (detect_gaps (_fetched_ranges (loaded name s)) start end_)
        (final_state (_load name s)).
Proof. unfold _detect_gaps, bind. now rewrite load_Ret. Qed.

Lemma detect_gaps_covered name start end_ s :
  inside (start, end_) (_fetched_ranges (loaded name s)) ->
  _detect_gaps name start end_ s = Ret [] (final_state (_load name s)).
Proof.
  intros Hin. rewrite detect_gaps_Ret. now rewrite detect_gaps_inside.
Qed.

(** X1. The interval merger neither loses nor invents coverage: a date
    lies in one of the merged ranges exactly when it lies in one of the
    ranges given. *)
Theorem merge_ranges_same_coverage (ranges : list range) (x : string) :
  covered_by (_merge_ranges ranges) x <-> covered_by ranges x.
Proof. apply merge_ranges_coverage. Qed.

(** X2. Every gap that [_detect_gaps] returns lies within the request: it
    starts at or after [start] and ends at or before [end_], whatever the
    fetched ranges are. When no fetched range ends before it starts, the
    gaps come in ascending order, each ending no later than the next one
    starts. *)
Theorem gaps_within_request (name start end_ : string) (s : state) :
  exists gaps s',
    _detect_gaps name start end_ s = Ret gaps s' /\
    (forall g, In g gaps ->
       StrOrd.le start (fst g) /\ StrOrd.le (snd g) end_) /\
    ((forall r, In r (_fetched_ranges (loaded name s)) -> proper r) ->
     PySort.ordered precedes gaps).
Proof.
  rewrite detect_gaps_Ret. eexists. eexists. split; [reflexivity|].
  unfold detect_gaps.
  destruct (_fetched_ranges (loaded name s)) as [|r0 ranges] eqn:E.
  - split.
    + intros g [<-|[]]. split; apply StrOrdFacts.le_refl.
    + intros _. simpl. split; [intros y []|exact I].
  - split.
    + intros g Hg. split.
      * eapply RangesFacts.gaps_walk_from; eauto.
      * eapply gaps_walk_until; eauto.
    + intros Hp. apply gaps_walk_ascending.
      intros r Hr. apply Hp.
      exact (proj1 (RangesFacts.sort_by_start_In r _) Hr).
Qed.

Lemma gaps_within_request_witness :
  exists gaps s',
    _detect_gaps "activities" "2023-12-20" "2024-01-20" one_range_fetched
    = Ret gaps s' /\
    (forall g, In g gaps ->
       StrOrd.le "2023-12-20" (fst g) /\ StrOrd.le (snd g) "2024-01-20") /\
    PySort.ordered precedes gaps.
Proof.
  destruct (gaps_within_request "activities" "2023-12-20" "2024-01-20"
              one_range_fetched) as (gaps & s' & E & Hw & Ha).
  exists gaps, s'. split; [exact E|]. split; [exact Hw|].
  apply Ha. intros r [<-|[]]. reflexivity.
Defined.

(** X3. A request that lies inside one fetched range has no gap:
    [_detect_gaps] returns the empty list, and the only effect is that the
    store is loaded. *)
Theorem no_gap_inside_fetched_range (name start end_ : string) (s : state) :
  inside (start, end_) (_fetched_ranges (loaded name s)) ->
  _detect_gaps name start end_ s = Ret [] (final_state (_load name s)).
Proof. apply detect_gaps_covered. Qed.

Lemma no_gap_inside_fetched_range_witness :
  inside ("2024-01-02", "2024-01-09")
    (_fetched_ranges (loaded "activities" one_range_fetched)) /\
  _detect_gaps "activities" "2024-01-02" "2024-01-09" one_range_fetched
  = Ret [] (final_state (_load "activities" one_range_fetched)).
Proof.
  assert (Hin : inside ("2024-01-02", "2024-01-09")
                  (_fetched_ranges (loaded "activities" one_range_fetched))).
  { exists ("2024-01-01", "2024-01-10"). split; [now left|].
    split; reflexivity. }
  split; [exact Hin|].
  exact (no_gap_inside_fetched_range "activities" "2024-01-02" "2024-01-09"
           one_range_fetched Hin).
Defined.

(** A window inside a fetched range stays inside one, whatever is
    merged, recorded, fetched, backfilled or cleared with a cutoff. *)
Lemma keeps_inside_run `{Runtime} w ops s name :
  Forall (fun op => wipes op = false) ops ->
  inside w (_fetched_ranges (loaded name s)) ->
  inside w (_fetched_ranges (loaded name (run ops s))).
Proof.
  intros Hops.
  refine (related_run (fun _ => keeps_inside w) _ _
            (fun _ => True) (fun _ => True) _ _ _ _ _ ops Hops s name);
    unfold keeps_inside; auto.
  intros n st r _ Hin. apply record_inside. now left.
Qed.

(** X4. Once a window has been recorded as fetched it stays fetched:
    after any sequence of merges, recorded ranges, fetches, backfills and
    clears with a cutoff (anything but [clear()] without a cutoff) the window
    still lies inside one fetched range of the store, and [_detect_gaps]
    reports no gap for it. *)
Theorem fetched_window_stays_fetched `{Runtime} (name start end_ : string)
  (ops : list operation) (s : state) :
  Forall (fun op => wipes op = false) ops ->
  let s1 := run ops (final_state (_record_fetched_range name start end_ s)) in
  inside (start, end_) (_fetched_ranges (loaded name s1)) /\
  _detect_gaps name start end_ s1 = Ret [] (final_state (_load name s1)).
Proof.
  intros Hops s1.
  assert (Hin : inside (start, end_) (_fetched_ranges (loaded name s1))).
  { apply keeps_inside_run; [exact Hops|].
    rewrite record_commit. simpl. rewrite loaded_commit, String.eqb_refl.
    apply record_inside. now right. }
  split; [exact Hin|].
  now apply detect_gaps_covered.
Qed.

Lemma fetched_window_stays_fetched_witness :
  let s1 :=
    run (H := SampleRuntime.march_2024) sample_ops
      (final_state
         (_record_fetched_range "activities" "2024-02-01" "2024-02-10"
            fresh)) in
  Forall (fun op => wipes op = false) sample_ops /\
  inside ("2024-02-01", "2024-02-10")
    (_fetched_ranges (loaded "activities" s1)) /\
  _detect_gaps "activities" "2024-02-01" "2024-02-10" s1
  = Ret [] (final_state (_load "activities" s1)).
Proof.
  intros s1.
  assert (Hops : Forall (fun op => wipes op = false) sample_ops)
    by (repeat constructor).
  split; [exact Hops|].
  exact (fetched_window_stays_fetched (H := SampleRuntime.march_2024)
           "activities" "2024-02-01" "2024-02-10" sample_ops fresh Hops).
Defined.

(** X5. Backfill skips a chunk of activities or feedback that lies inside
    a fetched range: the [try] block of the loop body makes no call to the
    collaborator, prints the "(cached)" line and nothing else, goes on to the
    next chunk with the streak of empty chunks as it was, and leaves every
    store and every document unchanged. *)
Theorem covered_chunk_is_skipped `{Runtime} (api : Api)
  (endpoint : string) (months : option Z) (chunk_start chunk_end : string)
  (empty_streak : Z) (s : state) :
  endpoint = "activities" \/ endpoint = "feedback" ->
  inside (chunk_start, chunk_end) (_fetched_ranges (loaded endpoint s)) ->
  exists s',
    fetch_chunk api endpoint months chunk_start chunk_end empty_streak s
    = Ret (Next empty_streak) s' /\
    api_calls s' = api_calls s /\
    stderr s' = (stderr s ++ [LogCached])%list /\
    disk s' = disk s /\
    forall name, loaded name s' = loaded name s.
Proof.
  intros Hendpoint Hin.
  pose proof (detect_gaps_covered endpoint chunk_start chunk_end s Hin)
    as Hgaps.
  assert (Hl : forall name,
             loaded name (final_state (_load endpoint s)) = loaded name s)
    by (intros name; apply loaded_load).
  assert (Hs : final_state (_load endpoint s)
               = with_stores (set String.eqb endpoint (loaded endpoint s)) s)
    by apply load_state.
  set (s1 := final_state (_load endpoint s)) in *.
  exists (final_state (print LogCached s1)).
  split.
  - destruct Hendpoint as [-> | ->]; unfold fetch_chunk; simpl;
      unfold try_request, bind; rewrite Hgaps; reflexivity.
  - simpl. rewrite Hs. simpl. repeat split.
    intros name. rewrite <- (Hl name), Hs. now rewrite !loaded_eq.
Qed.

Lemma covered_chunk_is_skipped_witness :
  exists s',
    fetch_chunk (H := SampleRuntime.march_2024) api_down "activities" None
      "2024-01-02" "2024-01-09" 3 one_range_fetched
    = Ret (Next 3) s' /\
    api_calls s' = api_calls one_range_fetched /\
    stderr s' = (stderr one_range_fetched ++ [LogCached])%list /\
    disk s' = disk one_range_fetched /\
    forall name, loaded name s' = loaded name one_range_fetched.
Proof.
  apply (covered_chunk_is_skipped (H := SampleRuntime.march_2024)).
  - now left.
  - exists ("2024-01-01", "2024-01-10"). split; [now left|].
    split; reflexivity.
Defined.

End CoverageStateFacts.

(* ------------------------------------------------------------------ *)
(** ** Requests served from the cache alone *)

Module OfflineFacts.
Import Py Ranges Cache Spec Notions Samples CacheFacts.
Import Coverage CoverageFacts Durability DurabilityFacts RelatedFacts.
Import CoverageStateFacts.

Lemma served_refl s : served_from_cache s s.
Proof. now repeat split. Qed.

Lemma served_trans a b c :
  served_from_cache a b -> served_from_cache b c -> served_from_cache a c.
Proof.
  intros (H1 & H2 & H3 & H4) (H1' & H2' & H3' & H4').
  repeat split; try congruence.
Qed.

Lemma served_load name : steps served_from_cache (_load name).
Proof.
  intros s. rewrite load_state. repeat split.
  intros n. rewrite <- (loaded_load name n s), load_state. reflexivity.
Qed.

Lemma served_same s s' :
  _stores s' = _stores s -> disk s' = disk s ->
  api_calls s' = api_calls s -> stderr s' = stderr s ->
  served_from_cache s s'.
Proof.
  intros Hst Hd Ha He. repeat split; auto.
  intros name. now rewrite !loaded_eq, Hst, Hd.
Qed.

Lemma served_clock `{Runtime} : steps served_from_cache read_clock.
Proof. intros s. now apply served_same. Qed.

Lemma today_Ret `{Runtime} s :
  _today s = Ret (strftime (clock (clock_reads s))) (tick s).
Proof. reflexivity. Qed.

Lemma served_tick s : served_from_cache s (tick s).
Proof. now apply served_same. Qed.

Ltac served_leaf :=
  first
    [ apply (steps_get_cached_activities _ served_refl served_trans served_load)
    | apply (steps_get_cached_feedback _ served_refl served_trans served_load)
    | apply (steps_detect_gaps _ served_refl served_trans served_load)
    | apply (steps_sort_desc _ served_refl served_trans)
    | apply (steps_today _ served_clock)
    | apply (steps_ret _ served_refl) ].

(** The frozen portion of a fetch when the requested window is inside a
    fetched range: the cached records, and no call. *)
Lemma frozen_portion_offline `{Runtime} name (get_cached : M (list record))
  (fill : list record -> range -> M (list record)) start end_ :
  steps served_from_cache get_cached ->
  forall s,
    inside (start, end_) (_fetched_ranges (loaded name s)) ->
    served_from_cache s
      (final_state
         ((cached <- get_cached ;;
           gaps <- _detect_gaps name start end_ ;;
           foldM fill cached gaps) s)).
Proof.
  intros Hc s Hin. rewrite final_bind. specialize (Hc s).
  destruct (get_cached s) as [cached s1|e s1]; simpl in Hc; [|exact Hc].
  apply served_trans with s1; [exact Hc|].
  rewrite final_bind.
  rewrite detect_gaps_covered.
  - simpl. apply served_load.
  - destruct Hc as (_ & _ & _ & Hl). now rewrite Hl.
Qed.

Section Offline.
Context `{Runtime}.
Variables (start end_ : string) (today_dt : Z).
Variable s : state.
Let today := strftime (clock (clock_reads s)).
Let boundary_dt := today_dt - 7 * 86400.
Hypothesis today_parses : strptime today = Some today_dt.
Hypothesis boundary_in_range :
  datetime_min <= boundary_dt <= datetime_max.
Hypothesis start_frozen : StrOrd.lt start (strftime boundary_dt).
Hypothesis end_frozen : StrOrd.lt end_ (strftime boundary_dt).

Lemma boundary_Ret s0 :
  add_days today_dt (- FROZEN_DAYS) s0 = Ret boundary_dt s0.
Proof.
  unfold add_days, FROZEN_DAYS.
  replace (today_dt + 86400 * - (7)) with boundary_dt
    by (subst boundary_dt; lia).
  replace ((datetime_min <=? boundary_dt) && (boundary_dt <=? datetime_max))
    with true by (symmetry; apply andb_true_iff; lia).
  reflexivity.
Qed.

Lemma frozen_tests :
  StrOrd.ltb start (strftime boundary_dt) = true /\
  StrOrd.min end_ (strftime boundary_dt) = end_ /\
  StrOrd.leb (StrOrd.max start (strftime boundary_dt)) end_ = false.
Proof.
  clear today_parses boundary_in_range.
  repeat split; StrOrdFacts.solve_order.
Qed.

Lemma gather_activities_offline api s0 :
  inside (start, end_) (_fetched_ranges (loaded "activities" s0)) ->
  served_from_cache s0
    (final_state (gather_activities api today start end_ s0)).
Proof.
  intros Hin. unfold gather_activities.
  rewrite final_bind. unfold _parse_date. rewrite today_parses. unfold ret.
  rewrite final_bind, boundary_Ret.
  destruct frozen_tests as (-> & -> & Hfresh).
  rewrite final_bind.
  pose proof (frozen_portion_offline "activities"
                (_get_cached_activities start end_)
                (fill_gap_activities api) start end_
                ltac:(served_leaf) s0 Hin) as Hf.
  destruct ((cached <- _get_cached_activities start end_ ;; _) s0)
    as [all_records s1|e s1]; simpl in Hf; [|exact Hf].
  rewrite Hfresh. exact Hf.
Qed.

Lemma gather_feedback_offline api s0 :
  clock_reads s0 = clock_reads s ->
  inside (start, end_) (_fetched_ranges (loaded "feedback" s0)) ->
  served_from_cache s0 (final_state (gather_feedback api start end_ s0)).
Proof.
  intros Hclock Hin. unfold gather_feedback.
  rewrite final_bind, today_Ret, Hclock. fold today.
  set (s1 := tick s0).
  assert (H01 : served_from_cache s0 s1) by apply served_tick.
  apply served_trans with s1; [exact H01|].
  rewrite final_bind. unfold _parse_date. rewrite today_parses. unfold ret.
  rewrite final_bind, boundary_Ret.
  destruct frozen_tests as (-> & -> & Hfresh).
  rewrite final_bind.
  assert (Hin1 : inside (start, end_) (_fetched_ranges (loaded "feedback" s1)))
    by (destruct H01 as (_ & _ & _ & Hl); now rewrite Hl).
  pose proof (frozen_portion_offline "feedback"
                (_get_cached_feedback start end_)
                (fill_gap_feedback api) start end_
                ltac:(served_leaf) s1 Hin1) as Hf.
  destruct ((cached <- _get_cached_feedback start end_ ;; _) s1)
    as [all_records s2|e s2]; simpl in Hf; [|exact Hf].
  rewrite Hfresh. exact Hf.
Qed.

Lemma fetch_activities_offline api limit :
  inside (start, end_) (_fetched_ranges (loaded "activities" s)) ->
  served_from_cache s
    (final_state (fetch_activities api (Some start) (Some end_) limit false s)).
Proof.
  intros Hin. unfold fetch_activities.
  rewrite final_bind, today_Ret. fold today.
  set (s1 := tick s).
  assert (H01 : served_from_cache s s1) by apply served_tick.
  apply served_trans with s1; [exact H01|].
  rewrite final_bind. unfold ret at 1. cbn [negb].
  rewrite final_bind.
  assert (Hin1 : inside (start, end_)
                   (_fetched_ranges (loaded "activities" s1)))
    by (destruct H01 as (_ & _ & _ & Hl); now rewrite Hl).
  pose proof (gather_activities_offline api s1 Hin1) as Hg.
  destruct (gather_activities api today start end_ s1)
    as [all_records s2|e s2]; simpl in Hg; [|exact Hg].
  apply served_trans with s2; [exact Hg|].
  apply (steps_bind _ served_trans); [served_leaf|].
  intros deduped. served_leaf.
Qed.

Lemma fetch_feedback_offline api :
  inside (start, end_) (_fetched_ranges (loaded "feedback" s)) ->
  served_from_cache s
    (final_state (fetch_feedback api (Some start) (Some end_) false s)).
Proof.
  intros Hin. unfold fetch_feedback.
  destruct (missing (Some start) || missing (Some end_));
    [apply served_refl|].
  rewrite final_bind.
  pose proof (gather_feedback_offline api s eq_refl Hin) as Hg.
  destruct (gather_feedback api start end_ s)
    as [all_records s2|e s2]; simpl in Hg; [|exact Hg].
  apply served_trans with s2; [exact Hg|].
  apply (steps_bind _ served_trans); [served_leaf|].
  intros deduped. served_leaf.
Qed.
End Offline.

(** X6. A request for activities or feedback that is wholly older than
    the frozen boundary (today minus 7 days) and lies inside one fetched
    range is served from the cache alone: the cache-aware fetch makes no
    call to the collaborator, prints nothing, and leaves every store and
    every document as it was, whether it returns or raises. *)
Theorem frozen_fetched_window_is_served_offline `{Runtime} (api : Api)
  (start end_ : string) (limit : option Z) (today_dt : Z) (s : state) :
  let today := strftime (clock (clock_reads s)) in
  let boundary_dt := today_dt - 7 * 86400 in
  strptime today = Some today_dt ->
  datetime_min <= boundary_dt <= datetime_max ->
  StrOrd.lt start (strftime boundary_dt) ->
  StrOrd.lt end_ (strftime boundary_dt) ->
  (inside (start, end_) (_fetched_ranges (loaded "activities" s)) ->
   served_from_cache s
     (final_state
        (fetch_activities api (Some start) (Some end_) limit false s))) /\
  (inside (start, end_) (_fetched_ranges (loaded "feedback" s)) ->
   served_from_cache s
     (final_state (fetch_feedback api (Some start) (Some end_) false s))).
Proof.
  intros today boundary_dt Hparse Hrange Hstart Hend. split; intros Hin.
  - now apply (fetch_activities_offline start end_ today_dt s).
  - now apply (fetch_feedback_offline start end_ today_dt s).
Qed.

Lemma frozen_fetched_window_is_served_offline_witness :
  served_from_cache one_range_fetched
    (final_state
       (fetch_activities (H := SampleRuntime.march_2024) api_down
          (Some "2024-01-02") (Some "2024-01-09") (Some 10) false
          one_range_fetched)).
Proof.
  apply (frozen_fetched_window_is_served_offline
           (H := SampleRuntime.march_2024) api_down "2024-01-02" "2024-01-09"
           (Some 10) 1709251200 one_range_fetched).
  - reflexivity.
  - vm_compute. split; discriminate.
  - reflexivity.
  - reflexivity.
  - exists ("2024-01-01", "2024-01-10"). split; [now left|].
    split; reflexivity.
Defined.

End OfflineFacts.

(* ------------------------------------------------------------------ *)
(** ** Records after a merge *)

Module MergeFacts.
Import Py Ranges Cache Spec Notions Samples CacheFacts.
Import Durability DurabilityFacts RelatedFacts.

(** *** Dictionaries keyed by values *)

Lemma eqb_trans a b c : eqb a b = true -> eqb b c = true -> eqb a c = true.
Proof.
  destruct a as [|[]|m|sa], b as [|[]|n|sb], c as [|[]|p|sc];
    unfold eqb; cbn [as_number]; try discriminate; auto;
    rewrite ?Z.eqb_eq, ?String.eqb_eq; intros; subst; try lia; auto.
Qed.

Lemma eqb_left a b c : eqb a b = true -> eqb c a = eqb c b.
Proof.
  intros Hab. destruct (eqb c b) eqn:E.
  - apply eqb_trans with b; auto. now rewrite eqb_sym.
  - destruct (eqb c a) eqn:E'; auto.
    rewrite <- E. symmetry. now apply eqb_trans with a.
Qed.

Lemma get_set_value {V} k k' (v : V) d :
  get eqb k (set eqb k' v d) = if eqb k k' then Some v else get eqb k d.
Proof.
  induction d as [|[k0 v0] d IH]; simpl; [reflexivity|].
  destruct (eqb k' k0) eqn:E; simpl.
  - rewrite (eqb_left k' k0 k E). now destruct (eqb k k0).
  - rewrite IH. destruct (eqb k k0) eqn:E0; [|reflexivity].
    destruct (eqb k k') eqn:E1; [|reflexivity].
    rewrite eqb_sym in E1. rewrite (eqb_trans k' k k0 E1 E0) in E.
    discriminate.
Qed.

(** Assignment leaves the keys in place and, for a new key, adds it at the
    end. *)
Lemma keys_set {V} k (v : V) d :
  (keys (set eqb k v d) = keys d /\
   exists k0, In k0 (keys d) /\ eqb k k0 = true) \/
  (keys (set eqb k v d) = (keys d ++ [k])%list /\
   forall k0, In k0 (keys d) -> eqb k k0 = false).
Proof.
  induction d as [|[k0 v0] d IH]; simpl.
  - right. split; [reflexivity|]. intros ? [].
  - destruct (eqb k k0) eqn:E; simpl.
    + left. split; [reflexivity|]. exists k0. split; [now left|exact E].
    + destruct IH as [[Hk (k1 & Hin & Hk1)]|[Hk Hnew]].
      * left. split; [now rewrite Hk|]. exists k1. split; [now right|exact Hk1].
      * right. split; [now rewrite Hk|]. intros k1 [<-|Hin]; auto.
Qed.

Lemma wf_app_new {V} k (v : V) d :
  wf eqb d -> (forall k0, In k0 (keys d) -> eqb k k0 = false) ->
  wf eqb (d ++ [(k, v)])%list.
Proof.
  induction d as [|[k0 v0] d IH]; simpl; intros Hwf Hnew.
  - split; [intros ? []|exact I].
  - destruct Hwf as [Hk0 Hwf]. split.
    + intros k' Hk'. unfold keys in Hk'. rewrite map_app in Hk'.
      apply in_app_or in Hk' as [Hk'|[<-|[]]]; [now apply Hk0|].
      simpl. apply Hnew. now left.
    + apply IH; auto.
Qed.

Lemma set_as_app {V} k (v : V) d :
  (forall k0, In k0 (keys d) -> eqb k k0 = false) ->
  set eqb k v d = (d ++ [(k, v)])%list.
Proof.
  induction d as [|[k0 v0] d IH]; simpl; intros Hnew; [reflexivity|].
  rewrite (Hnew k0) by now left. f_equal. apply IH. auto.
Qed.

Lemma wf_keys {V W} (d : dict value V) (d' : dict value W) :
  keys d' = keys d -> wf eqb d -> wf eqb d'.
Proof.
  revert d'. induction d as [|[k v] d IH]; intros [|[k' v'] d'] Hk;
    try discriminate; simpl; auto.
  simpl in Hk. inversion Hk. subst k'. intros [Hh Ht]. split.
  - intros k0 Hk0. apply Hh. unfold keys in *. congruence.
  - now apply IH.
Qed.

Lemma wf_set {V} k (v : V) d : wf eqb d -> wf eqb (set eqb k v d).
Proof.
  intros Hwf. destruct (keys_set k v d) as [[Hk _]|[_ Hnew]].
  - now apply (wf_keys d).
  - rewrite set_as_app by exact Hnew. now apply wf_app_new.
Qed.

(** *** What a merge does to the records *)

Section Merged.
Variables (key_of : record -> value) (now : string).

Lemma merged_cons item items recs :
  merged_records key_of now (item :: items) recs
  = merged_records key_of now items (upsert key_of now recs item).
Proof. reflexivity. Qed.

(** The item a later lookup of [k] finds: the last one that was stored
    under a key equal to [k]. *)
Lemma merged_lookup items :
  forall recs k,
    get eqb k (merged_records key_of now items recs)
    = match find (stored_under key_of k) (rev items) with
      | Some item => Some (stamped now item)
      | None => get eqb k recs
      end.
Proof.
  induction items as [|item items IH]; intros recs k; [reflexivity|].
  rewrite merged_cons. cbn [rev].
  rewrite IH, find_app.
  destruct (find (stored_under key_of k) (rev items)); [reflexivity|].
  unfold upsert, stored_under. simpl.
  destruct (truthy (key_of item)); simpl; [|reflexivity].
  rewrite get_set_value. now destruct (eqb k (key_of item)).
Qed.

Lemma merged_keys items :
  forall recs,
    exists added,
      keys (merged_records key_of now items recs) = (keys recs ++ added)%list /\
      (List.length added <= List.length items)%nat.
Proof.
  induction items as [|item items IH]; intros recs.
  - exists []. simpl. split; [now rewrite app_nil_r|lia].
  - rewrite merged_cons.
    destruct (IH (upsert key_of now recs item)) as (added & Hk & Hlen).
    unfold upsert in *. destruct (truthy (key_of item)).
    + destruct (keys_set (key_of item) (stamped now item) recs)
        as [[Hs _]|[Hs _]]; rewrite Hs in Hk.
      * exists added. split; [exact Hk|simpl; lia].
      * exists (key_of item :: added). split.
        -- now rewrite Hk, <- app_assoc.
        -- simpl. lia.
    + exists added. split; [exact Hk|simpl; lia].
Qed.

Lemma merged_wf items :
  forall recs, wf eqb recs -> wf eqb (merged_records key_of now items recs).
Proof.
  induction items as [|item items IH]; intros recs Hwf; [exact Hwf|].
  rewrite merged_cons. apply IH. unfold upsert.
  destruct (truthy (key_of item)); [now apply wf_set|exact Hwf].
Qed.
End Merged.

End MergeFacts.

(* ------------------------------------------------------------------ *)
(** ** Merge-insert *)

Module StoreFacts.
Import Py Ranges Cache Spec Notions Samples CacheFacts.
Import Durability DurabilityFacts RelatedFacts MergeFacts.

Lemma merge_into_upserts `{Runtime} name key_of items s :
  upserts name key_of items s (merge_into name key_of items s).
Proof.
  unfold upserts. rewrite merge_into_commit. simpl.
  eexists. split; [reflexivity|].
  intros k. rewrite loaded_commit, String.eqb_refl. simpl.
  apply merged_lookup.
Qed.

(** X7. Merge-insert is an upsert in which the last item wins: each of
    the three merges returns the items stamped with the time of the merge
    (items without a key untouched), and afterwards a lookup of a key in the
    store's records finds the last item of the input stored under that key,
    stamped, or, when no item of the input has that key, what it found
    before the merge. *)
Theorem merge_then_lookup `{Runtime} (items : list record) (s : state) :
  upserts "activities" activity_key items s (_merge_activities items s) /\
  upserts "plans" plan_key items s (_merge_plans items s) /\
  upserts "feedback" feedback_key items s (_merge_feedback items s).
Proof. repeat split; apply merge_into_upserts. Qed.

Lemma merge_into_extends `{Runtime} name key_of items s :
  extends_store name items s (final_state (merge_into name key_of items s)).
Proof.
  rewrite merge_into_commit. simpl. unfold extends_store.
  rewrite loaded_commit, String.eqb_refl. simpl.
  split; [apply merged_keys|]. split; [apply merged_wf|].
  split; [reflexivity|].
  intros n Hn. rewrite loaded_commit, loaded_tick.
  destruct (String.eqb n name) eqn:E; [|reflexivity].
  apply String.eqb_eq in E. contradiction.
Qed.

(** X8. A merge only adds: the keys the store held before are still
    there, in the same places, followed by at most one new key per item;
    unique keys stay unique; the store's [_fetched_ranges] and every other
    store are unchanged. *)
Theorem merge_keeps_what_was_there `{Runtime} (items : list record)
  (s : state) :
  extends_store "activities" items s (final_state (_merge_activities items s))
  /\ extends_store "plans" items s (final_state (_merge_plans items s))
  /\ extends_store "feedback" items s (final_state (_merge_feedback items s)).
Proof. repeat split; apply merge_into_extends. Qed.

End StoreFacts.

(* ------------------------------------------------------------------ *)
(** ** Invariants of the stores *)

Module InvariantFacts.
Import Py Ranges Cache Spec Notions Samples CacheFacts.
Import Durability DurabilityFacts UnitsFacts RelatedFacts MergeFacts.

Lemma wf_filter {V} (p : value * V -> bool) (d : dict value V) :
  wf eqb d -> wf eqb (filter p d).
Proof.
  induction d as [|[k v] d IH]; simpl; [trivial|].
  intros [Hk Hd]. destruct (p (k, v)); simpl; [|now apply IH].
  split; [|now apply IH].
  intros k' Hk'. apply Hk. unfold keys in *.
  apply in_map_iff in Hk' as (kv & <- & Hin).
  apply filter_In in Hin as [Hin _]. now apply in_map.
Qed.

(** After [clear()] each of the three stores loads as the empty store. *)
Lemma wiped_loaded `{Runtime} name s :
  In name store_names ->
  loaded name (final_state (clear None s)) = empty_store.
Proof.
  intros Hn. rewrite loaded_eq. simpl. rewrite !get_del.
  destruct Hn as [<-|[<-|[<-|[]]]]; reflexivity.
Qed.

Lemma perform_keeps_unique `{Runtime} op s :
  unique_keys s -> unique_keys (perform s op).
Proof.
  intros Hs name Hn. destruct (wipes op) eqn:Hw.
  - destruct op as [| | | | | | | |[b|]]; try discriminate. cbn [perform].
    rewrite wiped_loaded by exact Hn. exact I.
  - refine (related_run (fun _ => keeps_unique) _ _
              (fun _ => True) (fun _ => True) _ _ _ _ _ [op] _ s name
              (Hs name Hn)); unfold keeps_unique; auto.
    + intros n key_of now items st _. simpl. apply merged_wf.
    + intros n st ks. simpl. rewrite fold_del. apply wf_filter.
Qed.

(** X9. No operation introduces a duplicate key: if no two records of
    any entity store share a key, the same holds after every sequence of
    merges, recorded ranges, fetches, backfills and clears. *)
Theorem unique_keys_are_kept `{Runtime} (ops : list operation) (s : state) :
  unique_keys s -> unique_keys (run ops s).
Proof.
  revert s. induction ops as [|op ops IH]; intros s Hs; [exact Hs|].
  simpl. apply IH. now apply perform_keeps_unique.
Qed.

Lemma fresh_unique_keys : unique_keys fresh.
Proof. intros name _. exact I. Qed.

Lemma unique_keys_are_kept_witness :
  unique_keys fresh /\
  unique_keys (run (H := SampleRuntime.march_2024) sample_ops fresh).
Proof.
  split; [exact fresh_unique_keys|].
  apply (unique_keys_are_kept (H := SampleRuntime.march_2024)).
  exact fresh_unique_keys.
Defined.

Lemma keeps_keys_refl st : keeps_keys st st.
Proof. exists []. now rewrite app_nil_r. Qed.

Lemma keeps_keys_trans a b c :
  keeps_keys a b -> keeps_keys b c -> keeps_keys a c.
Proof.
  intros [x Hx] [y Hy]. exists (x ++ y)%list.
  now rewrite Hy, Hx, app_assoc.
Qed.

(** X10. Only [clear] deletes: after any sequence of merges, recorded
    ranges, fetches and backfills, every key that a store held is still in
    it, at the same place. *)
Theorem cached_records_are_kept `{Runtime} (ops : list operation)
  (name : string) (s : state) :
  Forall (fun op => deletes op = false) ops ->
  exists added,
    keys (records (loaded name (run ops s)))
    = (keys (records (loaded name s)) ++ added)%list.
Proof.
  intros Hops.
  refine (related_run_keep (fun _ => keeps_keys) _ _
            (fun _ => True) (fun _ => True) _ _ _ _ ops Hops s name); auto.
  - intros _. apply keeps_keys_refl.
  - intros _. apply keeps_keys_trans.
  - intros n key_of now items st _.
    destruct (merged_keys key_of now items (records st)) as (added & Hk & _).
    now exists added.
  - intros n st r _. exists []. simpl. now rewrite app_nil_r.
Qed.

Lemma cached_records_are_kept_witness :
  Forall (fun op => deletes op = false) sample_fetches /\
  exists added,
    keys (records (loaded "activities"
                     (run (H := SampleRuntime.march_2024) sample_fetches
                        three_cached)))
    = (keys (records (loaded "activities" three_cached)) ++ added)%list.
Proof.
  assert (Hops : Forall (fun op => deletes op = false) sample_fetches)
    by (repeat constructor).
  split; [exact Hops|].
  exact (cached_records_are_kept (H := SampleRuntime.march_2024)
           sample_fetches "activities" three_cached Hops).
Defined.

(** *** Each operation writes to its own store *)

Section Isolation.
Context `{Runtime}.
Variable n0 : string.

Let R := untouched n0.
Let others (name : string) : Prop := name <> n0.

Lemma untouched_refl name st : R name st st.
Proof. now intros _. Qed.

Lemma untouched_trans name a b c : R name a b -> R name b c -> R name a c.
Proof. intros Hab Hbc Hn. now rewrite (Hbc Hn), (Hab Hn). Qed.

Lemma untouched_merge name key_of now items st :
  others name ->
  R name st (mkStore (merged_records key_of now items (records st))
                     (_fetched_ranges st)).
Proof. intros Hne Hn. contradiction. Qed.

Lemma untouched_record name st r :
  others name ->
  R name st (mkStore (records st) (_merge_ranges (_fetched_ranges st ++ [r]))).
Proof. intros Hne Hn. contradiction. Qed.

Lemma fetch_activities_isolated api a b limit no_cache s :
  n0 <> "activities" ->
  loaded n0 (final_state (fetch_activities api a b limit no_cache s))
  = loaded n0 s.
Proof.
  intros Hne.
  refine (related_fetch_activities R untouched_refl untouched_trans
            others others untouched_merge untouched_record
            api a b limit no_cache _ _ s n0 eq_refl);
    unfold others; congruence.
Qed.

Lemma fetch_plans_isolated api a g no_cache s :
  n0 <> "plans" ->
  loaded n0 (final_state (fetch_plans api a g no_cache s)) = loaded n0 s.
Proof.
  intros Hne.
  refine (related_fetch_plans R untouched_refl untouched_trans
            others untouched_merge api a g no_cache _ s n0 eq_refl);
    unfold others; congruence.
Qed.

Lemma fetch_feedback_isolated api a b no_cache s :
  n0 <> "feedback" ->
  loaded n0 (final_state (fetch_feedback api a b no_cache s)) = loaded n0 s.
Proof.
  intros Hne.
  refine (related_fetch_feedback R untouched_refl untouched_trans
            others others untouched_merge untouched_record
            api a b no_cache _ _ s n0 eq_refl);
    unfold others; congruence.
Qed.

Lemma backfill_isolated api endpoint months s :
  n0 <> endpoint ->
  loaded n0 (final_state (backfill api endpoint months s)) = loaded n0 s.
Proof.
  intros Hne.
  refine (related_backfill R untouched_refl untouched_trans
            others others untouched_merge untouched_record
            api endpoint months _ _ s n0 eq_refl);
    unfold others; congruence.
Qed.
End Isolation.

(** X11. Each fetch, and backfill, writes to the store of its own entity
    only: every other store is, after the operation, exactly what it was
    before, whether the operation returns or raises. *)
Theorem fetch_writes_one_store `{Runtime} (api : Api) (other : string)
  (s : state) :
  (forall a b limit no_cache,
      other <> "activities" ->
      loaded other (final_state (fetch_activities api a b limit no_cache s))
      = loaded other s) /\
  (forall a g no_cache,
      other <> "plans" ->
      loaded other (final_state (fetch_plans api a g no_cache s))
      = loaded other s) /\
  (forall a b no_cache,
      other <> "feedback" ->
      loaded other (final_state (fetch_feedback api a b no_cache s))
      = loaded other s) /\
  (forall endpoint months,
      other <> endpoint ->
      loaded other (final_state (backfill api endpoint months s))
      = loaded other s).
Proof.
  split; [|split; [|split]]; intros.
  - now apply fetch_activities_isolated.
  - now apply fetch_plans_isolated.
  - now apply fetch_feedback_isolated.
  - now apply backfill_isolated.
Qed.

Lemma fetch_writes_one_store_witness :
  loaded "activities"
    (final_state
       (backfill (H := SampleRuntime.march_2024) api_one_plan "plans"
          (Some 2) three_cached))
  = loaded "activities" three_cached.
Proof.
  apply (fetch_writes_one_store (H := SampleRuntime.march_2024) api_one_plan
           "activities" three_cached).
  discriminate.
Defined.

(** *** Plans are not range-tracked *)

Section PlanRanges.
Context `{Runtime}.

Let R := same_ranges "plans".
Let not_plans (name : string) : Prop := name <> "plans".

Lemma same_ranges_refl name st : R name st st.
Proof. now intros _. Qed.

Lemma same_ranges_trans name a b c : R name a b -> R name b c -> R name a c.
Proof. intros Hab Hbc Hn. now rewrite (Hbc Hn), (Hab Hn). Qed.

Lemma same_ranges_merge name key_of now items st :
  True ->
  R name st (mkStore (merged_records key_of now items (records st))
                     (_fetched_ranges st)).
Proof. now intros _ _. Qed.

Lemma same_ranges_record name st r :
  not_plans name ->
  R name st (mkStore (records st) (_merge_ranges (_fetched_ranges st ++ [r]))).
Proof. intros Hne Hn. contradiction. Qed.

Lemma fetch_plans_same_ranges api a g no_cache s :
  _fetched_ranges (loaded "plans" (final_state (fetch_plans api a g no_cache s)))
  = _fetched_ranges (loaded "plans" s).
Proof.
  exact (related_fetch_plans R same_ranges_refl same_ranges_trans
           (fun _ => True) same_ranges_merge api a g no_cache I s "plans"
           eq_refl).
Qed.

Lemma backfill_same_plan_ranges api endpoint months s :
  _fetched_ranges
    (loaded "plans" (final_state (backfill api endpoint months s)))
  = _fetched_ranges (loaded "plans" s).
Proof.
  exact (related_backfill R same_ranges_refl same_ranges_trans
           (fun _ => True) not_plans same_ranges_merge same_ranges_record
           api endpoint months I (fun Hne => Hne) s "plans" eq_refl).
Qed.
End PlanRanges.

(** X12. Plans are not range-tracked: neither [fetch_plans] nor a
    backfill of any endpoint changes the [_fetched_ranges] of the plans
    store. *)
Theorem plans_are_never_range_tracked `{Runtime} (api : Api) (s : state) :
  (forall start game_id no_cache,
      _fetched_ranges
        (loaded "plans"
           (final_state (fetch_plans api start game_id no_cache s)))
      = _fetched_ranges (loaded "plans" s)) /\
  (forall endpoint months,
      _fetched_ranges
        (loaded "plans" (final_state (backfill api endpoint months s)))
      = _fetched_ranges (loaded "plans" s)).
Proof.
  split; intros.
  - apply fetch_plans_same_ranges.
  - apply backfill_same_plan_ranges.
Qed.

(** *** The documents follow the stores *)

Lemma keeps_sync_refl s : keeps_sync s s.
Proof. now intros Hs. Qed.

Lemma keeps_sync_trans a b c :
  keeps_sync a b -> keeps_sync b c -> keeps_sync a c.
Proof. unfold keeps_sync. auto. Qed.

Lemma keeps_sync_same {A} (m : M A) :
  (forall s, _stores (final_state (m s)) = _stores s /\
             disk (final_state (m s)) = disk s) ->
  steps keeps_sync m.
Proof.
  intros Hm s Hs name st. destruct (Hm s) as [-> ->]. apply Hs.
Qed.

Lemma keeps_sync_load name : steps keeps_sync (_load name).
Proof.
  intros s Hs n st. rewrite load_state. simpl. rewrite get_set.
  destruct (String.eqb n name) eqn:E; [|apply Hs].
  apply String.eqb_eq in E. subst n. intros E. inversion E. subst st.
  rewrite loaded_eq.
  destruct (get String.eqb name (_stores s)) as [st|] eqn:Est;
    [now apply Hs|reflexivity].
Qed.

Lemma in_sync_commit name st s : in_sync s -> in_sync (commit name st s).
Proof.
  intros Hs n st'. unfold commit. simpl. rewrite !get_set.
  destruct (String.eqb n name); [|apply Hs].
  intros E. inversion E. subst st'. apply store_eta.
Qed.

Lemma in_sync_tick s : in_sync s -> in_sync (tick s).
Proof. intros Hs. exact Hs. Qed.

Lemma keeps_sync_merge `{Runtime} name key_of items :
  steps keeps_sync (merge_into name key_of items).
Proof.
  intros s Hs. rewrite merge_into_commit. simpl.
  now apply in_sync_commit, in_sync_tick.
Qed.

Lemma keeps_sync_record name a b :
  steps keeps_sync (_record_fetched_range name a b).
Proof.
  intros s Hs. rewrite record_commit. simpl. now apply in_sync_commit.
Qed.

Lemma keeps_sync_clear_store `{Runtime} before dt name :
  steps keeps_sync (clear_store before dt name).
Proof.
  intros s Hs.
  destruct (clear_store_final before dt name s)
    as [(e & E)|(doomed & _ & E)]; rewrite E; simpl.
  - now apply keeps_sync_load.
  - now apply in_sync_commit.
Qed.

Lemma perform_keeps_sync `{Runtime} op s :
  in_sync s -> in_sync (perform s op).
Proof.
  destruct (wipes op) eqn:Hw.
  - destruct op as [| | | | | | | |[b|]]; simpl in Hw; try congruence.
    intros _ name st. cbn. discriminate.
  - refine (units_perform keeps_sync keeps_sync_refl keeps_sync_trans
              keeps_sync_load _ _ _ (fun _ => True) (fun _ => True)
              _ _ keeps_sync_clear_store (fun _ => I) (fun _ => I) op s Hw).
    + apply keeps_sync_same. intros s0. now split.
    + intros l. apply keeps_sync_same. intros s0. now split.
    + intros answer. apply keeps_sync_same. intros s0. unfold call.
      destruct (answer (api_calls s0)); now split.
    + intros name key_of items _. apply keeps_sync_merge.
    + intros name a b _. apply keeps_sync_record.
Qed.

(** What is loaded after a restart is what the object held. *)
Lemma restart_loaded name s :
  in_sync s -> loaded name (restart s) = loaded name s.
Proof.
  intros Hs. rewrite !loaded_eq. simpl.
  destruct (get String.eqb name (_stores s)) as [st|] eqn:E; [|reflexivity].
  now apply Hs.
Qed.

(** X13. Every change is written through: if each store the object holds
    agrees with its document on disk, then after any sequence of operations,
    returning or raising, it still does, so that a new [LikesCache] over the
    same directory loads every store exactly as the old object held it. *)
Theorem cache_survives_restart `{Runtime} (ops : list operation) (s : state) :
  in_sync s ->
  in_sync (run ops s) /\
  forall name, loaded name (restart (run ops s)) = loaded name (run ops s).
Proof.
  intros Hs.
  assert (Hrun : in_sync (run ops s)).
  { revert s Hs. induction ops as [|op ops IH]; intros s Hs; [exact Hs|].
    simpl. apply IH. now apply perform_keeps_sync. }
  split; [exact Hrun|]. intros name. now apply restart_loaded.
Qed.

Lemma fresh_in_sync : in_sync fresh.
Proof. intros name st. discriminate. Qed.

Lemma cache_survives_restart_witness :
  let s' := run (H := SampleRuntime.march_2024) sample_ops fresh in
  in_sync fresh /\ in_sync s' /\
  forall name, loaded name (restart s') = loaded name s'.
Proof.
  intros s'. split; [exact fresh_in_sync|].
  exact (cache_survives_restart (H := SampleRuntime.march_2024) sample_ops
           fresh fresh_in_sync).
Defined.

End InvariantFacts.

(* ------------------------------------------------------------------ *)
(** ** Clearing *)

Module ClearFacts.
Import Py Ranges Cache Spec Notions Samples CacheFacts.
Import Durability DurabilityFacts MergeFacts InvariantFacts.
Import CoverageStateFacts.

(** X14. [clear()] without a cutoff forgets everything: it returns, the
    object holds no store, the documents of the three entities are gone,
    each of the three stores loads as the empty store, and the gap detector
    then reports the whole of any request as one gap. *)
Theorem clear_all_forgets_everything `{Runtime} (name start end_ : string)
  (s : state) :
  In name store_names ->
  exists s',
    clear None s = Ret tt s' /\
    _stores s' = [] /\
    get String.eqb name (disk s') = None /\
    loaded name s' = empty_store /\
    _detect_gaps name start end_ s'
    = Ret [(start, end_)] (final_state (_load name s')).
Proof.
  intros Hn. eexists. split; [reflexivity|].
  assert (Hd : get String.eqb name
                 (disk (final_state (clear None s))) = None).
  { simpl. rewrite !get_del.
    destruct Hn as [<-|[<-|[<-|[]]]]; reflexivity. }
  assert (Hl : loaded name (final_state (clear None s)) = empty_store)
    by now apply wiped_loaded.
  split; [reflexivity|]. split; [exact Hd|]. split; [exact Hl|].
  rewrite detect_gaps_Ret. simpl in Hl |- *. now rewrite Hl.
Qed.

Lemma clear_all_forgets_everything_witness :
  exists s',
    clear (H := SampleRuntime.march_2024) None three_cached = Ret tt s' /\
    _stores s' = [] /\
    get String.eqb "activities" (disk s') = None /\
    loaded "activities" s' = empty_store /\
    _detect_gaps "activities" "2024-01-01" "2024-01-31" s'
    = Ret [("2024-01-01", "2024-01-31")]
          (final_state (_load "activities" s')).
Proof.
  apply (clear_all_forgets_everything (H := SampleRuntime.march_2024)).
  now left.
Defined.

(** *** Clearing twice *)

(** The tests of [clear] do not look at the state. *)
Lemma dated_pure `{Runtime} v before_dt :
  exists r : exn + bool,
    forall s,
      (t <- int v ;; d <- fromtimestamp t ;; ret (d <? before_dt)) s
      = match r with inr b => Ret b s | inl e => Raise e s end.
Proof.
  unfold bind, int, fromtimestamp, ret, raise.
  destruct (int_value v) as [e|t]; [now exists (inl e)|].
  destruct ((t <? - 2 ^ 63) || (2 ^ 63 <=? t));
    [now exists (inl OverflowError)|].
  destruct ((datetime_min <=? t) && (t <=? datetime_max));
    [now exists (inr (t <? before_dt))|now exists (inl ValueError)].
Qed.

Lemma stale_pure `{Runtime} name before before_dt rec :
  exists r : exn + bool,
    forall s,
      stale name before before_dt rec s
      = match r with inr b => Ret b s | inl e => Raise e s end.
Proof.
  unfold stale.
  destruct (String.eqb name "activities").
  { destruct (truthy (field_or "sign_date" VNone rec));
      [apply dated_pure|now exists (inr false)]. }
  destruct (String.eqb name "plans").
  { destruct (truthy (field_or "start" VNone rec));
      [|now exists (inr false)].
    destruct (field_or "start" VNone rec) as [|b|n|s'];
      [now exists (inl TypeError)..|now exists (inr (StrOrd.ltb s' before))]. }
  destruct (String.eqb name "feedback"); [|now exists (inr false)].
  destruct (truthy (field_or "created_time" VNone rec));
    [apply dated_pure|now exists (inr false)].
Qed.

(** When the tests of [clear] return, each record was tested, and the
    doomed ones are those whose test said so. *)
Lemma doomed_spec `{Runtime} name before dt (l : list (value * record)) :
  forall s doomed s',
    filterM (fun kr => stale name before dt (snd kr)) l s = Ret doomed s' ->
    forall kr, In kr l ->
      (forall s0, stale name before dt (snd kr) s0 = Ret false s0) \/
      In kr doomed.
Proof.
  induction l as [|a l IH]; intros s doomed s' E kr Hin; [destruct Hin|].
  cbn [filterM] in E.
  apply bind_Ret in E as (b & s1 & Hb & E).
  apply bind_Ret in E as (rest & s2 & Hrest & E).
  inversion E. subst doomed s2. clear E.
  destruct Hin as [<-|Hin].
  - destruct (stale_pure name before dt (snd a)) as [[e|b'] Hp].
    + rewrite Hp in Hb. discriminate.
    + rewrite Hp in Hb. inversion Hb. subst b' s1.
      destruct b; [right; now left|left; exact Hp].
  - destruct (IH _ _ _ Hrest kr Hin) as [Hf|Hd]; [now left|right].
    destruct b; [now right|exact Hd].
Qed.

Lemma filterM_none {A} (f : A -> M bool) l :
  (forall a, In a l -> forall s, f a s = Ret false s) ->
  forall s, filterM f l s = Ret [] s.
Proof.
  induction l as [|a l IH]; intros Hf s; [reflexivity|].
  cbn [filterM]. unfold bind. rewrite (Hf a) by now left.
  rewrite IH by (intros a' Ha'; apply Hf; now right).
  reflexivity.
Qed.

Section Twice.
Context `{Runtime}.
Variables (before : string) (before_dt : Z).

Lemma clear_store_settles name s s' :
  clear_store before before_dt name s = Ret tt s' ->
  settled name before before_dt s'.
Proof.
  intros E.
  destruct (clear_store_final before before_dt name s)
    as [(e & E')|(doomed & Hd & E')]; rewrite E' in E; [discriminate|].
  inversion E. clear E E'.
  eexists. split; [simpl; apply get_set_same|].
  split; [simpl; apply get_set_same|].
  intros kr Hkr. simpl in Hkr. rewrite fold_del in Hkr.
  apply filter_In in Hkr as [Hin Hkeep].
  destruct (doomed_spec _ _ _ _ _ _ _ Hd kr Hin) as [Hf|Hdoomed];
    [exact Hf|].
  exfalso. apply negb_true_iff in Hkeep.
  assert (Ht : existsb (fun k => eqb k (fst kr)) (keys doomed) = true).
  { apply existsb_exists. exists (fst kr). split; [|apply eqb_refl].
    unfold keys. now apply in_map. }
  congruence.
Qed.

Lemma settled_frame n name s s' :
  String.eqb n name = false ->
  settled n before before_dt s ->
  clear_store before before_dt name s = Ret tt s' ->
  settled n before before_dt s'.
Proof.
  intros Hne (st & Hst & Hdisk & Hrecs) E.
  destruct (clear_store_final before before_dt name s)
    as [(e & E')|(doomed & Hd & E')]; rewrite E' in E; [discriminate|].
  inversion E. clear E E'.
  exists st. simpl. rewrite !get_set_other by exact Hne. now repeat split.
Qed.

(** Clearing a settled store changes nothing. *)
Lemma settled_fixed name s :
  settled name before before_dt s ->
  clear_store before before_dt name s = Ret tt s.
Proof.
  intros (st & Hst & Hdisk & Hrecs).
  unfold clear_store, bind. unfold _load at 1. rewrite Hst.
  rewrite (filterM_none _ (records st)) by exact Hrecs.
  simpl. unfold ret, _save, with_disk. rewrite Hst.
  fold (document st). rewrite (set_get_same _ _ _ Hdisk). now destruct s.
Qed.
End Twice.

(** X15. Clearing with a cutoff is idempotent: when [clear(before)] has
    returned, clearing again with the same cutoff returns and leaves the
    state, stores and documents included, exactly as it is. *)
Theorem clear_before_is_idempotent `{Runtime} (before : string)
  (s s' : state) :
  clear (Some before) s = Ret tt s' -> clear (Some before) s' = Ret tt s'.
Proof.
  intros E. unfold clear in E |- *.
  apply bind_Ret in E as (before_dt & s0 & Hp & E).
  apply parse_date_Ret in Hp as [-> Hp].
  unfold bind at 1. unfold _parse_date. rewrite Hp. unfold ret at 1.
  cbn [foldM store_names] in E |- *.
  apply bind_Ret in E as (_u1 & sa & Ha & E). destruct _u1.
  apply bind_Ret in E as (_u2 & sp & Hpl & E). destruct _u2.
  apply bind_Ret in E as (_u3 & sf & Hf & E). destruct _u3.
  inversion E. subst sf. clear E.
  assert (Hsa : settled "activities" before before_dt s').
  { apply (settled_frame before before_dt _ "feedback" sp); auto.
    apply (settled_frame before before_dt _ "plans" sa); auto.
    eapply clear_store_settles; eauto. }
  assert (Hsp : settled "plans" before before_dt s').
  { apply (settled_frame before before_dt _ "feedback" sp); auto.
    eapply clear_store_settles; eauto. }
  assert (Hsf : settled "feedback" before before_dt s')
    by (eapply clear_store_settles; eauto).
  unfold bind.
  rewrite (settled_fixed before before_dt "activities" s' Hsa).
  rewrite (settled_fixed before before_dt "plans" s' Hsp).
  rewrite (settled_fixed before before_dt "feedback" s' Hsf).
  reflexivity.
Qed.

Lemma clear_before_is_idempotent_witness :
  clear (H := SampleRuntime.march_2024) (Some "2024-01-01") three_cached
  = Ret tt cleared_2024 /\
  clear (H := SampleRuntime.march_2024) (Some "2024-01-01") cleared_2024
  = Ret tt cleared_2024.
Proof.
  assert (E : clear (H := SampleRuntime.march_2024) (Some "2024-01-01")
                three_cached = Ret tt cleared_2024)
    by (vm_compute; reflexivity).
  split; [exact E|].
  exact (clear_before_is_idempotent (H := SampleRuntime.march_2024)
           "2024-01-01" three_cached cleared_2024 E).
Defined.

End ClearFacts.

(* ------------------------------------------------------------------ *)
(** ** Calls to the collaborator *)

Module BudgetFacts.
Import Py Ranges Cache Spec Notions Samples CacheFacts.
Import Coverage Durability DurabilityFacts CoverageStateFacts OfflineFacts.

(** *** How many gaps there can be *)

Lemma gaps_walk_length end_ sorted_r :
  forall cursor,
    (List.length (gaps_walk end_ cursor sorted_r)
     <= List.length sorted_r + 1)%nat.
Proof.
  induction sorted_r as [|[rs re_] rest IH]; intros cursor; cbn [gaps_walk].
  - destruct (StrOrd.ltb cursor end_); simpl; lia.
  - rewrite length_app. specialize (IH (StrOrd.max cursor re_)).
    unfold range in *.
    destruct (StrOrd.ltb cursor rs); [|cbn [List.length Nat.add]; lia].
    destruct (StrOrd.ltb cursor (StrOrd.min rs end_));
      cbn [List.length Nat.add]; lia.
Qed.

Lemma detect_gaps_length ranges start end_ :
  (List.length (detect_gaps ranges start end_) <= List.length ranges + 1)%nat.
Proof.
  unfold detect_gaps. destruct ranges as [|r0 ranges]; [simpl; lia|].
  pose proof (gaps_walk_length end_ (sort_by_start (r0 :: ranges)) start)
    as Hl.
  unfold sort_by_start in Hl at 2. rewrite PySortFacts.sort_length in Hl.
  exact Hl.
Qed.

(** *** Calls of the fetches *)

Lemma within_foldM {A B} (f : B -> A -> M B) l :
  (forall b a, calls_within 1 (f b a)) ->
  forall b, calls_within (List.length l) (foldM f b l).
Proof.
  intros Hf. induction l as [|a l IH]; intros b; cbn [foldM List.length].
  - intros s. simpl. lia.
  - apply (within_bind 1 (List.length l)); [apply Hf|]. intros b'. apply IH.
Qed.

Lemma within_more {A} n1 n2 (m : M A) :
  (n1 <= n2)%nat -> calls_within n1 m -> calls_within n2 m.
Proof. intros Hle Hm s. specialize (Hm s). lia. Qed.

Lemma served_no_call {A} (m : M A) n :
  steps served_from_cache m -> calls_within n m.
Proof. intros Hm s. destruct (Hm s) as (Hc & _). lia. Qed.

(** Call, merge, record the range, append: one call. *)
Lemma fill_one_call `{Runtime} answer name key_of a b key all_records :
  calls_within 1
    (data <- call answer ;;
     items <- merge_into name key_of (rows data) ;;
     _record_fetched_range name a b ;;;
     ret (append_new key all_records items)).
Proof.
  apply (within_bind 1 0); [apply within_call|]. intros data.
  apply (within_bind 0 0); [apply merge_into_no_call|]. intros items.
  apply (within_bind 0 0); [apply record_range_no_call|]. intros _.
  intros s. simpl. lia.
Qed.

Lemma fill_gap_activities_one_call `{Runtime} api all_records gap :
  calls_within 1 (fill_gap_activities api all_records gap).
Proof.
  destruct gap as [a b]. unfold fill_gap_activities.
  apply (within_try 1 0); [|apply print_no_call].
  apply (fill_one_call _ "activities" activity_key).
Qed.

Lemma fill_gap_feedback_one_call `{Runtime} api all_records gap :
  calls_within 1 (fill_gap_feedback api all_records gap).
Proof.
  destruct gap as [a b]. unfold fill_gap_feedback.
  apply (within_try 1 0); [|apply print_no_call].
  apply (fill_one_call _ "feedback" feedback_key).
Qed.

(** The fresh portion of a fetch: one call, or the cache when it fails. *)
Lemma fresh_portion_one_call `{Runtime} answer name key_of a b key all_records
  (get_cached : M (list record)) :
  steps served_from_cache get_cached ->
  calls_within 1
    (try_request
       (data <- call answer ;;
        items <- merge_into name key_of (rows data) ;;
        _record_fetched_range name a b ;;;
        ret (append_new key all_records items))
       (print WarnRecent ;;;
        cached <- get_cached ;;
        ret (append_new key all_records cached))).
Proof.
  intros Hc. apply (within_try 1 0); [apply fill_one_call|].
  apply (within_bind 0 0); [apply within_of_steps, same_calls_print|].
  intros _. apply (within_bind 0 0); [now apply served_no_call|].
  intros cached s. simpl. lia.
Qed.

(** The frozen portion of a fetch calls the collaborator at most once per
    gap, and there is at most one gap more than there are fetched ranges. *)
Lemma frozen_portion_calls `{Runtime} name (get_cached : M (list record))
  (fill : list record -> range -> M (list record)) start end_ :
  steps served_from_cache get_cached ->
  (forall b a, calls_within 1 (fill b a)) ->
  forall s,
    (api_calls
       (final_state
          ((cached <- get_cached ;;
            gaps <- _detect_gaps name start end_ ;;
            foldM fill cached gaps) s))
     <= api_calls s + (List.length (_fetched_ranges (loaded name s)) + 1))%nat.
Proof.
  intros Hc Hfill s. rewrite final_bind. specialize (Hc s).
  destruct (get_cached s) as [cached s1|e s1]; simpl in Hc;
    destruct Hc as (Hcalls & _ & _ & Hl); [|lia].
  rewrite final_bind, detect_gaps_Ret. cbn iota.
  pose proof (within_foldM fill
                (detect_gaps (_fetched_ranges (loaded name s1)) start end_)
                Hfill cached (final_state (_load name s1))) as Hf.
  pose proof (same_calls_load name s1) as Hload. unfold same_calls in Hload.
  pose proof (detect_gaps_length (_fetched_ranges (loaded name s1))
                start end_) as Hlen.
  rewrite Hl in Hlen at 2. lia.
Qed.

Lemma parse_date_pure `{Runtime} d : steps eq (_parse_date d).
Proof. exact (steps_parse_date eq (@eq_refl state) d). Qed.

Lemma gather_activities_calls `{Runtime} api today start end_ s :
  (api_calls (final_state (gather_activities api today start end_ s))
   <= api_calls s
      + (List.length (_fetched_ranges (loaded "activities" s)) + 2))%nat.
Proof.
  unfold gather_activities.
  match goal with
  | |- context [bind ?m ?k s] =>
      destruct (bind_pure_final m k s (parse_date_pure _))
        as [->|[today_dt ->]]
  end; [lia|].
  match goal with
  | |- context [bind ?m ?k s] =>
      destruct (bind_pure_final m k s (add_days_pure _ _))
        as [->|[boundary_dt ->]]
  end; [lia|].
  rewrite final_bind.
  set (frozen_boundary := strftime boundary_dt).
  assert (Hfrozen :
    forall r,
      r = (if StrOrd.ltb start frozen_boundary
           then
             cached <- _get_cached_activities start
                         (StrOrd.min end_ frozen_boundary) ;;
             gaps <- _detect_gaps "activities" start
                       (StrOrd.min end_ frozen_boundary) ;;
             foldM (fill_gap_activities api) cached gaps
           else ret []) s ->
      (api_calls (final_state r)
       <= api_calls s
          + (List.length (_fetched_ranges (loaded "activities" s)) + 1))%nat).
  { intros r ->. destruct (StrOrd.ltb start frozen_boundary); [|simpl; lia].
    apply (frozen_portion_calls "activities"); [served_leaf|].
    intros b a. apply fill_gap_activities_one_call. }
  specialize (Hfrozen _ eq_refl).
  match goal with
  | |- context [match ?r with Ret _ _ => _ | Raise _ _ => _ end] =>
      destruct r as [all_records s1|e s1]
  end; simpl in Hfrozen; [|lia].
  destruct (StrOrd.leb (StrOrd.max start frozen_boundary) end_);
    [|simpl; lia].
  pose proof (fresh_portion_one_call
                (fun n => get_activities api n
                            (StrOrd.max start frozen_boundary) end_ (Some 100))
                "activities" activity_key
                (StrOrd.max start frozen_boundary) end_ "id" all_records
                (_get_cached_activities (StrOrd.max start frozen_boundary) end_)
                ltac:(served_leaf) s1) as Hfresh.
  unfold _merge_activities. lia.
Qed.

Lemma gather_feedback_calls `{Runtime} api start end_ s :
  (api_calls (final_state (gather_feedback api start end_ s))
   <= api_calls s
      + (List.length (_fetched_ranges (loaded "feedback" s)) + 2))%nat.
Proof.
  unfold gather_feedback. rewrite final_bind, today_Ret.
  set (today := strftime (clock (clock_reads s))).
  assert (Hl : loaded "feedback" (tick s) = loaded "feedback" s)
    by apply loaded_tick.
  assert (Hc : api_calls (tick s) = api_calls s) by reflexivity.
  rewrite <- Hl, <- Hc. generalize (tick s). clear Hl Hc. intros s0.
  match goal with
  | |- context [bind ?m ?k s0] =>
      destruct (bind_pure_final m k s0 (parse_date_pure _))
        as [->|[today_dt ->]]
  end; [lia|].
  match goal with
  | |- context [bind ?m ?k s0] =>
      destruct (bind_pure_final m k s0 (add_days_pure _ _))
        as [->|[boundary_dt ->]]
  end; [lia|].
  rewrite final_bind.
  set (frozen_boundary := strftime boundary_dt).
  assert (Hfrozen :
    forall r,
      r = (if StrOrd.ltb start frozen_boundary
           then
             cached <- _get_cached_feedback start
                         (StrOrd.min end_ frozen_boundary) ;;
             gaps <- _detect_gaps "feedback" start
                       (StrOrd.min end_ frozen_boundary) ;;
             foldM (fill_gap_feedback api) cached gaps
           else ret []) s0 ->
      (api_calls (final_state r)
       <= api_calls s0
          + (List.length (_fetched_ranges (loaded "feedback" s0)) + 1))%nat).
  { intros r ->. destruct (StrOrd.ltb start frozen_boundary); [|simpl; lia].
    apply (frozen_portion_calls "feedback"); [served_leaf|].
    intros b a. apply fill_gap_feedback_one_call. }
  specialize (Hfrozen _ eq_refl).
  match goal with
  | |- context [match ?r with Ret _ _ => _ | Raise _ _ => _ end] =>
      destruct r as [all_records s1|e s1]
  end; simpl in Hfrozen; [|lia].
  destruct (StrOrd.leb (StrOrd.max start frozen_boundary) end_);
    [|simpl; lia].
  pose proof (fresh_portion_one_call
                (fun n => get_feedback api n
                            (StrOrd.max start frozen_boundary) end_)
                "feedback" feedback_key
                (StrOrd.max start frozen_boundary) end_ "created_time"
                all_records
                (_get_cached_feedback (StrOrd.max start frozen_boundary) end_)
                ltac:(served_leaf) s1) as Hfresh.
  unfold _merge_feedback. lia.
Qed.

Lemma sort_desc_no_call `{Runtime} date_field l n :
  calls_within n (sort_desc date_field l).
Proof.
  apply within_of_steps, steps_sort_desc;
    [exact same_calls_refl|exact same_calls_trans].
Qed.

Lemma default_start_pure `{Runtime} (start_date : option string) end_date :
  steps eq
    (match start_date with
     | Some s => ret s
     | None =>
         end_dt <- _parse_date end_date ;;
         d <- add_days end_dt (- 30) ;;
         ret (strftime d)
     end).
Proof.
  destruct start_date; [apply (steps_ret eq (@eq_refl state))|].
  apply (steps_bind eq eq_trans_state); [apply parse_date_pure|].
  intros end_dt.
  apply (steps_bind eq eq_trans_state); [apply add_days_pure|].
  intros d. apply (steps_ret eq (@eq_refl state)).
Qed.

Lemma no_cache_one_call `{Runtime} answer name key_of l :
  calls_within 1
    (try_request
       (data <- call answer ;;
        items <- merge_into name key_of (rows data) ;;
        ret (mkListing (total data) items))
       (print l ;;; ret (mkListing 0 []))).
Proof.
  apply (within_try 1 0); [|apply print_no_call].
  apply (within_bind 1 0); [apply within_call|]. intros data.
  apply (within_bind 0 0); [apply merge_into_no_call|].
  intros items s. simpl. lia.
Qed.

Lemma fetch_activities_calls `{Runtime} api start_date end_date limit
  no_cache s :
  (api_calls
     (final_state (fetch_activities api start_date end_date limit no_cache s))
   <= api_calls s
      + (if no_cache then 1
         else List.length (_fetched_ranges (loaded "activities" s)) + 2))%nat.
Proof.
  unfold fetch_activities. rewrite final_bind, today_Ret.
  assert (Hl : loaded "activities" (tick s) = loaded "activities" s)
    by apply loaded_tick.
  assert (Hc : api_calls (tick s) = api_calls s) by reflexivity.
  rewrite <- Hl, <- Hc. generalize (tick s). clear Hl Hc. intros s0.
  match goal with
  | |- context [bind ?m ?k s0] =>
      destruct (bind_pure_final m k s0 (default_start_pure _ _))
        as [->|[start ->]]
  end; [lia|].
  destruct no_cache.
  - apply (no_cache_one_call _ "activities" activity_key).
  - rewrite final_bind.
    match goal with
    | |- context [gather_activities api ?today start ?end_ s0] =>
        pose proof (gather_activities_calls api today start end_ s0) as Hg;
        destruct (gather_activities api today start end_ s0)
          as [all_records s1|e s1]
    end; simpl in Hg; [|lia].
    match goal with
    | |- context [bind ?m ?k s1] =>
        assert (Hs : calls_within (0 + 0) (bind m k))
    end.
    { apply within_bind; [apply sort_desc_no_call|].
      intros deduped s2. simpl. lia. }
    specialize (Hs s1). lia.
Qed.

Lemma fetch_feedback_calls `{Runtime} api start end_ no_cache s :
  (api_calls (final_state (fetch_feedback api start end_ no_cache s))
   <= api_calls s
      + (if no_cache then 1
         else List.length (_fetched_ranges (loaded "feedback" s)) + 2))%nat.
Proof.
  unfold fetch_feedback.
  destruct (missing start || missing end_); [simpl; lia|].
  destruct no_cache.
  - apply (no_cache_one_call _ "feedback" feedback_key).
  - rewrite final_bind.
    match goal with
    | |- context [gather_feedback api ?a ?b s] =>
        pose proof (gather_feedback_calls api a b s) as Hg;
        destruct (gather_feedback api a b s) as [all_records s1|e s1]
    end; simpl in Hg; [|lia].
    match goal with
    | |- context [bind ?m ?k s1] =>
        assert (Hs : calls_within (0 + 0) (bind m k))
    end.
    { apply within_bind; [apply sort_desc_no_call|].
      intros deduped s2. simpl. lia. }
    specialize (Hs s1). lia.
Qed.

(** The fallback of [fetch_plans] reads the cache and calls nobody. *)
Lemma plans_fallback_no_call `{Runtime} start (no_cache : bool) :
  steps same_calls
    (if no_cache then print WarnNoCache ;;; ret (mkListing 0 [])
     else
       print WarnCached ;;;
       plan_start <- or_today start ;;
       start_dt <- _parse_date plan_start ;;
       end_dt <- add_days start_dt PLAN_CHUNK_DAYS ;;
       cached <- _get_cached_plans plan_start (strftime end_dt) ;;
       cached <- sort_plans cached ;;
       ret (mkListing (Z.of_nat (List.length cached)) cached)).
Proof.
  pose proof same_calls_refl as Hr. pose proof same_calls_trans as Ht.
  destruct no_cache.
  - apply (steps_bind _ Ht); [apply same_calls_print|].
    intros _. apply (steps_ret _ Hr).
  - apply (steps_bind _ Ht); [apply same_calls_print|]. intros _.
    apply (steps_bind _ Ht).
    { unfold or_today. destruct start as [s0|];
        [destruct (truthy (VStr s0)); [apply (steps_ret _ Hr)|]|];
        apply steps_today; exact same_calls_clock. }
    intros plan_start.
    apply (steps_bind _ Ht); [apply (steps_parse_date _ Hr)|]. intros start_dt.
    apply (steps_bind _ Ht); [apply (steps_add_days _ Hr)|]. intros end_dt.
    apply (steps_bind _ Ht);
      [apply (steps_get_cached_plans _ Hr Ht same_calls_load)|].
    intros cached.
    apply (steps_bind _ Ht); [apply (steps_sort_plans _ Hr Ht)|].
    intros cached'. apply (steps_ret _ Hr).
Qed.

Lemma fetch_plans_one_call `{Runtime} api start game_id no_cache s :
  api_calls (final_state (fetch_plans api start game_id no_cache s))
  = S (api_calls s).
Proof.
  unfold fetch_plans, try_request. unfold bind at 1. unfold call.
  destruct (get_plans api (api_calls s) start game_id) as [data|].
  - set (s1 := mkState _ _ _ _ _).
    unfold _merge_plans. unfold bind. rewrite merge_into_commit. reflexivity.
  - set (s1 := mkState _ _ _ _ _).
    now rewrite (plans_fallback_no_call start no_cache s1).
Qed.

(** X16. What a fetch may cost: [fetch_plans] calls the collaborator
    exactly once; a fetch of activities or feedback with [no_cache] calls it
    at most once; a cache-aware fetch of activities or feedback calls it at
    most once per gap and once for the fresh portion, which is at most two
    more times than the store has fetched ranges; whether the fetch returns
    or raises. *)
Theorem fetch_call_budget `{Runtime} (api : Api) (s : state) :
  (forall start game_id no_cache,
      api_calls (final_state (fetch_plans api start game_id no_cache s))
      = S (api_calls s)) /\
  (forall start_date end_date limit,
      (api_calls
         (final_state (fetch_activities api start_date end_date limit true s))
       <= api_calls s + 1)%nat) /\
  (forall start end_,
      (api_calls (final_state (fetch_feedback api start end_ true s))
       <= api_calls s + 1)%nat) /\
  (forall start_date end_date limit,
      (api_calls
         (final_state
            (fetch_activities api start_date end_date limit false s))
       <= api_calls s
          + (List.length (_fetched_ranges (loaded "activities" s)) + 2))%nat) /\
  (forall start end_,
      (api_calls (final_state (fetch_feedback api start end_ false s))
       <= api_calls s
          + (List.length (_fetched_ranges (loaded "feedback" s)) + 2))%nat).
Proof.
  split; [|split; [|split; [|split]]]; intros.
  - apply fetch_plans_one_call.
  - apply (fetch_activities_calls api start_date end_date limit true s).
  - apply (fetch_feedback_calls api start end_ true s).
  - apply (fetch_activities_calls api start_date end_date limit false s).
  - apply (fetch_feedback_calls api start end_ false s).
Qed.

End BudgetFacts.

(* ------------------------------------------------------------------ *)
(** ** Backfill at the edges *)

Module BackfillEdgeFacts.
Import Py Ranges Cache Spec Notions Samples CacheFacts.
Import Coverage Durability DurabilityFacts CoverageStateFacts OfflineFacts.

(** After a prefix that leaves the state alone, a computation raises
    where it started or goes on from there. *)
Lemma bind_pure_cases {A B} (m : M A) (k : A -> M B) s :
  steps eq m ->
  (exists e, bind m k s = Raise e s) \/ exists a, bind m k s = k a s.
Proof.
  intros Hm. unfold bind. specialize (Hm s).
  destruct (m s) as [a s1|e s1]; simpl in Hm; subst s1; eauto.
Qed.

(** One pass through the loop body raises before anything is done, breaks
    before anything is done, or prints the chunk line and runs the [try]
    block. *)
Lemma backfill_chunk_cases `{Runtime} api endpoint months today_dt chunk_days
  i k s :
  (exists e,
      backfill_chunk api endpoint months today_dt chunk_days i k s
      = Raise e s) \/
  backfill_chunk api endpoint months today_dt chunk_days i k s = Ret Break s \/
  exists a b,
    backfill_chunk api endpoint months today_dt chunk_days i k s
    = fetch_chunk api endpoint months a b k
        (final_state (print (LogChunk endpoint (i + 1) a b) s)).
Proof.
  unfold backfill_chunk.
  match goal with
  | |- context [bind ?m ?k s] =>
      destruct (bind_pure_cases m k s (add_days_pure _ _))
        as [[e ->]|[end_dt ->]]
  end; [left; now exists e|].
  match goal with
  | |- context [bind ?m ?k s] =>
      destruct (bind_pure_cases m k s (add_days_pure _ _))
        as [[e ->]|[start_dt ->]]
  end; [left; now exists e|].
  match goal with
  | |- context [bind ?m ?k s] =>
      destruct (bind_pure_cases m k s) as [[e ->]|[past ->]]
  end.
  - destruct (horizon months) as [m|]; [|apply (steps_ret eq (@eq_refl state))].
    apply (steps_bind eq eq_trans_state); [apply add_days_pure|].
    intros d. apply (steps_ret eq (@eq_refl state)).
  - left. now exists e.
  - destruct past; [right; now left|].
    right; right. exists (strftime start_dt), (strftime end_dt). reflexivity.
Qed.

(** The loop, when a pass that goes on keeps [P] and every pass leaves
    [Q]. *)
Lemma backfill_loop_ends `{Runtime} api endpoint months today_dt chunk_days
  (P Q : state -> Prop) :
  (forall s, P s -> Q s) ->
  (forall i k s,
      P s ->
      match backfill_chunk api endpoint months today_dt chunk_days i k s with
      | Ret (Next _) s' => P s'
      | Ret _ s' => Q s'
      | Raise _ s' => Q s'
      end) ->
  forall n i k s,
    P s ->
    Q (final_state
         (backfill_loop api endpoint months today_dt chunk_days n i k s)).
Proof.
  intros HPQ Hbody. induction n as [|n IH]; intros i k s Hs; simpl; auto.
  rewrite final_bind. specialize (Hbody i k s Hs).
  destruct (backfill_chunk api endpoint months today_dt chunk_days i k s)
    as [[k'| |] s1|e s1]; simpl; auto.
Qed.

(** *** A horizon in the future *)

Lemma negative_months_no_chunk endpoint months :
  months < 0 ->
  Z.to_nat (max_chunks_of (Some months) (chunk_days_of endpoint)) = 0%nat.
Proof.
  intros Hm. unfold max_chunks_of, horizon.
  replace (months =? 0) with false by (symmetry; lia).
  pose proof (chunk_days_positive endpoint) as Hcd.
  assert (months * 30 / chunk_days_of endpoint < 0)
    by (apply Z.div_lt_upper_bound; lia).
  lia.
Qed.

(** X17. A horizon of fewer than zero months asks for nothing: backfill
    attempts no chunk, calls nobody, prints nothing and changes no store or
    document; it reads the clock once, and returns whenever today's date
    parses. *)
Theorem backfill_negative_months `{Runtime} (api : Api) (endpoint : string)
  (months : Z) (s : state) :
  months < 0 ->
  final_state (backfill api endpoint (Some months) s) = tick s /\
  (forall today_dt,
      strptime (strftime (clock (clock_reads s))) = Some today_dt ->
      backfill api endpoint (Some months) s = Ret tt (tick s)).
Proof.
  intros Hm. unfold backfill. unfold bind at 1 3. rewrite today_Ret.
  unfold bind, _parse_date. rewrite (negative_months_no_chunk _ _ Hm).
  destruct (strptime (strftime (clock (clock_reads s)))) as [today_dt|].
  - split; [reflexivity|]. intros dt _. reflexivity.
  - split; [reflexivity|]. intros dt E. discriminate.
Qed.

Lemma backfill_negative_months_witness :
  final_state
    (backfill (H := SampleRuntime.march_2024) api_one_plan "plans" (Some (-1))
       three_cached)
  = tick three_cached /\
  backfill (H := SampleRuntime.march_2024) api_one_plan "plans" (Some (-1))
    three_cached
  = Ret tt (tick three_cached).
Proof.
  destruct (backfill_negative_months (H := SampleRuntime.march_2024)
              api_one_plan "plans" (-1) three_cached ltac:(lia)) as [Hf Hr].
  split; [exact Hf|].
  apply (Hr 1709251200). reflexivity.
Defined.

(** *** An endpoint that is none of the three *)

Lemma fetch_chunk_unknown `{Runtime} api endpoint months a b k s :
  ~ In endpoint store_names ->
  fetch_chunk api endpoint months a b k s
  = Ret Return (final_state (print (LogUnknownEndpoint endpoint) s)).
Proof.
  intros Hn. unfold fetch_chunk.
  assert (Ha : String.eqb endpoint "activities" = false).
  { apply String.eqb_neq. intros ->. apply Hn. simpl. tauto. }
  assert (Hp : String.eqb endpoint "plans" = false).
  { apply String.eqb_neq. intros ->. apply Hn. simpl. tauto. }
  assert (Hf : String.eqb endpoint "feedback" = false).
  { apply String.eqb_neq. intros ->. apply Hn. simpl. tauto. }
  rewrite Ha, Hf, Hp. reflexivity.
Qed.

(** X18. For an endpoint that is none of the three, backfill stops in its
    first pass: it prints at most one chunk line, and neither calls the
    collaborator nor changes a store of the object or a document. *)
Theorem backfill_unknown_endpoint `{Runtime} (api : Api) (endpoint : string)
  (months : option Z) (s : state) :
  ~ In endpoint store_names ->
  let s' := final_state (backfill api endpoint months s) in
  only_prints s s' /\
  (chunks_attempted s' <= chunks_attempted s + 1)%nat.
Proof.
  intros Hn s'. subst s'. unfold backfill.
  rewrite final_bind, today_Ret.
  assert (H0 : only_prints s (tick s) /\
               (chunks_attempted (tick s) <= chunks_attempted s + 0)%nat)
    by (split; [now repeat split|unfold chunks_attempted; simpl; lia]).
  rewrite final_bind. unfold _parse_date.
  destruct (strptime (strftime (clock (clock_reads s)))) as [today_dt|];
    simpl; [|split; [apply H0|destruct H0; lia]].
  set (Q := fun s1 => only_prints s s1 /\
                      (chunks_attempted s1 <= chunks_attempted s + 1)%nat).
  apply (backfill_loop_ends api endpoint months today_dt
           (chunk_days_of endpoint) (fun s1 => s1 = tick s) Q).
  - intros s1 ->. destruct H0 as [Hw Hc]. split; [exact Hw|lia].
  - intros i k s1 ->.
    destruct (backfill_chunk_cases api endpoint months today_dt
                (chunk_days_of endpoint) i k (tick s))
      as [[e ->]|[->|(a & b & ->)]].
    + destruct H0 as [Hw Hc]. split; [exact Hw|lia].
    + destruct H0 as [Hw Hc]. split; [exact Hw|lia].
    + rewrite fetch_chunk_unknown by exact Hn.
      split; [now repeat split|].
      unfold chunks_attempted. simpl.
      rewrite !filter_app, !length_app. simpl. lia.
  - reflexivity.
Qed.

Lemma backfill_unknown_endpoint_witness :
  let s' :=
    final_state
      (backfill (H := SampleRuntime.march_2024) api_one_plan "races" None
         three_cached) in
  only_prints three_cached s' /\
  (chunks_attempted s' <= chunks_attempted three_cached + 1)%nat.
Proof.
  apply (backfill_unknown_endpoint (H := SampleRuntime.march_2024)).
  intros [E|[E|[E|[]]]]; discriminate.
Defined.

(** *** A collaborator that cannot be reached *)

Lemma fetch_chunk_unreachable `{Runtime} api endpoint months a b k s :
  unreachable api ->
  match fetch_chunk api endpoint months a b k s with
  | Ret (Next _) s' =>
      api_calls s' = api_calls s /\ disk s' = disk s /\
      forall name, loaded name s' = loaded name s
  | Ret _ s' => one_call_at_most s s'
  | Raise _ s' => one_call_at_most s s'
  end.
Proof.
  intros (Hact & Hplans & Hfb).
  assert (Hload : forall name,
             exists s1,
               final_state (_load name s) = s1 /\
               api_calls s1 = api_calls s /\ disk s1 = disk s /\
               forall n, loaded n s1 = loaded n s).
  { intros name. eexists. split; [reflexivity|].
    rewrite load_state. repeat split.
    intros n. rewrite <- load_state. apply loaded_load. }
  assert (Hworld : forall s1 c log n,
             loaded n (mkState (_stores s1) (disk s1) (clock_reads s1) c log)
             = loaded n s1)
    by (intros; now rewrite !loaded_eq).
  unfold fetch_chunk, try_request, one_call_at_most.
  destruct (String.eqb endpoint "activities").
  { unfold bind at 1. rewrite detect_gaps_Ret.
    destruct (Hload "activities") as (s1 & -> & Hc & Hd & Hl).
    destruct (detect_gaps _ a b) as [|g gaps].
    - simpl. repeat split; auto. intros n. now rewrite Hworld.
    - unfold bind at 1, call. rewrite Hact. simpl.
      split; [lia|]. split; [exact Hd|]. intros n. now rewrite Hworld. }
  destruct (String.eqb endpoint "feedback").
  { unfold bind at 1. rewrite detect_gaps_Ret.
    destruct (Hload "feedback") as (s1 & -> & Hc & Hd & Hl).
    destruct (detect_gaps _ a b) as [|g gaps].
    - simpl. repeat split; auto. intros n. now rewrite Hworld.
    - unfold bind at 1, call. rewrite Hfb. simpl.
      split; [lia|]. split; [exact Hd|]. intros n. now rewrite Hworld. }
  destruct (String.eqb endpoint "plans").
  { unfold bind at 1, call. rewrite Hplans. simpl.
    split; [lia|]. split; [reflexivity|]. intros n. now rewrite Hworld. }
  simpl. split; [lia|]. split; [reflexivity|]. intros n. now rewrite Hworld.
Qed.

(** X19. With a collaborator that cannot be reached, backfill gives up at
    the first call: it makes at most one call, and leaves every document
    and every store as it was. *)
Theorem backfill_with_unreachable_api `{Runtime} (api : Api)
  (endpoint : string) (months : option Z) (s : state) :
  unreachable api ->
  one_call_at_most s (final_state (backfill api endpoint months s)).
Proof.
  intros Hdown. unfold backfill. rewrite final_bind, today_Ret.
  set (P := fun s1 => api_calls s1 = api_calls s /\ disk s1 = disk s /\
                      forall name, loaded name s1 = loaded name s).
  assert (H0 : P (tick s)).
  { split; [reflexivity|]. split; [reflexivity|].
    intros name. apply loaded_tick. }
  assert (HPQ : forall s1, P s1 -> one_call_at_most s s1).
  { intros s1 (Hc & Hd & Hl). split; [lia|]. now split. }
  rewrite final_bind. unfold _parse_date.
  destruct (strptime (strftime (clock (clock_reads s)))) as [today_dt|];
    simpl; [|now apply HPQ].
  apply (backfill_loop_ends api endpoint months today_dt
           (chunk_days_of endpoint) P (one_call_at_most s)); auto.
  intros i k s1 Hs1.
  destruct (backfill_chunk_cases api endpoint months today_dt
              (chunk_days_of endpoint) i k s1)
    as [[e ->]|[->|(a & b & ->)]]; [now apply HPQ..|].
  set (s2 := final_state (print (LogChunk endpoint (i + 1) a b) s1)).
  assert (H2 : P s2).
  { destruct Hs1 as (Hc & Hd & Hl). split; [exact Hc|]. split; [exact Hd|].
    intros name. rewrite <- Hl. subst s2. now rewrite !loaded_eq. }
  pose proof (fetch_chunk_unreachable api endpoint months a b k s2 Hdown)
    as Hf.
  destruct H2 as (Hc & Hd & Hl).
  destruct (fetch_chunk api endpoint months a b k s2) as [[k'| |] s3|e s3].
  - destruct Hf as (Hc' & Hd' & Hl'). split; [congruence|].
    split; [congruence|]. intros name. now rewrite Hl'.
  - destruct Hf as (Hc' & Hd' & Hl'). split; [lia|].
    split; [congruence|]. intros name. now rewrite Hl'.
  - destruct Hf as (Hc' & Hd' & Hl'). split; [lia|].
    split; [congruence|]. intros name. now rewrite Hl'.
  - destruct Hf as (Hc' & Hd' & Hl'). split; [lia|].
    split; [congruence|]. intros name. now rewrite Hl'.
Qed.

Lemma api_down_unreachable : unreachable api_down.
Proof. now repeat split. Qed.

Lemma backfill_with_unreachable_api_witness :
  unreachable api_down /\
  one_call_at_most three_cached
    (final_state
       (backfill (H := SampleRuntime.march_2024) api_down "activities"
          (Some 3) three_cached)).
Proof.
  split; [exact api_down_unreachable|].
  apply (backfill_with_unreachable_api (H := SampleRuntime.march_2024)).
  exact api_down_unreachable.
Defined.

End BackfillEdgeFacts.

(* ------------------------------------------------------------------ *)
(** ** Queries of the cache *)

Module QueryFacts.
Import Py Ranges Cache Spec Notions Samples CacheFacts.
Import Durability DurabilityFacts MergeFacts StoreFacts.

Lemma add_days_value `{Runtime} dt n s r s' :
  add_days dt n s = Ret r s' -> s' = s /\ r = dt + 86400 * n.
Proof.
  unfold add_days.
  destruct ((datetime_min <=? dt + 86400 * n)
            && (dt + 86400 * n <=? datetime_max)); [|discriminate].
  intros E. inversion E. auto.
Qed.

(** The test of the two timestamp queries. *)
Lemma in_window_Ret `{Runtime} date_field start_dt end_dt rec s b s' :
  in_window date_field start_dt end_dt rec s = Ret b s' ->
  s' = s /\ b = dated_within date_field start_dt end_dt rec.
Proof.
  unfold in_window, dated_within, field_or.
  destruct (field date_field rec) as [v|];
    [|intros E; inversion E; auto].
  assert (Hv :
    (t <- int v ;;
     rec_date <- fromtimestamp t ;;
     (if start_dt <=? rec_date
      then limit <- add_days end_dt 1 ;; ret (rec_date <=? limit)
      else ret false)) s = Ret b s' ->
    s' = s /\
    b = match int_value v with
        | inr t => (start_dt <=? t) && (t <=? end_dt + 86400)
        | inl _ => false
        end).
  { intros E.
    apply bind_Ret in E as (t & s1 & Ht & E).
    apply bind_Ret in E as (d & s2 & Hd & E).
    apply int_Ret in Ht as [-> Ht].
    apply fromtimestamp_Ret in Hd as [-> ->]. rewrite Ht.
    destruct (start_dt <=? t); simpl.
    - apply bind_Ret in E as (limit & s3 & Hl & E).
      apply add_days_value in Hl as [-> ->].
      inversion E. split; [reflexivity|]. f_equal; lia.
    - inversion E. auto. }
  destruct v; auto. intros E. inversion E. auto.
Qed.

Lemma plan_in_window_Ret `{Runtime} start end_ rec s b s' :
  plan_in_window start end_ rec s = Ret b s' ->
  s' = s /\ b = starts_within start end_ rec.
Proof.
  unfold plan_in_window, starts_within.
  destruct (field_or "start" (VStr "") rec) as [|[]|n|str]; simpl;
    try (intros E; now inversion E); try discriminate.
  - destruct (n =? 0); simpl; [intros E; now inversion E|discriminate].
  - destruct (String.eqb str ""); simpl; intros E; now inversion E.
Qed.

Lemma timestamp_query_Ret `{Runtime} name date_field start end_ s out s' :
  (store <- _load name ;;
   start_dt <- _parse_date start ;;
   end_dt <- _parse_date end_ ;;
   filterM (in_window date_field start_dt end_dt) (values (records store))) s
  = Ret out s' ->
  exists start_dt end_dt,
    strptime start = Some start_dt /\ strptime end_ = Some end_dt /\
    s' = final_state (_load name s) /\
    out = filter (dated_within date_field start_dt end_dt)
            (values (records (loaded name s))).
Proof.
  intros E.
  apply bind_Ret in E as (st & s1 & Hl & E).
  rewrite load_Ret in Hl. inversion Hl. subst st s1. clear Hl.
  apply bind_Ret in E as (start_dt & s2 & Hs & E).
  apply parse_date_Ret in Hs as [-> Hs].
  apply bind_Ret in E as (end_dt & s3 & He & E).
  apply parse_date_Ret in He as [-> He].
  apply (filterM_pure _ (dated_within date_field start_dt end_dt)) in E
    as [-> ->].
  - now exists start_dt, end_dt.
  - intros r s0 b s0'. apply in_window_Ret.
Qed.

Lemma plans_query_Ret `{Runtime} start end_ s out s' :
  _get_cached_plans start end_ s = Ret out s' ->
  s' = final_state (_load "plans" s) /\
  out = filter (starts_within start end_)
          (values (records (loaded "plans" s))).
Proof.
  unfold _get_cached_plans. intros E.
  apply bind_Ret in E as (st & s1 & Hl & E).
  rewrite load_Ret in Hl. inversion Hl. subst st s1. clear Hl.
  apply (filterM_pure _ (starts_within start end_)) in E as [-> ->].
  - now split.
  - intros r s0 b s0'. apply plan_in_window_Ret.
Qed.

(** X20. The three queries return exactly the cached records that are in
    the window, in the order in which the store holds them, and do nothing
    but load the store: for activities and feedback, the records whose
    timestamp is not [None] and lies between the first instant of [start]
    and the first instant of the day after [end_], both included; for plans,
    the records whose start date is a non-empty string from [start] to
    [end_]. *)
Theorem cached_queries_are_exact `{Runtime} (start end_ : string)
  (s : state) (out : list record) (s' : state) :
  (_get_cached_activities start end_ s = Ret out s' ->
   exists start_dt end_dt,
     strptime start = Some start_dt /\ strptime end_ = Some end_dt /\
     s' = final_state (_load "activities" s) /\
     out = filter (dated_within "sign_date" start_dt end_dt)
             (values (records (loaded "activities" s)))) /\
  (_get_cached_feedback start end_ s = Ret out s' ->
   exists start_dt end_dt,
     strptime start = Some start_dt /\ strptime end_ = Some end_dt /\
     s' = final_state (_load "feedback" s) /\
     out = filter (dated_within "created_time" start_dt end_dt)
             (values (records (loaded "feedback" s)))) /\
  (_get_cached_plans start end_ s = Ret out s' ->
   s' = final_state (_load "plans" s) /\
   out = filter (starts_within start end_)
           (values (records (loaded "plans" s)))).
Proof.
  split; [|split]; intros E.
  - now apply timestamp_query_Ret.
  - now apply timestamp_query_Ret.
  - now apply plans_query_Ret.
Qed.

Lemma cached_queries_are_exact_witness :
  exists out s',
    _get_cached_activities (H := SampleRuntime.march_2024)
      "2023-11-01" "2023-11-30" three_cached = Ret out s' /\
    exists start_dt end_dt,
      strptime (Runtime := SampleRuntime.march_2024) "2023-11-01"
      = Some start_dt /\
      strptime (Runtime := SampleRuntime.march_2024) "2023-11-30"
      = Some end_dt /\
      s' = final_state (_load "activities" three_cached) /\
      out = filter (dated_within (H := SampleRuntime.march_2024)
                      "sign_date" start_dt end_dt)
              (values (records (loaded "activities" three_cached))).
Proof.
  destruct (_get_cached_activities (H := SampleRuntime.march_2024)
              "2023-11-01" "2023-11-30" three_cached)
    as [out s'|e s'] eqn:E; [|vm_compute in E; discriminate].
  exists out, s'. split; [reflexivity|].
  exact (proj1 (cached_queries_are_exact (H := SampleRuntime.march_2024)
                  "2023-11-01" "2023-11-30" three_cached out s') E).
Defined.

(** *** What was merged is served back *)

Lemma get_In_values {V} k (v : V) (d : dict value V) :
  get eqb k d = Some v -> In v (values d).
Proof.
  induction d as [|[k0 v0] d IH]; simpl; [discriminate|].
  destruct (eqb k k0); [|auto].
  intros E. inversion E. now left.
Qed.

Lemma field_stamped name now item :
  String.eqb name "_cached_at" = false ->
  field name (stamped now item) = field name item.
Proof. intros Hn. unfold field, stamped, set_field. simpl. now apply get_set_other. Qed.

(** The last item stored under its key is, stamped, among the records of
    the store after the merge. *)
Lemma merged_item_stored `{Runtime} name key_of items item s :
  find (stored_under key_of (key_of item)) (rev items) = Some item ->
  In (stamped (isoformat (clock (clock_reads s))) item)
     (values (records (loaded name
                         (final_state (merge_into name key_of items s))))).
Proof.
  intros Hlast.
  destruct (merge_into_upserts name key_of items s) as (s' & E & Hget).
  rewrite E. simpl. apply (get_In_values (key_of item)).
  now rewrite Hget, Hlast.
Qed.

Lemma dated_within_stamped `{Runtime} date_field start_dt end_dt now item :
  String.eqb date_field "_cached_at" = false ->
  dated_within date_field start_dt end_dt (stamped now item)
  = dated_within date_field start_dt end_dt item.
Proof. intros Hn. unfold dated_within. now rewrite field_stamped. Qed.

Lemma starts_within_stamped start end_ now item :
  starts_within start end_ (stamped now item) = starts_within start end_ item.
Proof.
  unfold starts_within, field_or. now rewrite field_stamped.
Qed.

(** X21. What was merged is served back: after a merge, a query that
    returns and whose window contains an item of the merge returns that item,
    stamped, provided the item has a key and is the last item of the merge
    with that key. *)
Theorem merged_items_are_served `{Runtime} (items : list record)
  (item : record) (start end_ : string) (s : state) (out : list record)
  (s' : state) :
  let now := isoformat (clock (clock_reads s)) in
  (find (stored_under activity_key (activity_key item)) (rev items)
   = Some item ->
   _get_cached_activities start end_ (final_state (_merge_activities items s))
   = Ret out s' ->
   forall start_dt end_dt,
     strptime start = Some start_dt -> strptime end_ = Some end_dt ->
     dated_within "sign_date" start_dt end_dt item = true ->
     In (stamped now item) out) /\
  (find (stored_under feedback_key (feedback_key item)) (rev items)
   = Some item ->
   _get_cached_feedback start end_ (final_state (_merge_feedback items s))
   = Ret out s' ->
   forall start_dt end_dt,
     strptime start = Some start_dt -> strptime end_ = Some end_dt ->
     dated_within "created_time" start_dt end_dt item = true ->
     In (stamped now item) out) /\
  (find (stored_under plan_key (plan_key item)) (rev items) = Some item ->
   _get_cached_plans start end_ (final_state (_merge_plans items s))
   = Ret out s' ->
   starts_within start end_ item = true ->
   In (stamped now item) out).
Proof.
  intros now. split; [|split].
  - intros Hlast E start_dt end_dt Hs He Hin.
    apply timestamp_query_Ret in E as (sd & ed & Hs' & He' & _ & ->).
    rewrite Hs in Hs'. rewrite He in He'. inversion Hs'. inversion He'.
    subst sd ed. apply filter_In. split.
    + now apply merged_item_stored.
    + now rewrite dated_within_stamped.
  - intros Hlast E start_dt end_dt Hs He Hin.
    apply timestamp_query_Ret in E as (sd & ed & Hs' & He' & _ & ->).
    rewrite Hs in Hs'. rewrite He in He'. inversion Hs'. inversion He'.
    subst sd ed. apply filter_In. split.
    + now apply merged_item_stored.
    + now rewrite dated_within_stamped.
  - intros Hlast E Hin.
    apply plans_query_Ret in E as [_ ->].
    apply filter_In. split.
    + now apply merged_item_stored.
    + now rewrite starts_within_stamped.
Qed.

Lemma merged_items_are_served_witness :
  exists out s',
    _get_cached_plans "2024-03-01" "2024-03-31" plans_cached = Ret out s' /\
    In (stamped (isoformat (Runtime := SampleRuntime.march_2024)
                   (clock (Runtime := SampleRuntime.march_2024)
                      (clock_reads fresh)))
          (sample_plan 2 "2024-03-05")) out.
Proof.
  destruct (_get_cached_plans "2024-03-01" "2024-03-31" plans_cached)
    as [out s'|e s'] eqn:E; [|vm_compute in E; discriminate].
  exists out, s'. split; [reflexivity|].
  apply (proj2 (proj2 (merged_items_are_served
                         (H := SampleRuntime.march_2024)
                         [sample_plan 1 "2024-03-10";
                          sample_plan 2 "2024-03-05"]
                         (sample_plan 2 "2024-03-05")
                         "2024-03-01" "2024-03-31" fresh out s'))).
  - reflexivity.
  - exact E.
  - reflexivity.
Defined.

End QueryFacts.

(* ------------------------------------------------------------------ *)
(** ** Results of the fetches *)

Module ResultFacts.
Import Py Ranges Cache Spec Notions Samples CacheFacts.
Import Coverage Durability DurabilityFacts QueryFacts OfflineFacts.

Lemma or_today_Ret `{Runtime} start s plan_start s' :
  or_today start s = Ret plan_start s' ->
  plan_start = plan_start_of start s.
Proof.
  unfold or_today, plan_start_of.
  destruct start as [s0|]; [destruct (truthy (VStr s0))|];
    intros E; now inversion E.
Qed.

(** X22. When the call for plans fails: with [no_cache], [fetch_plans]
    returns an empty result and leaves the stores alone; without, a
    [fetch_plans] that returns gives the cached plans whose start date is a
    non-empty string from the first day ([start], or today when [start] is
    missing or empty) to 42 days after it, each once, and [total] is their
    number. *)
Theorem plans_fallback_serves_window `{Runtime} (api : Api)
  (start : option string) (game_id : option Z) (s : state)
  (result : listing) (s' : state) :
  get_plans api (api_calls s) start game_id = ApiFailure ->
  (exists s1,
      fetch_plans api start game_id true s = Ret (mkListing 0 []) s1 /\
      forall name, loaded name s1 = loaded name s) /\
  (fetch_plans api start game_id false s = Ret result s' ->
   let plan_start := plan_start_of start s in
   exists start_dt,
     strptime plan_start = Some start_dt /\
     Permutation (rows result)
       (filter (starts_within plan_start
                  (strftime (start_dt + 86400 * PLAN_CHUNK_DAYS)))
          (values (records (loaded "plans" s)))) /\
     total result = Z.of_nat (List.length (rows result))).
Proof.
  intros Hfail. split.
  - unfold fetch_plans, try_request. unfold bind at 1. unfold call at 1.
    rewrite Hfail. eexists. split; [reflexivity|].
    intros name. now rewrite !loaded_eq.
  - unfold fetch_plans, try_request. unfold bind at 1. unfold call at 1.
    rewrite Hfail. intros E.
    apply bind_Ret in E as (_u & s0 & Hprint & E).
    inversion Hprint. subst s0. clear Hprint.
    apply bind_Ret in E as (ps & s1 & Hps & E).
    assert (Hps' : ps = plan_start_of start s)
      by exact (or_today_Ret _ _ _ _ Hps).
    subst ps.
    apply bind_Ret in E as (start_dt & s2 & Hdt & E).
    apply parse_date_Ret in Hdt as [-> Hdt].
    apply bind_Ret in E as (end_dt & s3 & Hend & E).
    apply add_days_value in Hend as [-> ->].
    apply bind_Ret in E as (cached & s4 & Hc & E).
    apply plans_query_Ret in Hc as [-> ->].
    apply bind_Ret in E as (sorted & s5 & Hs & E).
    apply sort_plans_Ret in Hs as (-> & Hperm & _).
    inversion E. subst result. simpl.
    exists start_dt. split; [exact Hdt|]. split; [|reflexivity].
    assert (Hl : loaded "plans" s1 = loaded "plans" s).
    { assert (Ht : steps served_from_cache (or_today start)).
      { unfold or_today. destruct start as [s0|];
          [destruct (truthy (VStr s0))|]; served_leaf. }
      specialize (Ht (mkState (_stores s) (disk s) (clock_reads s)
                        (S (api_calls s)) (stderr s ++ [WarnCached])%list)).
      rewrite Hps in Ht. simpl in Ht. destruct Ht as (_ & _ & _ & Hl).
      rewrite Hl. now rewrite !loaded_eq. }
    now rewrite <- Hl.
Qed.

Lemma plans_fallback_serves_window_witness :
  get_plans api_down (api_calls plans_cached) (Some "2024-03-01") None
  = ApiFailure /\
  exists result s' start_dt,
    fetch_plans (H := SampleRuntime.march_2024) api_down (Some "2024-03-01")
      None false plans_cached = Ret result s' /\
    strptime (Runtime := SampleRuntime.march_2024)
      (plan_start_of (H := SampleRuntime.march_2024) (Some "2024-03-01")
         plans_cached)
    = Some start_dt /\
    Permutation (rows result)
      (filter (starts_within
                 (plan_start_of (H := SampleRuntime.march_2024)
                    (Some "2024-03-01") plans_cached)
                 (strftime (Runtime := SampleRuntime.march_2024)
                    (start_dt + 86400 * PLAN_CHUNK_DAYS)))
         (values (records (loaded "plans" plans_cached)))) /\
    total result = 2.
Proof.
  split; [reflexivity|].
  destruct (fetch_plans (H := SampleRuntime.march_2024) api_down
              (Some "2024-03-01") None false plans_cached)
    as [result s'|e s'] eqn:E; [|vm_compute in E; discriminate].
  destruct (proj2 (plans_fallback_serves_window
                     (H := SampleRuntime.march_2024) api_down
                     (Some "2024-03-01") None plans_cached result s' eq_refl)
              E) as (start_dt & Hdt & Hperm & Htotal).
  exists result, s', start_dt. split; [reflexivity|].
  split; [exact Hdt|]. split; [exact Hperm|].
  vm_compute in E. inversion E. reflexivity.
Defined.

(** *** How many records come back *)

Lemma slice_to_length {A} n (l : list A) :
  Z.of_nat (List.length (slice_to n l))
  = if n <? 0 then Z.max 0 (Z.of_nat (List.length l) + n)
    else Z.min n (Z.of_nat (List.length l)).
Proof.
  unfold slice_to. destruct (n <? 0) eqn:E; rewrite length_firstn; lia.
Qed.

Lemma fetch_activities_counts `{Runtime} api start_date end_date limit s
  result s' :
  fetch_activities api start_date end_date limit false s = Ret result s' ->
  exists deduped,
    total result = Z.of_nat (List.length deduped) /\
    rows result =
    match limit with
    | Some n => if n =? 0 then deduped else slice_to n deduped
    | None => deduped
    end.
Proof.
  unfold fetch_activities. intros E.
  apply bind_Ret in E as (today & s0 & _ & E).
  apply bind_Ret in E as (start & s1 & _ & E).
  apply bind_Ret in E as (all_records & s2 & _ & E).
  apply bind_Ret in E as (deduped & s3 & _ & E).
  inversion E. exists deduped. now split.
Qed.

Lemma fetch_feedback_counts `{Runtime} api start end_ s result s' :
  fetch_feedback api start end_ false s = Ret result s' ->
  total result = Z.of_nat (List.length (rows result)).
Proof.
  unfold fetch_feedback. intros E.
  destruct (missing start || missing end_); [now inversion E|].
  apply bind_Ret in E as (all_records & s2 & _ & E).
  apply bind_Ret in E as (deduped & s3 & _ & E).
  now inversion E.
Qed.

(** X23. In the result of a cache-aware fetch of activities, [total] is
    the number of records after deduplication and before the limit: the
    list holds [min(limit, total)] records for a positive limit, all but the
    last [-limit] for a negative one, and all of them without a limit or
    with limit 0; in the result of a cache-aware fetch of feedback, [total]
    is the length of the list. *)
Theorem totals_count_the_records `{Runtime} (api : Api)
  (start end_ : option string) (limit : option Z) (s : state)
  (result : listing) (s' : state) :
  (fetch_activities api start end_ limit false s = Ret result s' ->
   let shown := Z.of_nat (List.length (rows result)) in
   shown <= total result /\
   (forall n, limit = Some n -> 0 < n -> shown = Z.min n (total result)) /\
   (forall n, limit = Some n -> n < 0 -> shown = Z.max 0 (total result + n)) /\
   (limit = None \/ limit = Some 0 -> shown = total result)) /\
  (fetch_feedback api start end_ false s = Ret result s' ->
   total result = Z.of_nat (List.length (rows result))).
Proof.
  split; [|apply fetch_feedback_counts].
  intros E shown. subst shown.
  apply fetch_activities_counts in E as (deduped & -> & ->).
  destruct limit as [n|].
  - destruct (n =? 0) eqn:En.
    + repeat split; try lia; intros m Hm; inversion Hm; lia.
    + rewrite slice_to_length.
      destruct (n <? 0) eqn:Eneg; repeat split; try lia;
        try (intros m Hm; inversion Hm; lia).
      * intros [Hl|Hl]; [discriminate|inversion Hl; lia].
      * intros [Hl|Hl]; [discriminate|inversion Hl; lia].
  - repeat split; try lia; intros m Hm; discriminate.
Qed.

Lemma totals_count_the_records_witness :
  exists result s',
    fetch_activities (H := SampleRuntime.march_2024) api_down
      (Some "2023-11-01") (Some "2024-03-01") (Some 1) false three_cached
    = Ret result s' /\
    Z.of_nat (List.length (rows result)) = Z.min 1 (total result) /\
    total result = 2.
Proof.
  destruct (fetch_activities (H := SampleRuntime.march_2024) api_down
              (Some "2023-11-01") (Some "2024-03-01") (Some 1) false
              three_cached)
    as [result s'|e s'] eqn:E; [|vm_compute in E; discriminate].
  exists result, s'. split; [reflexivity|].
  destruct (proj1 (totals_count_the_records (H := SampleRuntime.march_2024)
                     api_down (Some "2023-11-01") (Some "2024-03-01")
                     (Some 1) three_cached result s') E)
    as (_ & Hmin & _).
  split; [apply (Hmin 1); [reflexivity|lia]|].
  vm_compute in E. inversion E. reflexivity.
Defined.

End ResultFacts.

(* ------------------------------------------------------------------ *)
(** ** The activities command *)

Module CommandsFacts.
Import Py Ranges Cache Spec Notions Samples CacheFacts.
Import Commands.

Lemma firstn_short {A} n (l : list A) :
  (List.length (firstn n l) < n)%nat -> firstn n l = l.
Proof.
  intros Hlen. apply firstn_all2.
  rewrite length_firstn in Hlen. lia.
Qed.

Lemma ordered_filter {A} (R : A -> A -> bool) (p : A -> bool) l :
  PySort.ordered R l -> PySort.ordered R (filter p l).
Proof.
  induction l as [|x l IH]; simpl; auto.
  intros [Hx Hl]. destruct (p x); simpl; auto.
  split; auto. intros y Hy. apply Hx. now apply filter_In in Hy.
Qed.

Lemma NoDup_map_filter {A B} (g : A -> B) (p : A -> bool) l :
  NoDup (map g l) -> NoDup (map g (filter p l)).
Proof.
  induction l as [|x l IH]; simpl; auto.
  intros Hnd. inversion Hnd as [|? ? Hout Hrest]. subst.
  destruct (p x); simpl; auto.
  constructor; auto.
  intros Hin. apply Hout. apply in_map_iff in Hin as (y & Hy & Hin).
  apply in_map_iff. exists y. split; auto. now apply filter_In in Hin.
Qed.

(** The records a cache-aware [fetch_activities] without a limit returns
    are newest first and have pairwise different identities. *)
Lemma fetch_activities_all `{Runtime} api start end_ s data s' :
  fetch_activities api start end_ None false s = Ret data s' ->
  descending "sign_date" (rows data) /\ NoDup (map (rid "id") (rows data)).
Proof.
  intros E. apply fetch_activities_Ret in E
    as (today & st & en & s1 & all_records & s2 & deduped & _ & Hs & ->).
  apply sort_desc_Ret in Hs as (_ & Hperm & Hdesc).
  split; [exact Hdesc|].
  destruct (dedup_seen_spec "id" all_records) as [Hnd _].
  eapply Permutation_NoDup; [|exact Hnd].
  apply Permutation_map. now symmetry.
Qed.

(** X24. What the activities command shows. When it gets that far, the
    [total] it reports is the number of records it shows; with a limit of 0
    or more it shows at most that many; unless [--all-types] is given every
    record shown has [run_type == 1]; every record shown is one that
    [fetch_activities] returned, and none of those that qualify is left out
    unless the limit is reached; when the cache is in use the records shown
    are newest first and no two share an id. *)
Theorem activities_command_output `{Runtime} (api : Api)
  (start end_ : option string) (limit : Z) (all_types no_cache : bool)
  (s : state) (result : listing) (s' : state) :
  cmd_activities api start end_ limit all_types no_cache s = Ret result s' ->
  let shown := Z.of_nat (List.length (rows result)) in
  total result = shown /\
  (0 <= limit -> shown <= limit) /\
  (all_types = false -> forall a, In a (rows result) -> is_run a = true) /\
  (no_cache = false ->
   descending "sign_date" (rows result) /\ distinct_keys "id" (rows result)) /\
  exists data,
    fetch_activities api start end_ None no_cache s = Ret data s' /\
    (forall a, In a (rows result) -> In a (rows data)) /\
    (0 <= limit -> shown < limit ->
     forall a, In a (rows data) -> all_types = true \/ is_run a = true ->
               In a (rows result)).
Proof.
  intros E shown. unfold cmd_activities in E.
  apply bind_Ret in E as (data & s1 & Hf & E).
  inversion E. subst s1 result. clear E. subst shown. simpl.
  set (list := if negb all_types then filter is_run (rows data)
               else rows data).
  assert (Hsub : forall a, In a list -> In a (rows data)).
  { subst list. destruct all_types; simpl; auto.
    intros a Ha. now apply filter_In in Ha. }
  split; [reflexivity|]. split; [|split; [|split]].
  - intros Hl. unfold slice_to.
    destruct (limit <? 0) eqn:En; [lia|].
    rewrite length_firstn. lia.
  - intros -> a Ha. apply In_slice_to in Ha. subst list. simpl in Ha.
    now apply filter_In in Ha.
  - intros ->. destruct (fetch_activities_all _ _ _ _ _ _ Hf) as [Hd Hn].
    split.
    + apply ordered_slice_to. subst list.
      destruct all_types; simpl; auto. now apply ordered_filter.
    + apply distinct_keys_of_rid. rewrite slice_to_map.
      apply NoDup_slice_to. subst list.
      destruct all_types; simpl; auto. now apply NoDup_map_filter.
  - exists data. split; [exact Hf|]. split.
    + intros a Ha. apply Hsub. now apply In_slice_to in Ha.
    + intros Hl Hshort a Ha Hq.
      assert (Hall : slice_to limit list = list).
      { unfold slice_to in *. destruct (limit <? 0) eqn:En; [lia|].
        apply firstn_short. lia. }
      rewrite Hall. subst list. destruct all_types; simpl; auto.
      destruct Hq as [Hq|Hq]; [discriminate|].
      apply filter_In. now split.
Qed.

Lemma activities_command_output_witness :
  exists result s',
    cmd_activities (H := SampleRuntime.march_2024) api_down
      (Some "2023-11-01") (Some "2024-03-01") 10 false false mixed_cached
    = Ret result s' /\
    total result = 2 /\
    (forall a, In a (rows result) -> is_run a = true) /\
    descending (H := SampleRuntime.march_2024) "sign_date" (rows result).
Proof.
  destruct (cmd_activities (H := SampleRuntime.march_2024) api_down
              (Some "2023-11-01") (Some "2024-03-01") 10 false false
              mixed_cached)
    as [result s'|e s'] eqn:E; [|vm_compute in E; discriminate].
  exists result, s'. split; [reflexivity|].
  destruct (activities_command_output (H := SampleRuntime.march_2024)
              api_down (Some "2023-11-01") (Some "2024-03-01") 10 false false
              mixed_cached result s' E)
    as (Ht & _ & Hr & Hd & _).
  split; [|split].
  - vm_compute in E. inversion E. reflexivity.
  - now apply Hr.
  - now apply Hd.
Defined.

End CommandsFacts.

(* ------------------------------------------------------------------ *)
(** ** Requests of the API client *)

Module ClientFacts.
Import Py Client.

Section Facts.
Context `{Network}.

Lemma range_3 : range 3 = [0; 1; 2].
Proof. reflexivity. Qed.

(** Waiting for the rate limit reads the clock once, may print and sleep,
    and does nothing else: it sends nothing and does not raise. *)
Lemma wait_for_rate_limit_Ok path w :
  exists w0,
    _wait_for_rate_limit path w = Ok tt w0 /\
    requests w0 = requests w /\
    _last_call w0 = _last_call w /\
    time_reads w0 = S (time_reads w).
Proof.
  unfold _wait_for_rate_limit, bind, last_call, time_time. simpl.
  match goal with |- context [if ?c then _ else _] => destruct c end.
  - match goal with |- context [if ?c then _ else _] => destruct c end;
      simpl; eexists; repeat split.
  - simpl. eexists. repeat split.
Qed.

(** One pass of the loop: a 429 with attempts to spare is retried, any
    other reply settles the request. *)
Lemma request_loop_step method path kw attempt rest w :
  let req := mkRequest method (BASE_URL ++ path) kw in
  let r := session_request (List.length (requests w)) req in
  request_loop method path kw 3 (attempt :: rest) w
  = if is_429 r && (attempt <? 2)
    then request_loop method path kw 3 rest (retried path req attempt w)
    else settle path req r w.
Proof.
  intros req r. subst r. cbn [request_loop]. fold req.
  unfold bind at 1. unfold session_send.
  destruct (session_request (List.length (requests w)) req) as [resp|];
    cbn [is_429 andb settle]; [|reflexivity].
  unfold bind at 1. unfold time_time.
  unfold bind at 1. unfold set_last_call.
  cbn [requests time_reads _last_call sleeps notices].
  fold (answered path req w).
  destruct (status_code resp =? 429) eqn:E429; cbn [andb].
  - change (3 - 1) with 2.
    destruct (attempt <? 2).
    + reflexivity.
    + apply Z.eqb_eq in E429. unfold bind, raise_for_status.
      rewrite E429. reflexivity.
  - unfold bind, raise_for_status.
    destruct ((400 <=? status_code resp) && (status_code resp <? 600));
      [reflexivity|].
    unfold resp_json. destruct (body resp); reflexivity.
Qed.

Lemma settle_requests path req r w :
  requests (after (settle path req r w)) = (requests w ++ [req])%list.
Proof.
  unfold settle. destruct r as [resp|]; [|reflexivity].
  destruct ((400 <=? status_code resp) && (status_code resp <? 600));
    [reflexivity|].
  destruct (body resp); reflexivity.
Qed.

(** What a settled request returns is the decoded body of the reply, and
    the reply has no error status. *)
Lemma settle_Ok path req r w j w' :
  settle path req r w = Ok j w' ->
  exists resp,
    r = Response resp /\ body resp = Some j /\
    (400 <=? status_code resp) && (status_code resp <? 600) = false.
Proof.
  unfold settle. destruct r as [resp|]; [|discriminate].
  destruct ((400 <=? status_code resp) && (status_code resp <? 600)) eqn:Es;
    [discriminate|].
  destruct (body resp) as [j'|] eqn:Eb; [|discriminate].
  intros E. inversion E. subst j'. exists resp. now repeat split.
Qed.

(** The loop of [_request], pass by pass. *)
Lemma request_loop_cases method path kw w :
  let req := mkRequest method (BASE_URL ++ path) kw in
  let n := List.length (requests w) in
  let w1 := retried path req 0 w in
  let w2 := retried path req 1 w1 in
  request_loop method path kw 3 [0; 1; 2] w
  = if is_429 (session_request n req) then
      if is_429 (session_request (n + 1) req) then
        settle path req (session_request (n + 2) req) w2
      else settle path req (session_request (n + 1) req) w1
    else settle path req (session_request n req) w.
Proof.
  intros req n w1 w2. rewrite request_loop_step. fold req n.
  destruct (is_429 (session_request n req)); cbn [andb Z.ltb Z.compare];
    [|reflexivity].
  fold w1. rewrite request_loop_step. fold req.
  assert (Hn1 : List.length (requests w1) = (n + 1)%nat).
  { subst w1 n. unfold retried, answered. cbn [requests].
    rewrite length_app. reflexivity. }
  rewrite Hn1.
  destruct (is_429 (session_request (n + 1) req));
    cbn [andb Z.ltb Z.compare Pos.compare Pos.compare_cont]; [|reflexivity].
  fold w2. rewrite request_loop_step. fold req.
  assert (Hn2 : List.length (requests w2) = (n + 2)%nat).
  { subst w2. unfold retried, answered. cbn [requests].
    rewrite length_app, Hn1. cbn [List.length]. lia. }
  rewrite Hn2. rewrite andb_false_r. reflexivity.
Qed.

(** [_request] as a whole: the wait for the rate limit, then the loop. *)
Lemma request_outcome method path kw w :
  let req := mkRequest method (BASE_URL ++ path) kw in
  exists w0,
    _wait_for_rate_limit path w = Ok tt w0 /\
    requests w0 = requests w /\
    time_reads w0 = S (time_reads w) /\
    _request method path kw w
    = if is_429 (reply_at w 0 req) then
        if is_429 (reply_at w 1 req) then
          settle path req (reply_at w 2 req)
            (retried path req 1 (retried path req 0 w0))
        else settle path req (reply_at w 1 req) (retried path req 0 w0)
      else settle path req (reply_at w 0 req) w0.
Proof.
  intros req.
  destruct (wait_for_rate_limit_Ok path w) as (w0 & Hw & Hr & _ & Ht).
  exists w0. split; [exact Hw|]. split; [exact Hr|]. split; [exact Ht|].
  unfold _request, bind. rewrite Hw. rewrite range_3.
  rewrite request_loop_cases. fold req. unfold reply_at.
  rewrite Hr, Nat.add_0_r. reflexivity.
Qed.

Lemma requests_retried path req attempt w :
  requests (retried path req attempt w) = (requests w ++ [req])%list.
Proof. reflexivity. Qed.

(** The requests of one [_request]: one to three, all the same. *)
Lemma request_sent method path kw w :
  let req := mkRequest method (BASE_URL ++ path) kw in
  exists k, (1 <= k <= 3)%nat /\
    requests (after (_request method path kw w))
    = (requests w ++ repeat req k)%list.
Proof.
  intros req.
  destruct (request_outcome method path kw w) as (w0 & _ & Hr & _ & E).
  fold req in E. rewrite E. clear E.
  destruct (is_429 (reply_at w 0 req));
    [destruct (is_429 (reply_at w 1 req))|].
  - exists 3%nat. split; [lia|].
    rewrite settle_requests, !requests_retried, Hr, <- !app_assoc.
    reflexivity.
  - exists 2%nat. split; [lia|].
    rewrite settle_requests, !requests_retried, Hr, <- !app_assoc.
    reflexivity.
  - exists 1%nat. split; [lia|].
    rewrite settle_requests, Hr. reflexivity.
Qed.

(** What [_request] returns is the decoded body of a reply to one of its
    three requests, a reply without an error status. *)
Lemma request_returns method path kw w j w' :
  let req := mkRequest method (BASE_URL ++ path) kw in
  _request method path kw w = Ok j w' ->
  exists k resp,
    (k < 3)%nat /\
    reply_at w k req = Response resp /\ body resp = Some j /\
    (400 <=? status_code resp) && (status_code resp <? 600) = false.
Proof.
  intros req E.
  destruct (request_outcome method path kw w) as (w0 & _ & _ & _ & Eo).
  fold req in Eo. rewrite Eo in E. clear Eo.
  destruct (is_429 (reply_at w 0 req));
    [destruct (is_429 (reply_at w 1 req))|];
    apply settle_Ok in E as (resp & Hr & Hb & Hs).
  - exists 2%nat, resp. repeat split; auto.
  - exists 1%nat, resp. repeat split; auto.
  - exists 0%nat, resp. repeat split; auto; lia.
Qed.

End Facts.

(** X25. One [_request] hands the session the same request one to three
    times: it goes on to the next attempt only after a response with status
    429, and stops at the first other reply or at the third attempt. That
    last reply decides the outcome: no response raises the session's
    exception, a status from 400 to 599 (a third 429 included) raises
    [HTTPError], and otherwise the decoded body is returned, or the decoding
    error raised. So what the method returns is always the decoded body of
    that last reply (Python's [None] only when the body is [null]): the loop
    is never left without a [return] or an exception. *)
Theorem request_retries_only_429 `{Network} (method path : string)
  (kw : kwargs) (w : world) :
  let req := mkRequest method (BASE_URL ++ path) kw in
  exists (k : nat) (w1 : world),
    (1 <= k <= 3)%nat /\
    (forall i, (i < k - 1)%nat -> is_429 (reply_at w i req) = true) /\
    (is_429 (reply_at w (k - 1) req) = true -> k = 3%nat) /\
    requests w1 = (requests w ++ repeat req (k - 1))%list /\
    _request method path kw w = settle path req (reply_at w (k - 1) req) w1 /\
    requests (after (_request method path kw w))
    = (requests w ++ repeat req k)%list /\
    forall j w', _request method path kw w = Ok j w' ->
      exists resp,
        reply_at w (k - 1) req = Response resp /\ body resp = Some j /\
        (400 <=? status_code resp) && (status_code resp <? 600) = false.
Proof.
  intros req.
  destruct (request_outcome method path kw w) as (w0 & _ & Hr & _ & E).
  fold req in E.
  destruct (is_429 (reply_at w 0 req)) eqn:E0;
    [destruct (is_429 (reply_at w 1 req)) eqn:E1|].
  - exists 3%nat, (retried path req 1 (retried path req 0 w0)).
    cbn [Nat.sub]. split; [lia|]. split; [|split; [|split; [|split]]].
    + intros i Hi. assert (Hc : i = 0%nat \/ i = 1%nat) by lia.
      destruct Hc as [-> | ->]; assumption.
    + reflexivity.
    + rewrite !requests_retried, Hr, <- app_assoc. reflexivity.
    + exact E.
    + rewrite E. split; [|intros j w' Ej; now apply settle_Ok in Ej].
      rewrite settle_requests, !requests_retried, Hr, <- !app_assoc.
      reflexivity.
  - exists 2%nat, (retried path req 0 w0).
    cbn [Nat.sub]. split; [lia|]. split; [|split; [|split; [|split]]].
    + intros i Hi. assert (Hc : i = 0%nat) by lia. now subst i.
    + congruence.
    + rewrite requests_retried, Hr. reflexivity.
    + exact E.
    + rewrite E. split; [|intros j w' Ej; now apply settle_Ok in Ej].
      rewrite settle_requests, !requests_retried, Hr, <- !app_assoc.
      reflexivity.
  - exists 1%nat, w0.
    cbn [Nat.sub]. split; [lia|]. split; [|split; [|split; [|split]]].
    + intros i Hi. lia.
    + congruence.
    + rewrite Hr. cbn [repeat]. now rewrite app_nil_r.
    + exact E.
    + rewrite E. split; [|intros j w' Ej; now apply settle_Ok in Ej].
      rewrite settle_requests, Hr. reflexivity.
Qed.

Lemma request_retries_only_429_witness :
  exists w',
    _request (H := busy_once) "GET" "/plans" (Params []) idle = Ok None w' /\
    List.length (requests w') = 2%nat.
Proof.
  destruct (request_retries_only_429 (H := busy_once) "GET" "/plans"
              (Params []) idle)
    as (k & w1 & Hk & H429 & Hlast & Hw1 & E & Hsent & _).
  assert (Hk2 : k = 2%nat).
  { destruct k as [|[|[|k]]]; [lia| | reflexivity |].
    - specialize (Hlast eq_refl). discriminate.
    - specialize (H429 1%nat ltac:(lia)). discriminate. }
  subst k. cbn [Nat.sub] in *.
  exists (after (_request (H := busy_once) "GET" "/plans" (Params []) idle)).
  split.
  - rewrite E. reflexivity.
  - rewrite Hsent. reflexivity.
Defined.

(** X26. A server that answers 429 three times makes [_request] give up:
    it raises [HTTPError] for the 429 after exactly three requests, having
    announced two retries and slept twice in between, each time for 121
    seconds on [/activity] and for 60 seconds on any other path; the time of
    the last response is the one noted for the path. *)
Theorem request_gives_up_after_three_429 `{Network} (method path : string)
  (kw : kwargs) (w : world) :
  let req := mkRequest method (BASE_URL ++ path) kw in
  let wait := if String.eqb path "/activity" then 121 else 60 in
  (forall i, (i < 3)%nat -> is_429 (reply_at w i req) = true) ->
  exists w',
    _request method path kw w = Err (HTTPError 429) w' /\
    requests w' = (requests w ++ [req; req; req])%list /\
    (let w0 := after (_wait_for_rate_limit path w) in
     sleeps w' = (sleeps w0 ++ [of_int wait; of_int wait])%list /\
     notices w'
     = (notices w0 ++ [NoticeRetrying path wait 1 3;
                       NoticeRetrying path wait 2 3])%list) /\
    get String.eqb path (_last_call w') = Some (time (time_reads w + 3)) /\
    time_reads w' = (time_reads w + 4)%nat.
Proof.
  intros req wait H429.
  destruct (request_outcome method path kw w) as (w0 & Hw & Hr & Ht & E).
  fold req in E.
  rewrite (H429 0%nat), (H429 1%nat) in E by lia.
  pose proof (H429 2%nat ltac:(lia)) as H2.
  destruct (reply_at w 2 req) as [resp|] eqn:E2; [|discriminate].
  cbn [is_429] in H2. apply Z.eqb_eq in H2.
  unfold settle in E. rewrite H2 in E. cbn in E.
  assert (Hwait : retry_wait path = wait).
  { subst wait. unfold retry_wait, RATE_LIMITS. cbn [get].
    now destruct (String.eqb path "/activity"). }
  eexists. split; [exact E|].
  rewrite Hw. cbn [after].
  unfold answered, retried, answered.
  cbn [requests time_reads _last_call sleeps notices].
  rewrite Hwait, Hr, Ht, <- !app_assoc.
  split; [reflexivity|]. split; [split; reflexivity|]. split.
  - rewrite CacheFacts.get_set_same. do 2 f_equal. lia.
  - lia.
Qed.

Lemma request_gives_up_after_three_429_witness :
  exists w',
    _request (H := busy) "GET" "/activity" (Params []) idle
    = Err (HTTPError 429) w' /\
    List.length (requests w') = 3%nat /\
    sleeps w' = [1210; 1210].
Proof.
  destruct (request_gives_up_after_three_429 (H := busy) "GET" "/activity"
              (Params []) idle)
    as (w' & E & Hr & (Hs & _) & _).
  - intros i Hi. reflexivity.
  - exists w'. split; [exact E|]. split.
    + rewrite Hr. reflexivity.
    + rewrite Hs. reflexivity.
Defined.

(** X27. Every method of the client sends at most three requests, all
    of them to the method's own path, and no request carries more than 200
    plans: [push_plans] with more than 200 plans raises [ValueError] before
    anything is sent, noted, printed or slept. What a method returns is the
    decoded body of a reply to one of its three requests, a reply whose
    status is not from 400 to 599 (Python's [None] only when that body is
    [null]). *)
Theorem api_methods_send_at_most_three `{Network} (c : api_call)
  (w : world) :
  (exists sent,
     requests (after (invoke c w)) = (requests w ++ sent)%list /\
     (List.length sent <= 3)%nat /\
     forall req, In req sent ->
                 url req = BASE_URL ++ path_of c /\ small_push req) /\
  (forall plans, c = PushPlans plans ->
     (200 < List.length plans)%nat ->
     invoke c w = Err (TooManyPlans (List.length plans)) w) /\
  forall j w', invoke c w = Ok j w' ->
    exists k req resp,
      (k < 3)%nat /\ url req = BASE_URL ++ path_of c /\
      reply_at w k req = Response resp /\ body resp = Some j /\
      (400 <=? status_code resp) && (status_code resp <? 600) = false.
Proof.
  assert (Hreq : forall method path kw,
             small_push (mkRequest method (BASE_URL ++ path) kw) ->
             (exists sent,
                requests (after (_request method path kw w))
                = (requests w ++ sent)%list /\
                (List.length sent <= 3)%nat /\
                forall req, In req sent ->
                            url req = BASE_URL ++ path /\ small_push req) /\
             forall j w', _request method path kw w = Ok j w' ->
               exists k req resp,
                 (k < 3)%nat /\ url req = BASE_URL ++ path /\
                 reply_at w k req = Response resp /\ body resp = Some j /\
                 (400 <=? status_code resp) && (status_code resp <? 600)
                 = false).
  { intros method path kw Hsmall.
    destruct (request_sent method path kw w) as (k & Hk & Hsent).
    split.
    - eexists. split; [exact Hsent|]. split.
      + rewrite repeat_length. lia.
      + intros req Hin. apply repeat_spec in Hin. subst req. now split.
    - intros j w' E.
      apply request_returns in E as (i & resp & Hi & Hr & Hb & Hs).
      exists i, (mkRequest method (BASE_URL ++ path) kw), resp.
      repeat split; auto. }
  destruct c as [start_date end_date page limit order|start game_id
                |start end_|plans]; cbn [invoke path_of].
  - destruct (Hreq "GET" "/activity"
                (Params
                   (set_if (truthy end_date) "end_date" end_date
                      (set_if (truthy start_date) "start_date" start_date
                         [("page", page); ("limit", limit);
                          ("order_by", VStr "sign_date");
                          ("order", order)]))) I) as [Hs Hn].
    split; [exact Hs|]. split; [discriminate|exact Hn].
  - destruct (Hreq "GET" "/plans"
                (Params
                   (set_if (match game_id with VNone => false | _ => true end)
                      "game_id" game_id
                      (set_if (truthy start) "start" start []))) I)
      as [Hs Hn].
    split; [exact Hs|]. split; [discriminate|exact Hn].
  - destruct (Hreq "GET" "/feedback"
                (Params [("start", start); ("end", end_)]) I) as [Hs Hn].
    split; [exact Hs|]. split; [discriminate|exact Hn].
  - unfold push_plans.
    destruct (200 <? Z.of_nat (List.length plans)) eqn:Ebig.
    + split; [|split].
      * exists []. cbn [after raise]. rewrite app_nil_r.
        split; [reflexivity|]. split; [cbn; lia|intros req []].
      * intros plans' Hp _. inversion Hp. subst plans'. reflexivity.
      * intros j w'. discriminate.
    + assert (Hsmall : small_push
                         (mkRequest "POST" (BASE_URL ++ "/plans/push")
                            (Json plans))).
      { unfold small_push. cbn [payload]. lia. }
      destruct (Hreq "POST" "/plans/push" (Json plans) Hsmall) as [Hs Hn].
      split; [exact Hs|]. split; [|exact Hn].
      intros plans' Hp Hbig. inversion Hp. subst plans'. lia.
Qed.

End ClientFacts.

(* ------------------------------------------------------------------ *)
(** ** Cache statistics *)

Module StatisticsFacts.
Import Py Ranges Cache Spec Notions Samples CacheFacts.
Import Coverage Durability DurabilityFacts OfflineFacts InvariantFacts.
Import Statistics.

Lemma only_loads_refl s : only_loads s s.
Proof. split; [apply served_refl|reflexivity]. Qed.

Lemma only_loads_trans a b c :
  only_loads a b -> only_loads b c -> only_loads a c.
Proof.
  intros [H1 H2] [H1' H2']. split; [eapply served_trans; eauto|congruence].
Qed.

Lemma only_loads_load name : steps only_loads (_load name).
Proof.
  intros s. split; [apply served_load|].
  rewrite load_state. reflexivity.
Qed.

Section Pure.
Context `{Runtime}.

Lemma less_than_pure a b : steps eq (less_than a b).
Proof. intros s. unfold less_than. now destruct (lt_value a b). Qed.

Lemma ts_to_date_pure ts : steps eq (_ts_to_date ts).
Proof.
  unfold _ts_to_date.
  apply (steps_bind eq eq_trans_state); [apply steps_int; auto|].
  intros t. apply (steps_bind eq eq_trans_state);
    [apply steps_fromtimestamp; auto|].
  intros d. now apply steps_ret.
Qed.

Lemma date_of_pure name rec : steps eq (date_of name rec).
Proof.
  assert (Hts : forall v,
             steps eq (d <- _ts_to_date v ;; ret (Some (VStr d)))).
  { intros v. apply (steps_bind eq eq_trans_state);
      [apply ts_to_date_pure|]. intros d. now apply steps_ret. }
  unfold date_of.
  repeat match goal with
         | |- steps eq (if ?c then _ else _) => destruct c
         | |- steps eq (ret _) => now apply steps_ret
         | |- _ => apply Hts
         end.
Qed.

Lemma collect_dates_pure name recs : steps eq (collect_dates name recs).
Proof.
  unfold collect_dates. apply steps_foldM; auto; [apply eq_trans_state|].
  intros dates rec. apply (steps_bind eq eq_trans_state);
    [apply date_of_pure|]. intros d. now apply steps_ret.
Qed.

Lemma py_min_pure first rest : steps eq (py_min first rest).
Proof.
  unfold py_min. apply steps_foldM; auto; [apply eq_trans_state|].
  intros best item. apply (steps_bind eq eq_trans_state);
    [apply less_than_pure|]. intros c. now apply steps_ret.
Qed.

Lemma py_max_pure first rest : steps eq (py_max first rest).
Proof.
  unfold py_max. apply steps_foldM; auto; [apply eq_trans_state|].
  intros best item. apply (steps_bind eq eq_trans_state);
    [apply less_than_pure|]. intros c. now apply steps_ret.
Qed.

Lemma range_of_pure dates : steps eq (range_of dates).
Proof.
  unfold range_of. destruct dates as [|first rest]; [now apply steps_ret|].
  apply (steps_bind eq eq_trans_state); [apply py_min_pure|]. intros lo.
  apply (steps_bind eq eq_trans_state); [apply py_max_pure|]. intros hi.
  now apply steps_ret.
Qed.

Lemma pure_only_loads {A} (m : M A) : steps eq m -> steps only_loads m.
Proof. intros Hm s. rewrite <- (Hm s). apply only_loads_refl. Qed.

Lemma stats_entry_only_loads name : steps only_loads (stats_entry name).
Proof.
  intros s. unfold stats_entry.
  destruct (get String.eqb name (disk s)) as [f|];
    [|apply only_loads_refl].
  revert s.
  apply (steps_bind only_loads only_loads_trans); [apply only_loads_load|].
  intros store. apply pure_only_loads.
  apply (steps_bind eq eq_trans_state); [apply collect_dates_pure|].
  intros dates. apply (steps_bind eq eq_trans_state); [apply range_of_pure|].
  intros range. now apply steps_ret.
Qed.

Lemma stats_only_loads : steps only_loads stats.
Proof.
  unfold stats.
  apply (steps_foldM only_loads only_loads_refl only_loads_trans).
  intros result name.
  apply (steps_bind only_loads only_loads_trans);
    [apply stats_entry_only_loads|].
  intros i. apply steps_ret. apply only_loads_refl.
Qed.

End Pure.

(** *** The order on dates *)

Lemma lt_value_self a b c : lt_value a b = Some c -> lt_value a a = Some false.
Proof.
  destruct a as [| [|] |m|x], b as [| [|] |n|y]; simpl; try discriminate;
    intros _; try (now rewrite Z.ltb_irrefl); f_equal;
    StrOrdFacts.solve_order.
Qed.

Lemma lt_value_below d best item :
  lt_value d best = Some false -> lt_value item best = Some true ->
  lt_value d item = Some false.
Proof.
  destruct d as [| [|] |k|z], best as [| [|] |n|y], item as [| [|] |m|x];
    simpl; try discriminate; intros Hd Hi;
    inversion Hd; inversion Hi; f_equal; try lia;
    StrOrdFacts.solve_order.
Qed.

Lemma lt_value_above d best item :
  lt_value best d = Some false -> lt_value best item = Some true ->
  lt_value item d = Some false.
Proof.
  destruct d as [| [|] |k|z], best as [| [|] |n|y], item as [| [|] |m|x];
    simpl; try discriminate; intros Hd Hi;
    inversion Hd; inversion Hi; f_equal; try lia;
    StrOrdFacts.solve_order.
Qed.

Section Results.
Context `{Runtime}.

Lemma less_than_Ret a b s c s' :
  less_than a b s = Ret c s' -> s' = s /\ lt_value a b = Some c.
Proof.
  unfold less_than. destruct (lt_value a b); [|discriminate].
  intros E. inversion E. now split.
Qed.

Lemma ts_to_date_Ret ts s d s' :
  _ts_to_date ts s = Ret d s' -> s' = s /\ day_of ts = Some d.
Proof.
  unfold _ts_to_date. intros E.
  apply bind_Ret in E as (t & s1 & Et & E). apply int_Ret in Et as [-> Ht].
  apply bind_Ret in E as (d' & s2 & Ed & E).
  unfold fromtimestamp in Ed.
  destruct ((t <? - 2 ^ 63) || (2 ^ 63 <=? t)); [discriminate|].
  destruct ((datetime_min <=? t) && (t <=? datetime_max)) eqn:R;
    [|discriminate].
  inversion Ed. subst d' s2. inversion E. subst d s'.
  split; [reflexivity|]. unfold day_of. now rewrite Ht, R.
Qed.

Lemma date_of_Ret name rec s d s' :
  date_of name rec s = Ret d s' -> s' = s /\ dated name rec = d.
Proof.
  assert (Hts : forall v,
             (d0 <- _ts_to_date v ;; ret (Some (VStr d0))) s = Ret d s' ->
             s' = s /\ option_map VStr (day_of v) = d).
  { intros v E. apply bind_Ret in E as (d0 & s1 & E0 & E).
    apply ts_to_date_Ret in E0 as [-> Hd]. inversion E. subst.
    rewrite Hd. now split. }
  unfold date_of, dated.
  destruct (String.eqb name "activities").
  { destruct (truthy (field_or "sign_date" VNone rec)); [apply Hts|].
    intros E. inversion E. now split. }
  destruct (String.eqb name "plans").
  { destruct (truthy (field_or "start" VNone rec));
      intros E; inversion E; now split. }
  destruct (String.eqb name "feedback").
  { destruct (truthy (field_or "created_time" VNone rec)); [apply Hts|].
    intros E. inversion E. now split. }
  intros E. inversion E. now split.
Qed.

Lemma collect_Ret name recs :
  forall acc s dates s',
    foldM (fun dates rec =>
             d <- date_of name rec ;;
             ret (match d with
                  | Some v => (dates ++ [v])%list
                  | None => dates
                  end))
          acc recs s = Ret dates s' ->
    s' = s /\ dates = (acc ++ dates_in name recs)%list.
Proof.
  induction recs as [|rec recs IH]; intros acc s dates s' E.
  - inversion E. subst. simpl. now rewrite app_nil_r.
  - cbn [foldM] in E. apply bind_Ret in E as (acc' & s1 & E1 & E).
    apply bind_Ret in E1 as (d & s0 & Ed & E1).
    apply date_of_Ret in Ed as [-> Hd]. inversion E1. subst acc' s1.
    apply IH in E as [-> ->]. split; [reflexivity|].
    cbn [dates_in flat_map]. fold (dates_in name recs). rewrite Hd.
    destruct d; [now rewrite <- app_assoc|reflexivity].
Qed.

Lemma dated_self name rec d :
  dated name rec = Some d -> lt_value d d = Some false.
Proof.
  assert (Hday : forall v, option_map VStr (day_of v) = Some d ->
                           lt_value d d = Some false).
  { intros v Hv. destruct (day_of v); [|discriminate]. inversion Hv.
    simpl. f_equal. StrOrdFacts.solve_order. }
  unfold dated.
  destruct (String.eqb name "activities").
  { destruct (truthy (field_or "sign_date" VNone rec));
      [apply Hday|discriminate]. }
  destruct (String.eqb name "plans").
  { destruct (field_or "start" VNone rec) as [|b|n|x]; cbn [truthy].
    - discriminate.
    - destruct b; intros E; inversion E; reflexivity.
    - destruct (negb (n =? 0)); intros E; inversion E.
      simpl. now rewrite Z.ltb_irrefl.
    - destruct (negb (String.eqb x "")); intros E; inversion E.
      simpl. f_equal. StrOrdFacts.solve_order. }
  destruct (String.eqb name "feedback").
  { destruct (truthy (field_or "created_time" VNone rec));
      [apply Hday|discriminate]. }
  discriminate.
Qed.

Lemma dates_in_self name recs d :
  In d (dates_in name recs) -> lt_value d d = Some false.
Proof.
  unfold dates_in. rewrite in_flat_map. intros (rec & _ & Hd).
  destruct (dated name rec) as [d'|] eqn:E; [|destruct Hd].
  destruct Hd as [<-|[]]. eapply dated_self; eauto.
Qed.

(** [min]: the result is an item of the list, and no item is less. *)
Lemma py_min_Ret rest :
  forall best seen s lo s',
    py_min best rest s = Ret lo s' ->
    In best seen ->
    (forall d, In d seen -> lt_value d best = Some false) ->
    s' = s /\ In lo (seen ++ rest) /\
    forall d, In d (seen ++ rest) -> lt_value d lo = Some false.
Proof.
  unfold py_min.
  induction rest as [|item rest IH]; intros best seen s lo s' E Hin Hall.
  - inversion E. subst. rewrite app_nil_r. auto.
  - cbn [foldM] in E. apply bind_Ret in E as (best' & s1 & E1 & E).
    apply bind_Ret in E1 as (c & s0 & Ec & E1).
    apply less_than_Ret in Ec as [-> Hc]. inversion E1. subst best' s1.
    replace (seen ++ item :: rest)%list with ((seen ++ [item]) ++ rest)%list
      by now rewrite <- app_assoc.
    apply (IH _ _ _ _ _ E).
    + destruct c; apply in_or_app; [right; now left|now left].
    + intros d Hd. apply in_app_or in Hd as [Hd|[<-|[]]].
      * destruct c; [|now apply Hall].
        eapply lt_value_below; [now apply Hall|exact Hc].
      * destruct c; [|exact Hc]. eapply lt_value_self; eauto.
Qed.

(** [max]: the result is an item of the list, and is less than none. *)
Lemma py_max_Ret rest :
  forall best seen s hi s',
    py_max best rest s = Ret hi s' ->
    In best seen ->
    (forall d, In d seen -> lt_value best d = Some false) ->
    s' = s /\ In hi (seen ++ rest) /\
    forall d, In d (seen ++ rest) -> lt_value hi d = Some false.
Proof.
  unfold py_max.
  induction rest as [|item rest IH]; intros best seen s hi s' E Hin Hall.
  - inversion E. subst. rewrite app_nil_r. auto.
  - cbn [foldM] in E. apply bind_Ret in E as (best' & s1 & E1 & E).
    apply bind_Ret in E1 as (c & s0 & Ec & E1).
    apply less_than_Ret in Ec as [-> Hc]. inversion E1. subst best' s1.
    replace (seen ++ item :: rest)%list with ((seen ++ [item]) ++ rest)%list
      by now rewrite <- app_assoc.
    apply (IH _ _ _ _ _ E).
    + destruct c; apply in_or_app; [right; now left|now left].
    + intros d Hd. apply in_app_or in Hd as [Hd|[<-|[]]].
      * destruct c; [|now apply Hall].
        eapply lt_value_above; [now apply Hall|exact Hc].
      * destruct c.
        -- destruct best as [| [|] |n|y], item as [| [|] |m|x];
             simpl in Hc |- *; try discriminate;
             try (now rewrite Z.ltb_irrefl); f_equal;
             StrOrdFacts.solve_order.
        -- destruct best as [| [|] |n|y], item as [| [|] |m|x];
             simpl in Hc |- *; try discriminate; inversion Hc;
             f_equal; try lia; StrOrdFacts.solve_order.
Qed.

Lemma range_of_Ret dates s range s' :
  range_of dates s = Ret range s' ->
  (forall d, In d dates -> lt_value d d = Some false) ->
  s' = s /\
  match dates with
  | [] => range = None
  | _ =>
      exists lo hi,
        In lo dates /\ In hi dates /\
        range = Some (str lo ++ " .. " ++ str hi) /\
        forall d, In d dates ->
                  lt_value d lo = Some false /\ lt_value hi d = Some false
  end.
Proof.
  unfold range_of. destruct dates as [|first rest]; intros E Hself.
  - inversion E. now split.
  - apply bind_Ret in E as (lo & s1 & Elo & E).
    apply bind_Ret in E as (hi & s2 & Ehi & E).
    assert (H1 : In first [first]) by now left.
    assert (H2 : forall d, In d [first] -> lt_value d first = Some false).
    { intros d [<-|[]]. apply Hself. now left. }
    assert (H3 : forall d, In d [first] -> lt_value first d = Some false).
    { intros d [<-|[]]. apply Hself. now left. }
    destruct (py_min_Ret _ _ _ _ _ _ Elo H1 H2) as (-> & Hlo & Hmin).
    destruct (py_max_Ret _ _ _ _ _ _ Ehi H1 H3) as (-> & Hhi & Hmax).
    inversion E. subst range s'. split; [reflexivity|].
    exists lo, hi. repeat split; auto.
Qed.

Lemma stats_entry_Ret name s i s' :
  stats_entry name s = Ret i s' ->
  match get String.eqb name (disk s) with
  | None => i = no_info /\ s' = s
  | Some f => describes name f (values (records (loaded name s))) i
  end.
Proof.
  unfold stats_entry. destruct (get String.eqb name (disk s)) as [f|].
  - intros E. apply bind_Ret in E as (store & s1 & El & E).
    rewrite load_Ret in El. inversion El. subst store. clear El.
    apply bind_Ret in E as (dates & s2 & Ed & E).
    apply collect_Ret in Ed as [-> Hd]. simpl in Hd. subst dates.
    apply bind_Ret in E as (range & s3 & Er & E).
    apply range_of_Ret in Er as [-> Hr]; [|apply dates_in_self].
    inversion E. subst i s'. unfold describes.
    cbn [records_count sized date_range].
    split; [unfold values; now rewrite length_map|].
    split; [reflexivity|].
    destruct (dates_in name (values (records (loaded name s))));
      split; congruence.
  - intros E. inversion E. now split.
Qed.

Lemma stats_Ret s result s' :
  stats s = Ret result s' ->
  exists i1 s1 i2 s2 i3,
    stats_entry "activities" s = Ret i1 s1 /\
    stats_entry "plans" s1 = Ret i2 s2 /\
    stats_entry "feedback" s2 = Ret i3 s' /\
    result = [("activities", i1); ("plans", i2); ("feedback", i3)].
Proof.
  unfold stats, store_names. cbn [foldM]. intros E.
  apply bind_Ret in E as (r1 & s1 & E1 & E).
  apply bind_Ret in E1 as (i1 & s1' & E1 & R1). inversion R1. subst r1 s1'.
  apply bind_Ret in E as (r2 & s2 & E2 & E).
  apply bind_Ret in E2 as (i2 & s2' & E2 & R2). inversion R2. subst r2 s2'.
  apply bind_Ret in E as (r3 & s3 & E3 & E).
  apply bind_Ret in E3 as (i3 & s3' & E3 & R3). inversion R3. subst r3 s3'.
  inversion E. subst result s3.
  exists i1, s1, i2, s2, i3. repeat split; auto.
Qed.

End Results.

(** X28. [stats] only reads: whether it returns or raises, the documents
    on disk and every store as [_load] returns it are as before, and no call
    was made to the collaborator, nothing printed and the clock not read. *)
Theorem stats_only_reads `{Runtime} (s : state) :
  let s' := final_state (stats s) in
  disk s' = disk s /\
  (forall name, loaded name s' = loaded name s) /\
  api_calls s' = api_calls s /\
  stderr s' = stderr s /\
  clock_reads s' = clock_reads s.
Proof.
  intros s'. destruct (stats_only_loads s) as ((Ha & He & Hd & Hl) & Hc).
  repeat split; auto.
Qed.

(** X29. What [stats] reports when it returns: one entry for each of
    activities, plans and feedback, in this order. An entity without a
    document has the entry [{"records": 0, "size_kb": 0, "date_range":
    None}]. An entity with a document has the number of records of its store,
    the size of that document, and a date range that is [None] when no
    record has a date (a truthy [sign_date], [start] or [created_time]), and
    otherwise ["lo .. hi"], where [lo] and [hi] are dates of records of the
    store, no date is less than [lo] and [hi] is less than none. *)
Theorem stats_describes_the_cache `{Runtime} (s : state)
  (result : dict string info) (s' : state) :
  stats s = Ret result s' ->
  keys result = store_names /\
  forall name, In name store_names ->
    exists i,
      get String.eqb name result = Some i /\
      match get String.eqb name (disk s) with
      | None => i = no_info
      | Some f => describes name f (values (records (loaded name s))) i
      end.
Proof.
  intros E.
  apply stats_Ret in E as (i1 & s1 & i2 & s2 & i3 & E1 & E2 & E3 & ->).
  pose proof (stats_entry_only_loads "activities" s) as L1.
  rewrite E1 in L1. simpl in L1.
  pose proof (stats_entry_only_loads "plans" s1) as L2.
  rewrite E2 in L2. simpl in L2.
  pose proof (only_loads_trans _ _ _ L1 L2) as L12.
  destruct L1 as ((_ & _ & Hd1 & Hl1) & _).
  destruct L12 as ((_ & _ & Hd2 & Hl2) & _).
  apply stats_entry_Ret in E1, E2, E3.
  rewrite Hd1, Hl1 in E2. rewrite Hd2, Hl2 in E3.
  split; [reflexivity|].
  intros name [<-|[<-|[<-|[]]]].
  - exists i1. split; [reflexivity|].
    destruct (get String.eqb "activities" (disk s)); [exact E1|apply E1].
  - exists i2. split; [reflexivity|].
    destruct (get String.eqb "plans" (disk s)); [exact E2|apply E2].
  - exists i3. split; [reflexivity|].
    destruct (get String.eqb "feedback" (disk s)); [exact E3|apply E3].
Qed.

Lemma stats_describes_the_cache_witness :
  exists result s' i,
    stats (H := SampleRuntime.march_2024) three_cached = Ret result s' /\
    get String.eqb "activities" result = Some i /\
    records_count i = 3 /\
    date_range i = Some "2023-11-14 .. 2024-02-27" /\
    get String.eqb "plans" result = Some no_info.
Proof.
  destruct (stats (H := SampleRuntime.march_2024) three_cached)
    as [result s'|e s'] eqn:E; [|vm_compute in E; discriminate].
  destruct (stats_describes_the_cache (H := SampleRuntime.march_2024)
              three_cached result s' E) as (_ & Hall).
  destruct (Hall "activities" ltac:(now left)) as (i & Hi & _).
  exists result, s', i. split; [reflexivity|]. split; [exact Hi|].
  vm_compute in E. inversion E. subst result. clear E.
  simpl in Hi. inversion Hi. subst i. repeat split.
Defined.

(** X30. [stats] of a cache directory without documents: every entry is
    [{"records": 0, "size_kb": 0, "date_range": None}], and nothing at all
    changes, not even which stores the object holds in memory. This is what
    [stats] gives right after [clear()]. *)
Theorem stats_of_an_empty_cache `{Runtime} (s : state) :
  (forall name, In name store_names ->
                get String.eqb name (disk s) = None) ->
  stats s
  = Ret [("activities", no_info); ("plans", no_info); ("feedback", no_info)]
        s.
Proof.
  intros Hnone.
  assert (Hentry : forall name, In name store_names ->
                                stats_entry name s = Ret no_info s).
  { intros name Hn. unfold stats_entry. now rewrite (Hnone name Hn). }
  unfold stats, store_names. cbn [foldM]. unfold bind.
  rewrite (Hentry "activities") by (simpl; auto). cbn [ret].
  rewrite (Hentry "plans") by (simpl; auto). cbn [ret].
  rewrite (Hentry "feedback") by (simpl; auto). reflexivity.
Qed.

Lemma stats_of_an_empty_cache_witness :
  let s := final_state
             (clear (H := SampleRuntime.march_2024) None three_cached) in
  (forall name, In name store_names ->
                get String.eqb name (disk s) = None) /\
  stats (H := SampleRuntime.march_2024) s
  = Ret [("activities", no_info); ("plans", no_info); ("feedback", no_info)]
        s.
Proof.
  intros s.
  assert (Hnone : forall name, In name store_names ->
                               get String.eqb name (disk s) = None).
  { intros name [<-|[<-|[<-|[]]]]; reflexivity. }
  split; [exact Hnone|].
  exact (stats_of_an_empty_cache (H := SampleRuntime.march_2024) s Hnone).
Defined.

End StatisticsFacts.
